(** * InjectDUTHierarchy: adding a level of hierarchy above the design-under-test

    A shallow embedding of [lib/Dialect/FIRRTL/Transforms/InjectDUTHierarchy.cpp]
    and the properties its specification states about it.

    The pass renames the DUT module into a _wrapper_, creates a new, empty
    module carrying the DUT's old name and ports (the _shell_, called [dut]
    in the second half of the source), instantiates the wrapper inside the
    shell, wires the ports straight through, and then repairs every
    hierarchical path ([hw.hierpath]) that mentions the DUT. *)

From stdpp Require Import base option list strings gmap.

Open Scope string_scope.
Open Scope list_scope.
Open Scope nat_scope.

(* ================================================================== *)
(** * The intermediate representation *)
(* ================================================================== *)

(** ** Name references: the elements of a hierarchical path

    [hw::InnerRefAttr] is a pair (module, inner symbol); [FlatSymbolRefAttr]
    names a module.  The [NameRefArrayAttr] constraint of [hw.hierpath] only
    admits these two kinds of attribute. *)
Inductive NameRef : Type :=
  | InnerRefAttr (module name : string)
  | FlatSymbolRefAttr (module : string).

#[global] Instance NameRef_eq_dec : EqDecision NameRef.
Proof. solve_decision. Defined.

(** [InnerRefAttr::getModule] / [FlatSymbolRefAttr::getAttr]. *)
Definition getModule (r : NameRef) : string :=
  match r with
  | InnerRefAttr m _ => m
  | FlatSymbolRefAttr m => m
  end.

(** [InnerRefAttr::getName]; a module reference has no inner name. *)
Definition getName (r : NameRef) : option string :=
  match r with
  | InnerRefAttr _ n => Some n
  | FlatSymbolRefAttr _ => None
  end.

(** ** Hierarchical paths *)
Record HierPathOp : Type := mkHierPath {
  sym_name : string;
  namepath : list NameRef
}.

#[global] Instance HierPathOp_eq_dec : EqDecision HierPathOp.
Proof. solve_decision. Defined.

Definition setNamepathAttr (path : HierPathOp) (np : list NameRef) : HierPathOp :=
  {| sym_name := sym_name path; namepath := np |}.

Definition setSymNameAttr (path : HierPathOp) (s : string) : HierPathOp :=
  {| sym_name := s; namepath := namepath path |}.

Module HierPath.
(** Modelled from the spec: the accessors of a hierarchical path (section 3,
    "Hierarchical Path"), which the HW dialect declares outside this file.
    Every locator names its owner module; the last locator is either a
    module locator or a component locator. *)
Definition modPart (path : HierPathOp) (i : nat) : option string :=
  getModule <$> namepath path !! i.

(** Modelled from the spec: the module named by the first locator. *)
Definition root (path : HierPathOp) : option string :=
  getModule <$> head (namepath path).

(** Modelled from the spec: the module named by the last locator. *)
Definition leafMod (path : HierPathOp) : option string :=
  getModule <$> last (namepath path).

(** Modelled from the spec: the inner symbol of the last locator, absent
    when the path ends in a module locator. *)
Definition ref (path : HierPathOp) : option string :=
  last (namepath path) ≫= getName.

(** Modelled from the spec: a path that scopes a whole module. *)
Definition isModule (path : HierPathOp) : bool :=
  bool_decide (ref path = None).

(** Modelled from the spec: a path that scopes one component. *)
Definition isComponent (path : HierPathOp) : bool :=
  negb (isModule path).
End HierPath.

(** ** Annotations

    An annotation is a dictionary attribute: an ordered list of named
    fields, sorted by key, with a [class] field naming its kind. *)
Inductive AnnoValue : Type :=
  | AString (s : string)
  | ABool (b : bool)
  | ASymbolRef (s : string)
  | AOther (s : string).

#[global] Instance AnnoValue_eq_dec : EqDecision AnnoValue.
Proof. solve_decision. Defined.

Abbreviation Annotation := (list (string * AnnoValue)).

(** Modelled from the spec: the field of a metadata entry under a key, if
    there is one. *)
Fixpoint dictGet (key : string) (dict : Annotation) : option AnnoValue :=
  match dict with
  | [] => None
  | (k, v) :: rest => if decide (k = key) then Some v else dictGet key rest
  end.

(** Modelled from the spec: a metadata entry exposes named fields, typed
    string, boolean or symbol reference, by key (section 6).  This is
    [anno.getMember<StringAttr>(key)]: the field, when it is present and a
    string. *)
Definition getMemberString (key : string) (anno : Annotation) : option string :=
  match dictGet key anno with
  | Some (AString s) => Some s
  | _ => None
  end.

(** Modelled from the spec: [anno.getMember<BoolAttr>(key)], the field when
    it is present and a boolean. *)
Definition getMemberBool (key : string) (anno : Annotation) : option bool :=
  match dictGet key anno with
  | Some (ABool b) => Some b
  | _ => None
  end.

(** Modelled from the spec: [anno.getMember<FlatSymbolRefAttr>(key)], the
    field when it is present and a symbol reference. *)
Definition getMemberSymbolRef (key : string) (anno : Annotation) : option string :=
  match dictGet key anno with
  | Some (ASymbolRef s) => Some s
  | _ => None
  end.

(** Modelled from the spec: [anno.isClass(cls)], the kind of a metadata
    entry is its [class] field. *)
Definition isClass (cls : string) (anno : Annotation) : bool :=
  bool_decide (getMemberString "class" anno = Some cls).

(** Modelled from the spec: replacing a field of a metadata entry (section
    6).  This is [anno.setMember(key, value)]: the field is replaced where the
    sorted dictionary holds it, and inserted at its sorted position
    otherwise. *)
Fixpoint setMember (key : string) (value : AnnoValue) (dict : Annotation) : Annotation :=
  match dict with
  | [] => [(key, value)]
  | (k, v) :: rest =>
      match String.compare k key with
      | Lt => (k, v) :: setMember key value rest
      | Eq => (key, value) :: rest
      | Gt => (key, value) :: (k, v) :: rest
      end
  end.

(** Modelled from the spec: the class of the configuration directive; the
    source spells it out in its error messages. *)
Definition injectDUTHierarchyAnnoClass : string :=
  "sifive.enterprise.firrtl.InjectDUTHierarchyAnnotation".

(** Modelled from the spec: the class of the "this module is the DUT"
    marker, a constant declared outside this file. *)
Definition dutAnnoClass : string :=
  "sifive.enterprise.firrtl.MarkDUTAnnotation".

(** ** Modules, ports and operations *)
Module Direction.
Inductive t : Type := In | Out.
#[global] Instance eq_dec : EqDecision t.
Proof. solve_decision. Defined.
End Direction.

Inductive Visibility : Type := Public | Private | Nested.
Inductive Convention : Type := Internal | Scalarized.

#[global] Instance Visibility_eq_dec : EqDecision Visibility.
Proof. solve_decision. Defined.
#[global] Instance Convention_eq_dec : EqDecision Convention.
Proof. solve_decision. Defined.

Record PortInfo : Type := mkPort {
  port_name : string;
  port_type : string;
  direction : Direction.t;
  port_sym : option string;
  port_annotations : list Annotation
}.

#[global] Instance PortInfo_eq_dec : EqDecision PortInfo.
Proof. solve_decision. Defined.

(** An SSA value inside a module body: a block argument (one per port of
    the enclosing module) or a result of an instance (one per port of the
    instantiated module). *)
Inductive Value : Type :=
  | BlockArgument (index : nat)
  | InstanceResult (instance : string) (index : nat).

#[global] Instance Value_eq_dec : EqDecision Value.
Proof. solve_decision. Defined.

(** The instance operation as this pass builds it: no annotations, no port
    annotations, not lowered to a bind, and always with an inner symbol. *)
Record InstanceOp : Type := mkInstance {
  inst_name : string;
  inst_module : string;
  inst_inner_sym : string;
  inst_num_results : nat
}.

#[global] Instance InstanceOp_eq_dec : EqDecision InstanceOp.
Proof. solve_decision. Defined.

(** The operations of a module body that the pass creates or inspects; any
    other operation is opaque and may hold nested operations. *)
#[warnings="-register-all"]
Inductive Operation : Type :=
  | OpInstance (inst : InstanceOp)
  | OpConnect (dest src : Value)
  | OpRWProbe (targetModule targetName : string)
  | OpOther (mnemonic : string) (nested : list Operation).

Record FModuleOp : Type := mkModule {
  mod_name : string;
  mod_visibility : Visibility;
  mod_convention : Convention;
  mod_ports : list PortInfo;
  mod_annotations : list Annotation;
  mod_body : list Operation
}.

(** The circuit: its annotations and the operations of its body.  The body
    interleaves modules and hierarchical paths; the pass never observes how
    they interleave, so the two kinds are kept as two ordered lists. *)
Record CircuitOp : Type := mkCircuit {
  circ_annotations : list Annotation;
  circ_modules : list FModuleOp;
  circ_paths : list HierPathOp
}.

(* ================================================================== *)
(** * addHierarchy *)
(* ================================================================== *)

(** The [while] loop of [addHierarchy]: locators are copied to
    [newNamepath] until one names the DUT.  [rest] is the part of the
    namepath from index [nlaIdx] on.  Running off the end of the namepath is
    an out-of-bounds access, rendered as [None]. *)
Fixpoint copyUntilDut (dutName : string) (rest newNamepath : list NameRef)
  : option (list NameRef * list NameRef) :=
  match rest with
  | [] => None
  | r :: rest' =>
      if decide (getModule r = dutName)
      then Some (newNamepath, rest)
      else copyUntilDut dutName rest' (newNamepath ++ [r])
  end.

Definition addHierarchy (path : HierPathOp) (dut : FModuleOp) (wrapperInst : InstanceOp)
  : option HierPathOp :=
  match copyUntilDut (mod_name dut) (namepath path) [] with
  | Some (newNamepath, at_dut :: back) =>
      let newNamepath :=
        newNamepath ++ [InnerRefAttr (mod_name dut) (inst_inner_sym wrapperInst)] in
      (* Add the extra level of hierarchy. *)
      let newNamepath :=
        match at_dut with
        | InnerRefAttr _ dutRefName =>
            newNamepath ++ [InnerRefAttr (inst_module wrapperInst) dutRefName]
        | FlatSymbolRefAttr _ =>
            newNamepath ++ [FlatSymbolRefAttr (inst_module wrapperInst)]
        end in
      (* Add anything left over. *)
      Some (setNamepathAttr path (newNamepath ++ back))
  | _ => None
  end.

(* ================================================================== *)
(** * Helpers of the annotation and module interfaces *)
(* ================================================================== *)

(** Modelled from the spec: removing entries from the metadata store
    (section 6).  This is [AnnotationSet::removeAnnotations(predicate)]: every
    annotation for which the predicate answers [true] is removed; the others
    keep their order.  The source relies on this reading in lines 316-331,
    where [removeAndUpdateNLAs] answers [false] for what stays. *)
Definition removeAnnotationsIf (predicate : Annotation → bool)
    (annos : list Annotation) : list Annotation :=
  filter (λ anno, predicate anno = false) annos.

Definition setPrivate (m : FModuleOp) : FModuleOp :=
  {| mod_name := mod_name m; mod_visibility := Private;
     mod_convention := mod_convention m; mod_ports := mod_ports m;
     mod_annotations := mod_annotations m; mod_body := mod_body m |}.

Definition setVisibility (m : FModuleOp) (v : Visibility) : FModuleOp :=
  {| mod_name := mod_name m; mod_visibility := v;
     mod_convention := mod_convention m; mod_ports := mod_ports m;
     mod_annotations := mod_annotations m; mod_body := mod_body m |}.

Definition setName (m : FModuleOp) (n : string) : FModuleOp :=
  {| mod_name := n; mod_visibility := mod_visibility m;
     mod_convention := mod_convention m; mod_ports := mod_ports m;
     mod_annotations := mod_annotations m; mod_body := mod_body m |}.

Definition setAnnotations (m : FModuleOp) (annos : list Annotation) : FModuleOp :=
  {| mod_name := mod_name m; mod_visibility := mod_visibility m;
     mod_convention := mod_convention m; mod_ports := mod_ports m;
     mod_annotations := annos; mod_body := mod_body m |}.

Definition setPorts (m : FModuleOp) (ports : list PortInfo) : FModuleOp :=
  {| mod_name := mod_name m; mod_visibility := mod_visibility m;
     mod_convention := mod_convention m; mod_ports := ports;
     mod_annotations := mod_annotations m; mod_body := mod_body m |}.

Definition setBody (m : FModuleOp) (body : list Operation) : FModuleOp :=
  {| mod_name := mod_name m; mod_visibility := mod_visibility m;
     mod_convention := mod_convention m; mod_ports := mod_ports m;
     mod_annotations := mod_annotations m; mod_body := body |}.

Definition setPortAnnotations (p : PortInfo) (annos : list Annotation) : PortInfo :=
  {| port_name := port_name p; port_type := port_type p;
     direction := direction p; port_sym := port_sym p;
     port_annotations := annos |}.

(** Modelled from the spec: [AnnotationSet::removeAnnotations(op,
    predicate)], the same on the annotations of a module. *)
Definition removeAnnotations (m : FModuleOp) (predicate : Annotation → bool) : FModuleOp :=
  setAnnotations m (removeAnnotationsIf predicate (mod_annotations m)).

(** Modelled from the spec: [AnnotationSet::removePortAnnotations(module,
    predicate)], the same on the annotations of every port; the predicate
    also receives the port index. *)
Definition removePortAnnotations (m : FModuleOp)
    (predicate : nat → Annotation → bool) : FModuleOp :=
  setPorts m
    (imap (λ i p, setPortAnnotations p
                    (removeAnnotationsIf (predicate i) (port_annotations p)))
          (mod_ports m)).

(** Modelled from the spec: [AnnotationSet::hasAnnotation(cls)], whether the
    module carries a metadata entry of the class. *)
Definition hasAnnotation (cls : string) (m : FModuleOp) : bool :=
  bool_decide (Exists (λ anno, isClass cls anno = true) (mod_annotations m)).

(** Modelled from the spec: the DUT locator (section 6), a query returning
    the module marked as DUT, or none if absent.  The analysis lives outside
    this file; the module is returned with the modules before and after it,
    because the pass inserts the new module right behind it. *)
Fixpoint getDut (modules : list FModuleOp)
  : option (list FModuleOp * FModuleOp * list FModuleOp) :=
  match modules with
  | [] => None
  | m :: rest =>
      if hasAnnotation dutAnnoClass m then Some ([], m, rest)
      else '(before, dut, after) ← getDut rest; Some (m :: before, dut, after)
  end.

(** Modelled from the spec: the pass-through connection (section 4.4, step
    6).  [emitConnect(builder, loc, dst, src)] lives outside this file; it
    makes [src] drive [dst]. *)
Definition emitConnect (dst src : Value) : Operation := OpConnect dst src.

(** [module.getPortDirection(i)]; there is none beyond the last port. *)
Definition getPortDirection (m : FModuleOp) (i : nat) : option Direction.t :=
  direction <$> mod_ports m !! i.

(** The inner symbols a module holds: those of its ports and of the
    instances in its body. *)
Fixpoint innerSymbolsOf (op : Operation) : list string :=
  match op with
  | OpInstance inst => [inst_inner_sym inst]
  | OpOther _ nested => concat (map innerSymbolsOf nested)
  | _ => []
  end.

(** Modelled from the spec: the names a namespace is seeded with (section
    4.2): one namespace covers the symbols of the whole design, that is of
    every module and every hierarchical path in the circuit; one namespace
    per module covers its inner symbols. *)
Definition CircuitNamespace (circuit : CircuitOp) : gset string :=
  list_to_set (mod_name <$> circ_modules circuit)
  ∪ list_to_set (sym_name <$> circ_paths circuit).

Definition InnerSymbolNamespace (m : FModuleOp) : gset string :=
  list_to_set (omap port_sym (mod_ports m))
  ∪ list_to_set (concat (map innerSymbolsOf (mod_body m))).

(** The symbols that the annotations of a list reference through their
    [circt.nonlocal] field. *)
Definition nonlocalSymbol (anno : Annotation) : option string :=
  getMemberSymbolRef "circt.nonlocal" anno.

(** Lines 224-239: the paths used by the annotations of the DUT and of its
    ports, and the symbols of its ports. *)
Definition collectDutPaths (dut : FModuleOp) : gset string :=
  list_to_set (omap nonlocalSymbol (mod_annotations dut))
  ∪ list_to_set (omap nonlocalSymbol (concat (port_annotations <$> mod_ports dut))).

Definition collectDutPortSyms (dut : FModuleOp) : gset string :=
  list_to_set (omap port_sym (mod_ports dut)).

(** Modelled from the spec: the hierarchical path table (section 4.3);
    [pathsTouching(module)] holds every path that names the module in one of
    its locators.  The table is an analysis outside this file. *)
Definition pathTouches (moduleName : string) (path : HierPathOp) : bool :=
  bool_decide (moduleName ∈ getModule <$> namepath path).

(* ================================================================== *)
(** * The pass *)
(* ================================================================== *)

(** The errors the pass emits on the circuit, in the order of emission:
    - [MalformedDirective]: "contained a malformed ... annotation that did
      not contain a 'name' field";
    - [DuplicateDirective]: "contained multiple ... annotations when at most
      one is allowed";
    - [MissingDUT]: "contained a '...InjectDUTHierarchyAnnotation', but no
      '...MarkDUTAnnotation' was provided". *)
Inductive Diagnostic : Type :=
  | MalformedDirective
  | DuplicateDirective
  | MissingDUT.

#[global] Instance Diagnostic_eq_dec : EqDecision Diagnostic.
Proof. solve_decision. Defined.

(** How a run ends: [signalPassFailure], [markAllAnalysesPreserved], or the
    plain return at the end of [runOnOperation]. *)
Inductive PassStatus : Type :=
  | PassFailure
  | AllAnalysesPreserved
  | PassSuccess.

#[global] Instance PassStatus_eq_dec : EqDecision PassStatus.
Proof. solve_decision. Defined.

Record PassRun : Type := mkRun {
  status : PassStatus;
  diagnostics : list Diagnostic;
  result : CircuitOp
}.

(** The local variables of lines 86-97, as the loop over the circuit's
    annotations updates them. *)
Record Directive : Type := mkDirective {
  wrapperName : option string;
  moveDut : bool;
  error : bool;
  emitted : list Diagnostic
}.

Definition noDirective : Directive :=
  {| wrapperName := None; moveDut := false; error := false; emitted := [] |}.

(** One iteration of the loop of lines 101-127. *)
Definition readDirective (st : Directive) (anno : Annotation) : Directive :=
  if negb (isClass injectDUTHierarchyAnnoClass anno) then st
  else
    match getMemberString "name" anno with
    | None =>
        {| wrapperName := wrapperName st; moveDut := moveDut st;
           error := true; emitted := emitted st ++ [MalformedDirective] |}
    | Some name =>
        match wrapperName st with
        | Some _ =>
            {| wrapperName := wrapperName st; moveDut := moveDut st;
               error := true; emitted := emitted st ++ [DuplicateDirective] |}
        | None =>
            {| wrapperName := Some name;
               moveDut := match getMemberBool "moveDut" anno with
                          | Some moveDutAnnoAttr => moveDutAnnoAttr
                          | None => moveDut st
                          end;
               error := error st; emitted := emitted st |}
        end
    end.

Definition readDirectives (annos : list Annotation) : Directive :=
  foldl readDirective noDirective annos.

(** Lines 342-346: the [rwprobe] operations anywhere inside the wrapper are
    pointed at the wrapper's name. *)
Fixpoint updateRWProbe (wrapperModuleName : string) (op : Operation) : Operation :=
  match op with
  | OpRWProbe _ targetName => OpRWProbe wrapperModuleName targetName
  | OpOther mnemonic nested => OpOther mnemonic (map (updateRWProbe wrapperModuleName) nested)
  | _ => op
  end.

(** [dutPortSyms.count(nla.ref())] on a [DenseSet<StringAttr>]; the null
    attribute of a module path is in no set built from port symbols. *)
Definition setCount (set : gset string) (attr : option string) : bool :=
  match attr with
  | Some name => bool_decide (name ∈ set)
  | None => false
  end.

(** [dutRenames.insert({key, clone})]: a [DenseMap] insertion keeps an entry
    that is already there. *)
Definition dutRenamesInsert (key : string) (clone : HierPathOp)
    (dutRenames : gmap string HierPathOp) : gmap string HierPathOp :=
  match dutRenames !! key with
  | Some _ => dutRenames
  | None => <[key := clone]> dutRenames
  end.

(** Lines 315-327: the predicate handed to [removeAnnotations].  [Some anno']
    stands for "return true, having pushed [anno'] on [newAnnotations]",
    [None] for "return false". *)
Definition removeAndUpdateNLAs (dutRenames : gmap string HierPathOp)
    (anno : Annotation) : option Annotation :=
  match nonlocalSymbol anno with
  | None => None
  | Some sym =>
      match dutRenames !! sym with
      | None => None
      | Some clone =>
          Some (setMember "circt.nonlocal" (ASymbolRef (sym_name clone)) anno)
      end
  end.

(** [removeAnnotations(removeAndUpdateNLAs)] followed by
    [addAnnotations(newAnnotations)]: the annotations that stay keep their
    order, the rewritten ones are appended behind them. *)
Definition replaceAnnotations (dutRenames : gmap string HierPathOp)
    (annos : list Annotation) : list Annotation :=
  removeAnnotationsIf (λ anno, bool_decide (is_Some (removeAndUpdateNLAs dutRenames anno))) annos
  ++ omap (removeAndUpdateNLAs dutRenames) annos.

Section Pass.
(** Modelled from the spec: the symbol namespaces (section 4.2), whose
    implementation is outside this file.  [allocate used hint] is the name
    that a namespace holding [used] hands out for [hint]; the contract is
    that it is never a name in use, and is the hint itself when the hint is
    free.  The name is reserved from then on. *)
Variable allocate : gset string → string → string.

Definition newName (ns : gset string) (hint : string) : string * gset string :=
  let name := allocate ns hint in (name, {[name]} ∪ ns).

(** Lines 158-204: the new DUT is created behind the old one, which is
    renamed and becomes the wrapper.  Returns the wrapper, the DUT and the
    circuit namespace. *)
Definition splitDut (moveDut : bool) (circuitNS : gset string)
    (wrapperName : string) (dut : FModuleOp)
  : FModuleOp * FModuleOp * gset string :=
  let newDUT :=
    {| mod_name := mod_name dut; mod_visibility := Public;
       mod_convention := mod_convention dut; mod_ports := mod_ports dut;
       mod_annotations := mod_annotations dut; mod_body := [] |} in
  let '(newDUT, dut) :=
    if moveDut then (setPrivate newDUT, dut)
    else (setVisibility newDUT (mod_visibility dut), setPrivate dut) in
  let '(name, circuitNS) := newName circuitNS wrapperName in
  let dut := setName dut name in
  (* The original DUT module is now the wrapper. *)
  let wrapper := dut in
  let dut := newDUT in
  let wrapper := removePortAnnotations wrapper (λ _ _, true) in
  let wrapper :=
    removeAnnotations wrapper
      (λ anno, if isClass dutAnnoClass anno then negb moveDut else true) in
  let dut :=
    if moveDut then removeAnnotations dut (isClass dutAnnoClass) else dut in
  (wrapper, dut, circuitNS).

(** Lines 206-221: the wrapper is instantiated at the start of the DUT's
    body, and each result of the instance is connected to the DUT's port of
    the same index.  An index without a port is an out-of-bounds access. *)
Definition connectPort (dut : FModuleOp) (wrapperInst : InstanceOp)
    (index : nat) : option Operation :=
  let lhs := BlockArgument index in
  let rhs := InstanceResult (inst_name wrapperInst) index in
  dir ← getPortDirection dut index;
  Some (if decide (dir = Direction.In)
        then emitConnect rhs lhs
        else emitConnect lhs rhs).

Definition instantiateWrapper (dut wrapper : FModuleOp)
  : option (InstanceOp * FModuleOp) :=
  let dutNS := InnerSymbolNamespace dut in
  let wrapperInst :=
    {| inst_name := mod_name wrapper;
       inst_module := mod_name wrapper;
       inst_inner_sym := (newName dutNS (mod_name wrapper)).1;
       inst_num_results := length (mod_ports wrapper) |} in
  connects ← mapM (connectPort dut wrapperInst) (seq 0 (inst_num_results wrapperInst));
  Some (wrapperInst,
        setBody dut (OpInstance wrapperInst :: connects ++ mod_body dut)).

(** Lines 263-313: the body of the loop over the paths that touch the DUT.
    The result lists the operations that stand where [nla] stood (a clone is
    inserted in front of it), with the circuit namespace and [dutRenames].
    [None] is a violated assertion: the [assert] or the unchecked [cast] of
    the root case, or the out-of-bounds access of [addHierarchy].  The two
    tests that the source nests under [nla.leafMod() == dut.getNameAttr()]
    each repeat that condition here; the first [continue]s, the second
    falls through to [addHierarchy]. *)
Definition processNLA (wrapper dut : FModuleOp) (wrapperInst : InstanceOp)
    (dutPaths dutPortSyms : gset string)
    (circuitNS : gset string) (dutRenames : gmap string HierPathOp)
    (nla : HierPathOp)
  : option (list HierPathOp * gset string * gmap string HierPathOp) :=
  if decide (HierPath.root nla = Some (mod_name dut)) then
    (* The DUT is the root module. *)
    match namepath nla with
    | InnerRefAttr _ frontName :: ((_ :: _) as tail) =>
        Some ([setNamepathAttr nla (InnerRefAttr (mod_name wrapper) frontName :: tail)],
              circuitNS, dutRenames)
    | _ => None
    end
  else if bool_decide (HierPath.leafMod nla = Some (mod_name dut))
          && HierPath.isComponent nla
          && setCount dutPortSyms (HierPath.ref nla) then
    (* Case (1): ref path targeting a port. *)
    Some ([nla], circuitNS, dutRenames)
  else
    let '(clones, circuitNS, dutRenames) :=
      if bool_decide (HierPath.leafMod nla = Some (mod_name dut))
         && HierPath.isModule nla
         && bool_decide (sym_name nla ∈ dutPaths) then
        (* Case (3): the module path is used by the DUT or a port. *)
        let '(name, circuitNS) := newName circuitNS (sym_name nla) in
        let clone := setSymNameAttr nla name in
        ([clone], circuitNS, dutRenamesInsert (sym_name nla) clone dutRenames)
      else ([], circuitNS, dutRenames) in
    nla' ← addHierarchy nla dut wrapperInst;
    Some (clones ++ [nla'], circuitNS, dutRenames).

(** The loop itself: the paths of the circuit are visited in order, and
    those that do not touch the DUT are not in the table's answer. *)
Fixpoint processNLAs (wrapper dut : FModuleOp) (wrapperInst : InstanceOp)
    (dutPaths dutPortSyms : gset string)
    (circuitNS : gset string) (dutRenames : gmap string HierPathOp)
    (paths : list HierPathOp)
  : option (list HierPathOp * gset string * gmap string HierPathOp) :=
  match paths with
  | [] => Some ([], circuitNS, dutRenames)
  | nla :: rest =>
      if pathTouches (mod_name dut) nla then
        '(here, circuitNS, dutRenames) ←
          processNLA wrapper dut wrapperInst dutPaths dutPortSyms
                     circuitNS dutRenames nla;
        '(there, circuitNS, dutRenames) ←
          processNLAs wrapper dut wrapperInst dutPaths dutPortSyms
                      circuitNS dutRenames rest;
        Some (here ++ there, circuitNS, dutRenames)
      else
        '(there, circuitNS, dutRenames) ←
          processNLAs wrapper dut wrapperInst dutPaths dutPortSyms
                      circuitNS dutRenames rest;
        Some (nla :: there, circuitNS, dutRenames)
  end.

(** Lines 329-340: the annotations of the DUT and of its ports are moved
    over to the cloned paths. *)
Definition updateAnnotations (dutRenames : gmap string HierPathOp)
    (dut : FModuleOp) : FModuleOp :=
  let dut := setAnnotations dut (replaceAnnotations dutRenames (mod_annotations dut)) in
  setPorts dut
    ((λ p, setPortAnnotations p (replaceAnnotations dutRenames (port_annotations p)))
       <$> mod_ports dut).

(** Lines 147-346: everything that happens once the directive and the DUT
    are known. *)
Definition injectHierarchy (circuit : CircuitOp) (wrapperName : string)
    (moveDut : bool) (before : list FModuleOp) (dut : FModuleOp)
    (after : list FModuleOp) : option CircuitOp :=
  let circuitNS := CircuitNamespace circuit in
  let '(wrapper, dut, circuitNS) := splitDut moveDut circuitNS wrapperName dut in
  '(wrapperInst, dut) ← instantiateWrapper dut wrapper;
  let dutPaths := collectDutPaths dut in
  let dutPortSyms := collectDutPortSyms dut in
  '(paths, _, dutRenames) ←
    processNLAs wrapper dut wrapperInst dutPaths dutPortSyms
                circuitNS ∅ (circ_paths circuit);
  let dut := updateAnnotations dutRenames dut in
  let wrapper :=
    setBody wrapper (map (updateRWProbe (mod_name wrapper)) (mod_body wrapper)) in
  Some {| circ_annotations := circ_annotations circuit;
          circ_modules := before ++ wrapper :: dut :: after;
          circ_paths := paths |}.

(** [InjectDUTHierarchy::runOnOperation].  [None] is a run that a violated
    assertion cut short. *)
Definition runOnOperation (circuit : CircuitOp) : option PassRun :=
  let directive := readDirectives (circ_annotations circuit) in
  if error directive then
    Some {| status := PassFailure; diagnostics := emitted directive;
            result := circuit |}
  else
    match wrapperName directive with
    | None =>
        (* The prerequisites for the pass to run were not met. *)
        Some {| status := AllAnalysesPreserved;
                diagnostics := emitted directive; result := circuit |}
    | Some wrapperName =>
        match getDut (circ_modules circuit) with
        | None =>
            Some {| status := PassFailure;
                    diagnostics := emitted directive ++ [MissingDUT];
                    result := circuit |}
        | Some (before, dut, after) =>
            circuit' ← injectHierarchy circuit wrapperName (moveDut directive)
                                       before dut after;
            Some {| status := PassSuccess; diagnostics := emitted directive;
                    result := circuit' |}
        end
    end.
End Pass.

(* ================================================================== *)
(** * A namespace that meets the contract, and sample circuits *)
(* ================================================================== *)

Fixpoint underscores (n : nat) : string :=
  match n with
  | 0 => ""
  | S n => "_" +:+ underscores n
  end.

Definition longestName (used : gset string) : nat :=
  set_fold (λ name n, String.length name `max` n) 0 used.

(** The hint itself when it is free; otherwise the hint followed by more
    underscores than any name in use is long. *)
Definition padAllocate (used : gset string) (hint : string) : string :=
  if decide (hint ∈ used) then hint +:+ underscores (S (longestName used))
  else hint.

Definition classAnno (cls : string) (fields : Annotation) : Annotation :=
  ("class", AString cls) :: fields.

Definition topModule : FModuleOp :=
  {| mod_name := "Top"; mod_visibility := Public; mod_convention := Internal;
     mod_ports := []; mod_annotations := [];
     mod_body := [OpOther "firrtl.instance dut @DUT" []] |}.

(** A DUT with an input [a] and an output [b], two annotations that are
    scoped by the path [nla1], and a body with [rwprobe]s. *)
Definition dutModule (moduleAnnos : list Annotation) : FModuleOp :=
  {| mod_name := "DUT"; mod_visibility := Public; mod_convention := Internal;
     mod_ports :=
       [ {| port_name := "a"; port_type := "uint<1>"; direction := Direction.In;
            port_sym := Some "a"; port_annotations := [] |};
         {| port_name := "b"; port_type := "uint<1>"; direction := Direction.Out;
            port_sym := None;
            port_annotations :=
              [[("circt.nonlocal", ASymbolRef "nla1"); ("class", AString "foo")]] |} ];
     mod_annotations := moduleAnnos;
     mod_body := [OpRWProbe "DUT" "x"; OpOther "firrtl.when" [OpRWProbe "DUT" "y"]] |}.

Definition samplePaths : list HierPathOp :=
  [ mkHierPath "nla1" [InnerRefAttr "Top" "dut"; FlatSymbolRefAttr "DUT"];
    mkHierPath "nla2" [InnerRefAttr "Top" "dut"; InnerRefAttr "DUT" "a"];
    mkHierPath "nla3" [InnerRefAttr "Top" "dut"; InnerRefAttr "DUT" "sub";
                       FlatSymbolRefAttr "Sub"];
    mkHierPath "nla4" [InnerRefAttr "DUT" "sub"; FlatSymbolRefAttr "Sub"];
    mkHierPath "nla5" [InnerRefAttr "Top" "x"; FlatSymbolRefAttr "X"] ].

Definition sampleDutAnnos : list Annotation :=
  [ classAnno dutAnnoClass [];
    [("circt.nonlocal", ASymbolRef "nla1"); ("class", AString "bar")];
    classAnno "baz" [] ].

(** One valid directive, [moveDut] left at its default. *)
Definition sampleCircuit : CircuitOp :=
  {| circ_annotations :=
       [classAnno injectDUTHierarchyAnnoClass [("name", AString "Wrapper")]];
     circ_modules := [topModule; dutModule sampleDutAnnos];
     circ_paths := samplePaths |}.

(** The same design in [moveDut] mode. *)
Definition sampleCircuitMoveDut : CircuitOp :=
  {| circ_annotations :=
       [classAnno injectDUTHierarchyAnnoClass
          [("moveDut", ABool true); ("name", AString "Wrapper")]];
     circ_modules := [topModule; dutModule sampleDutAnnos];
     circ_paths := samplePaths |}.

(** The same design without a directive. *)
Definition sampleCircuitNoDirective : CircuitOp :=
  {| circ_annotations := [classAnno "circuit.other" []];
     circ_modules := [topModule; dutModule sampleDutAnnos];
     circ_paths := samplePaths |}.

(** [moveDut] mode, with the DUT marker itself scoped by the path [nla1]
    and no other user of that path. *)
Definition markerScopedCircuit : CircuitOp :=
  {| circ_annotations :=
       [classAnno injectDUTHierarchyAnnoClass
          [("moveDut", ABool true); ("name", AString "Wrapper")]];
     circ_modules :=
       [ topModule;
         {| mod_name := "DUT"; mod_visibility := Public; mod_convention := Internal;
            mod_ports := [];
            mod_annotations :=
              [[("circt.nonlocal", ASymbolRef "nla1"); ("class", AString dutAnnoClass)]];
            mod_body := [] |} ];
     circ_paths :=
       [mkHierPath "nla1" [InnerRefAttr "Top" "dut"; FlatSymbolRefAttr "DUT"]] |}.

(** A directive without a name in front of a well-formed one. *)
Definition malformedThenValid : CircuitOp :=
  {| circ_annotations :=
       [ classAnno injectDUTHierarchyAnnoClass [];
         classAnno injectDUTHierarchyAnnoClass [("name", AString "Wrapper")] ];
     circ_modules := [topModule; dutModule sampleDutAnnos];
     circ_paths := samplePaths |}.

(** Two well-formed directives. *)
Definition twoDirectives : CircuitOp :=
  {| circ_annotations :=
       [ classAnno injectDUTHierarchyAnnoClass [("name", AString "Wrapper")];
         classAnno injectDUTHierarchyAnnoClass [("name", AString "Other")] ];
     circ_modules := [topModule; dutModule sampleDutAnnos];
     circ_paths := samplePaths |}.

(** A valid directive in a design where no module is marked. *)
Definition noDutCircuit : CircuitOp :=
  {| circ_annotations :=
       [classAnno injectDUTHierarchyAnnoClass [("name", AString "Wrapper")]];
     circ_modules := [topModule];
     circ_paths := samplePaths |}.

(** A design with a path that consists of the DUT alone. *)
Definition localPathCircuit : CircuitOp :=
  {| circ_annotations :=
       [classAnno injectDUTHierarchyAnnoClass [("name", AString "Wrapper")]];
     circ_modules := [topModule; dutModule sampleDutAnnos];
     circ_paths := [mkHierPath "local" [FlatSymbolRefAttr "DUT"]] |}.


Definition emptyCircuit : CircuitOp :=
  {| circ_annotations := []; circ_modules := []; circ_paths := [] |}.

Definition noRun : PassRun :=
  {| status := PassFailure; diagnostics := []; result := emptyCircuit |}.

(** The runs of the pass on the sample circuits, with the sample namespace. *)
Definition sampleRun : PassRun :=
  Eval vm_compute in default noRun (runOnOperation padAllocate sampleCircuit).

Definition sampleRunMoveDut : PassRun :=
  Eval vm_compute in default noRun (runOnOperation padAllocate sampleCircuitMoveDut).

Definition markerScopedRun : PassRun :=
  Eval vm_compute in default noRun (runOnOperation padAllocate markerScopedCircuit).

Definition sampleUser : Annotation :=
  [("circt.nonlocal", ASymbolRef "nla1"); ("class", AString "bar")].
(* ================================================================== *)
(** * Vocabulary of the properties *)
(* ================================================================== *)

(** The configuration directives among the annotations of a circuit, those
    that carry a [name] field of string type, and those that do not. *)
Definition isDirective (anno : Annotation) : bool :=
  isClass injectDUTHierarchyAnnoClass anno.

Definition hasName (anno : Annotation) : bool :=
  bool_decide (is_Some (getMemberString "name" anno)).

Definition directivesOf (annos : list Annotation) : list Annotation :=
  filter (λ anno, isDirective anno = true) annos.

Definition namedDirectives (annos : list Annotation) : list Annotation :=
  filter (λ anno, hasName anno = true) (directivesOf annos).

Definition namelessDirectives (annos : list Annotation) : list Annotation :=
  filter (λ anno, hasName anno = false) (directivesOf annos).

(** How often a diagnostic was emitted. *)
Definition occurrences (d : Diagnostic) (ds : list Diagnostic) : nat :=
  length (filter (λ d', d' = d) ds).

(** A run that aborted and left the circuit as it was. *)
Definition abortedUnchanged (circuit : CircuitOp) (run : PassRun) : Prop :=
  status run = PassFailure ∧ result run = circuit.


(** Claim C7 read word for word: each of the three conditions makes the run
    report the error of its own kind and abort with the circuit unchanged. *)
Definition C7_as_stated (allocate : gset string → string → string)
    (circuit : CircuitOp) : Prop :=
  ∀ run, runOnOperation allocate circuit = Some run →
    (namelessDirectives (circ_annotations circuit) ≠ [] →
       MalformedDirective ∈ diagnostics run ∧ abortedUnchanged circuit run)
    ∧ (2 ≤ length (directivesOf (circ_annotations circuit)) →
       DuplicateDirective ∈ diagnostics run ∧ abortedUnchanged circuit run)
    ∧ (directivesOf (circ_annotations circuit) ≠ []
       ∧ getDut (circ_modules circuit) = None →
       MissingDUT ∈ diagnostics run ∧ abortedUnchanged circuit run).

(** A locator of the old DUT, pointed at the wrapper instead: an instance or
    component locator keeps its inner symbol, a module locator names the
    wrapper. *)
Definition retargetLocator (wrapperModuleName : string) (r : NameRef) : NameRef :=
  match r with
  | InnerRefAttr _ name => InnerRefAttr wrapperModuleName name
  | FlatSymbolRefAttr _ => FlatSymbolRefAttr wrapperModuleName
  end.

(** The namepath splits at the first locator that names the given module. *)
Definition splitsAt (moduleName : string) (np front : list NameRef)
    (at_module : NameRef) (back : list NameRef) : Prop :=
  np = front ++ at_module :: back
  ∧ Forall (λ r, getModule r ≠ moduleName) front
  ∧ getModule at_module = moduleName.

(** The connection that the loop of lines 215-221 makes for the port of a
    given index: the shell's input drives the instance's input, the
    instance's output drives the shell's output. *)
Definition passThrough (instanceName : string) (index : nat) (p : PortInfo)
  : Operation :=
  match direction p with
  | Direction.In => OpConnect (InstanceResult instanceName index) (BlockArgument index)
  | Direction.Out => OpConnect (BlockArgument index) (InstanceResult instanceName index)
  end.

(** The precondition of the root case: more than one locator, the first of
    which is an instance locator. *)
Definition rootPrecondition (nla : HierPathOp) : Prop :=
  1 < length (namepath nla)
  ∧ ∃ module name, head (namepath nla) = Some (InnerRefAttr module name).

(** The path ends in a component locator for a port symbol of the module. *)
Definition endsAtPortOf (m : FModuleOp) (nla : HierPathOp) : Prop :=
  HierPath.leafMod nla = Some (mod_name m)
  ∧ ∃ sym, HierPath.ref nla = Some sym ∧ Some sym ∈ port_sym <$> mod_ports m.

(** What a port looks like from outside the module. *)
Definition portSignature (p : PortInfo) : string * string * Direction.t * option string :=
  (port_name p, port_type p, direction p, port_sym p).

(** The intermediate values of a run, named: the wrapper and the new DUT as
    the block of lines 160-204 leaves them, the instance of line 209, and the
    new DUT once it is wired up (line 221). *)
Definition splitWrapper (allocate : gset string → string → string)
    (circuit : CircuitOp) (hint : string) (moveDut : bool) (oldDut : FModuleOp)
  : FModuleOp :=
  (splitDut allocate moveDut (CircuitNamespace circuit) hint oldDut).1.1.

Definition splitShell (allocate : gset string → string → string)
    (circuit : CircuitOp) (hint : string) (moveDut : bool) (oldDut : FModuleOp)
  : FModuleOp :=
  (splitDut allocate moveDut (CircuitNamespace circuit) hint oldDut).1.2.

Definition builtInstance (allocate : gset string → string → string)
    (circuit : CircuitOp) (hint : string) (moveDut : bool) (oldDut : FModuleOp)
  : InstanceOp :=
  let wrapper := splitWrapper allocate circuit hint moveDut oldDut in
  let shell := splitShell allocate circuit hint moveDut oldDut in
  {| inst_name := mod_name wrapper; inst_module := mod_name wrapper;
     inst_inner_sym := allocate (InnerSymbolNamespace shell) (mod_name wrapper);
     inst_num_results := length (mod_ports wrapper) |}.

Definition wiredShell (allocate : gset string → string → string)
    (circuit : CircuitOp) (hint : string) (moveDut : bool) (oldDut : FModuleOp)
  : FModuleOp :=
  let wrapper := splitWrapper allocate circuit hint moveDut oldDut in
  let shell := splitShell allocate circuit hint moveDut oldDut in
  setBody shell
    (OpInstance (builtInstance allocate circuit hint moveDut oldDut)
     :: imap (passThrough (mod_name wrapper)) (mod_ports shell)).

(** An annotation of the old DUT that the new shell holds when the paths are
    classified: a module annotation (other than a DUT marker when [moveDut]
    is true, for the shell is stripped of the marker first) or an annotation
    of a port. *)
Definition heldByShell (moveDut : bool) (oldDut : FModuleOp) (anno : Annotation) : Prop :=
  (anno ∈ mod_annotations oldDut ∧ (moveDut = true → isClass dutAnnoClass anno = false))
  ∨ ∃ p, p ∈ mod_ports oldDut ∧ anno ∈ port_annotations p.

(** Claim C3 read word for word, down to its first consequence: a module
    path that ends at the old DUT and is used by an annotation of the old
    DUT or of one of its ports has a clone, with a different symbol and the
    same locators, after the run. *)
Definition C3_as_stated (allocate : gset string → string → string)
    (circuit : CircuitOp) : Prop :=
  ∀ run before oldDut after nla anno,
    runOnOperation allocate circuit = Some run → status run = PassSuccess →
    getDut (circ_modules circuit) = Some (before, oldDut, after) →
    nla ∈ circ_paths circuit →
    HierPath.leafMod nla = Some (mod_name oldDut) → HierPath.isModule nla = true →
    nonlocalSymbol anno = Some (sym_name nla) →
    (anno ∈ mod_annotations oldDut
     ∨ ∃ p, p ∈ mod_ports oldDut ∧ anno ∈ port_annotations p) →
    ∃ cloneSym, cloneSym ≠ sym_name nla
      ∧ mkHierPath cloneSym (namepath nla) ∈ circ_paths (result run).

(** Claim C2 read word for word: the new locator comes right after the
    locator that names the old DUT, and what follows that locator follows the
    new one.  The locator that names the old DUT may show the DUT's old name
    or its new one; only its kind and inner symbol are fixed. *)
Definition C2_as_stated (allocate : gset string → string → string)
    (circuit : CircuitOp) : Prop :=
  ∀ run before oldDut after nla front at_dut back,
    runOnOperation allocate circuit = Some run → status run = PassSuccess →
    getDut (circ_modules circuit) = Some (before, oldDut, after) →
    nla ∈ circ_paths circuit →
    splitsAt (mod_name oldDut) (namepath nla) front at_dut back →
    HierPath.root nla ≠ Some (mod_name oldDut) →
    ¬ endsAtPortOf oldDut nla →
    ∃ wrapperInstSym at_dut',
      getName at_dut' = getName at_dut
      ∧ mkHierPath (sym_name nla)
          (front ++ [at_dut'; InnerRefAttr (mod_name oldDut) wrapperInstSym] ++ back)
        ∈ circ_paths (result run).

(** Claim C8 read word for word: every module annotation of the old DUT
    other than the DUT marker is still on the wrapper. *)
Definition C8_as_stated (allocate : gset string → string → string)
    (circuit : CircuitOp) : Prop :=
  ∀ run before oldDut after,
    runOnOperation allocate circuit = Some run → status run = PassSuccess →
    getDut (circ_modules circuit) = Some (before, oldDut, after) →
    ∃ wrapper shell,
      circ_modules (result run) = before ++ wrapper :: shell :: after
      ∧ ∀ anno, anno ∈ mod_annotations oldDut → isClass dutAnnoClass anno = false →
                anno ∈ mod_annotations wrapper.

(* ================================================================== *)
(** * Vocabulary of the further properties *)
(* ================================================================== *)

(** Modelled from the spec: the shape of a hierarchical path (section 3):
    each locator except the last is an instance edge, an (owner module,
    inner symbol) pair.  The [cast] of line 273 relies on it. *)
Fixpoint interiorInnerRefs (np : list NameRef) : bool :=
  match np with
  | [] => true
  | r :: rest =>
      match rest with
      | [] => true
      | _ :: _ => bool_decide (is_Some (getName r)) && interiorInnerRefs rest
      end
  end.

(** The symbols of the circuit's symbol table: the names of its modules and
    the symbols of its hierarchical paths. *)
Definition symbolsOf (circuit : CircuitOp) : list string :=
  (mod_name <$> circ_modules circuit) ++ (sym_name <$> circ_paths circuit).

(** The public modules among a list of modules. *)
Definition publicModules (modules : list FModuleOp) : list FModuleOp :=
  filter (λ m, mod_visibility m = Public) modules.

(** The annotations of the new DUT when it leaves the block of lines
    160-204: those of the old DUT, less the DUT markers in [moveDut] mode. *)
Definition shellAnnotations (moveDut : bool) (oldDut : FModuleOp) : list Annotation :=
  if moveDut
  then filter (λ anno, isClass dutAnnoClass anno = false) (mod_annotations oldDut)
  else mod_annotations oldDut.

(** The targets of the [rwprobe] operations of an operation, nested ones
    included, in program order. *)
Fixpoint rwprobeTargets (op : Operation) : list (string * string) :=
  match op with
  | OpRWProbe targetModule targetName => [(targetModule, targetName)]
  | OpOther _ nested => concat (map rwprobeTargets nested)
  | _ => []
  end.

(** Every locator of the namepath that names [moduleName] and is not the
    last one is the instance edge [edge], and the locator behind it names
    [child]. *)
Definition routesThrough (moduleName : string) (edge : NameRef) (child : string)
    (np : list NameRef) : Prop :=
  ∀ i r r', np !! i = Some r → np !! S i = Some r' →
    getModule r = moduleName → r = edge ∧ getModule r' = child.

(** What lines 315-340 make of one annotation: it is rewritten when the
    path behind its [circt.nonlocal] field has a clone, and kept otherwise. *)
Definition retargetAnnotation (dutRenames : gmap string HierPathOp)
    (anno : Annotation) : Annotation :=
  default anno (removeAndUpdateNLAs dutRenames anno).

(** A local annotation: one without a [circt.nonlocal] field of symbol
    type. *)
Definition isLocal (anno : Annotation) : Prop := nonlocalSymbol anno = None.

#[global] Instance isLocal_dec (anno : Annotation) : Decision (isLocal anno).
Proof. unfold isLocal. apply _. Defined.

(** Samples for the further properties: the path of the comment above
    [addHierarchy], the wrapper instance of the sample run, the path with
    its extra level, and the sample circuit with one more annotation. *)
Definition samplePath : HierPathOp :=
  mkHierPath "nla1" [InnerRefAttr "Top" "dut"; FlatSymbolRefAttr "DUT"].

Definition sampleInstance : InstanceOp :=
  {| inst_name := "Wrapper"; inst_module := "Wrapper";
     inst_inner_sym := "Wrapper"; inst_num_results := 2 |}.

Definition sampleExtended : HierPathOp :=
  mkHierPath "nla1" [InnerRefAttr "Top" "dut"; InnerRefAttr "DUT" "Wrapper";
                     FlatSymbolRefAttr "Wrapper"].

Definition sampleCircuitAnnotated : CircuitOp :=
  {| circ_annotations :=
       classAnno "circuit.other" [] :: circ_annotations sampleCircuit;
     circ_modules := circ_modules sampleCircuit;
     circ_paths := circ_paths sampleCircuit |}.
(* ================================================================== *)
(** * Properties of the namespace and of annotations *)
(* ================================================================== *)

Lemma length_string_app (s1 s2 : string) :
  String.length (s1 +:+ s2) = String.length s1 + String.length s2.
Proof. induction s1 as [|c s1 IH]; simpl; [done | by rewrite IH]. Qed.

Lemma length_underscores (n : nat) : String.length (underscores n) = n.
Proof.
  induction n as [|n IH]; [done |].
  change (underscores (S n)) with ("_" +:+ underscores n).
  by rewrite length_string_app, IH.
Qed.

Lemma longestName_bound (used : gset string) (name : string) :
  name ∈ used → String.length name ≤ longestName used.
Proof.
  unfold longestName, set_fold; simpl.
  rewrite <- elem_of_elements.
  induction (elements used) as [|x l IH]; simpl; intros Hin.
  - by apply elem_of_nil in Hin.
  - apply elem_of_cons in Hin as [-> | Hin]; [lia | specialize (IH Hin); lia].
Qed.

(** The sample namespace never hands out a name in use. *)
Lemma padAllocate_fresh (used : gset string) (hint : string) :
  padAllocate used hint ∉ used.
Proof.
  unfold padAllocate. case_decide as Hin; [| done].
  intros Hbad. apply longestName_bound in Hbad.
  rewrite length_string_app, length_underscores in Hbad. lia.
Qed.

Lemma elem_of_concat {A : Type} (x : A) (ls : list (list A)) :
  x ∈ concat ls ↔ ∃ l, l ∈ ls ∧ x ∈ l.
Proof.
  induction ls as [|l ls IH]; simpl.
  - split; [by intros ?%elem_of_nil | by intros (l & ?%elem_of_nil & _)].
  - rewrite elem_of_app, IH. split.
    + intros [Hx | (l' & Hl' & Hx)]; [exists l; split; [left | done] |].
      exists l'. split; [by right | done].
    + intros (l' & Hl' & Hx). apply elem_of_cons in Hl' as [-> | Hl']; [by left |].
      right. by exists l'.
Qed.

Lemma dictGet_setMember_eq (key : string) (value : AnnoValue) (dict : Annotation) :
  dictGet key (setMember key value dict) = Some value.
Proof.
  induction dict as [|[k v] rest IH]; simpl.
  - by rewrite decide_True.
  - destruct (String.compare k key) eqn:Hcmp; simpl.
    + by rewrite decide_True.
    + rewrite decide_False; [done |].
      intros ->. pose proof (String.compare_antisym key key) as Hanti.
      rewrite Hcmp in Hanti. discriminate.
    + by rewrite decide_True.
Qed.

Lemma dictGet_setMember_ne (key key' : string) (value : AnnoValue) (dict : Annotation) :
  key ≠ key' → dictGet key' (setMember key value dict) = dictGet key' dict.
Proof.
  intros Hne. induction dict as [|[k v] rest IH]; simpl.
  - by rewrite decide_False.
  - destruct (String.compare k key) eqn:Hcmp; simpl.
    + apply String.compare_eq_iff in Hcmp as ->.
      by rewrite !decide_False.
    + by rewrite IH.
    + by rewrite (decide_False (P := key = key')).
Qed.

Lemma isClass_setMember_nonlocal (cls : string) (value : AnnoValue) (anno : Annotation) :
  isClass cls (setMember "circt.nonlocal" value anno) = isClass cls anno.
Proof.
  unfold isClass, getMemberString.
  by rewrite dictGet_setMember_ne.
Qed.

Lemma nonlocalSymbol_setMember (sym : string) (anno : Annotation) :
  nonlocalSymbol (setMember "circt.nonlocal" (ASymbolRef sym) anno) = Some sym.
Proof.
  unfold nonlocalSymbol, getMemberSymbolRef.
  by rewrite dictGet_setMember_eq.
Qed.

(* ================================================================== *)
(** * Reading the directives (lines 101-127) *)
(* ================================================================== *)

Lemma directives_cons_other (anno : Annotation) (annos : list Annotation) :
  isDirective anno = false →
  namedDirectives (anno :: annos) = namedDirectives annos
  ∧ namelessDirectives (anno :: annos) = namelessDirectives annos.
Proof.
  intros Hcls. unfold namedDirectives, namelessDirectives, directivesOf.
  rewrite filter_cons, decide_False; [done | by rewrite Hcls].
Qed.

Lemma directives_cons_named (anno : Annotation) (annos : list Annotation) (name : string) :
  isDirective anno = true → getMemberString "name" anno = Some name →
  namedDirectives (anno :: annos) = anno :: namedDirectives annos
  ∧ namelessDirectives (anno :: annos) = namelessDirectives annos.
Proof.
  intros Hcls Hname. unfold namedDirectives, namelessDirectives, directivesOf.
  assert (hasName anno = true) as Hn.
  { unfold hasName. rewrite Hname. by apply bool_decide_eq_true. }
  rewrite filter_cons, decide_True by done.
  rewrite !filter_cons, decide_True, decide_False; [done | by rewrite Hn | done].
Qed.

Lemma directives_cons_nameless (anno : Annotation) (annos : list Annotation) :
  isDirective anno = true → getMemberString "name" anno = None →
  namedDirectives (anno :: annos) = namedDirectives annos
  ∧ namelessDirectives (anno :: annos) = anno :: namelessDirectives annos.
Proof.
  intros Hcls Hname. unfold namedDirectives, namelessDirectives, directivesOf.
  assert (hasName anno = false) as Hn.
  { unfold hasName. rewrite Hname. apply bool_decide_eq_false. by intros [? ?]. }
  rewrite filter_cons, decide_True by done.
  rewrite !filter_cons, decide_False, decide_True; [done | done | by rewrite Hn].
Qed.

(** The three ways an iteration of the loop can go. *)
Lemma readDirective_cases (st : Directive) (anno : Annotation) :
  (isDirective anno = false ∧ readDirective st anno = st)
  ∨ (isDirective anno = true ∧ getMemberString "name" anno = None
     ∧ readDirective st anno =
         {| wrapperName := wrapperName st; moveDut := moveDut st; error := true;
            emitted := emitted st ++ [MalformedDirective] |})
  ∨ (∃ name, isDirective anno = true ∧ getMemberString "name" anno = Some name
     ∧ readDirective st anno =
         match wrapperName st with
         | Some _ =>
             {| wrapperName := wrapperName st; moveDut := moveDut st; error := true;
                emitted := emitted st ++ [DuplicateDirective] |}
         | None =>
             {| wrapperName := Some name;
                moveDut := default (moveDut st) (getMemberBool "moveDut" anno);
                error := error st; emitted := emitted st |}
         end).
Proof.
  unfold readDirective, isDirective.
  destruct (isClass injectDUTHierarchyAnnoClass anno); simpl; [| by left].
  right. destruct (getMemberString "name" anno) as [name|]; [| by left].
  right. exists name. split; [done |]. split; [done |].
  destruct (wrapperName st); [done |].
  by destruct (getMemberBool "moveDut" anno).
Qed.

Ltac read_directive st anno annos :=
  let Hcls := fresh "Hcls" in
  let Hname := fresh "Hname" in
  let Hstep := fresh "Hstep" in
  let Hnamed := fresh "Hnamed" in
  let Hnameless := fresh "Hnameless" in
  destruct (readDirective_cases st anno)
    as [[Hcls Hstep] | [(Hcls & Hname & Hstep) | (? & Hcls & Hname & Hstep)]];
  [ destruct (directives_cons_other anno annos Hcls) as [Hnamed Hnameless]
  | destruct (directives_cons_nameless anno annos Hcls Hname) as [Hnamed Hnameless]
  | destruct (directives_cons_named anno annos _ Hcls Hname) as [Hnamed Hnameless] ];
  rewrite ?Hnamed, ?Hnameless, Hstep; clear Hstep Hnamed Hnameless.

Lemma readDirectives_wrapperName (st : Directive) (annos : list Annotation) :
  wrapperName (foldl readDirective st annos) =
    match wrapperName st with
    | Some name => Some name
    | None => head (namedDirectives annos) ≫= getMemberString "name"
    end.
Proof.
  revert st. induction annos as [|anno annos IH]; intros st; simpl.
  - by destruct (wrapperName st).
  - rewrite IH. read_directive st anno annos; simpl.
    + done.
    + done.
    + destruct (wrapperName st); simpl; [done | by rewrite Hname].
Qed.

Lemma readDirectives_moveDut (st : Directive) (annos : list Annotation) :
  moveDut (foldl readDirective st annos) =
    match wrapperName st, head (namedDirectives annos) with
    | None, Some first => default (moveDut st) (getMemberBool "moveDut" first)
    | _, _ => moveDut st
    end.
Proof.
  revert st. induction annos as [|anno annos IH]; intros st; simpl.
  - by destruct (wrapperName st).
  - rewrite IH. read_directive st anno annos; simpl.
    + done.
    + done.
    + destruct (wrapperName st); simpl; done.
Qed.

Lemma occurrences_app (d : Diagnostic) (ds1 ds2 : list Diagnostic) :
  occurrences d (ds1 ++ ds2) = occurrences d ds1 + occurrences d ds2.
Proof. unfold occurrences. by rewrite filter_app, length_app. Qed.

Lemma occurrences_elem_of (d : Diagnostic) (ds : list Diagnostic) :
  d ∈ ds ↔ 0 < occurrences d ds.
Proof.
  unfold occurrences. split.
  - intros Hin. assert (d ∈ filter (λ d', d' = d) ds) as Hf
      by (by apply list_elem_of_filter).
    destruct (filter (λ d', d' = d) ds); [by apply elem_of_nil in Hf | simpl; lia].
  - intros Hlen. destruct (filter (λ d', d' = d) ds) as [|x l] eqn:Hf; [simpl in Hlen; lia |].
    assert (x ∈ filter (λ d', d' = d) ds) as Hx by (rewrite Hf; left).
    apply list_elem_of_filter in Hx as [-> ?]. done.
Qed.

(** What the loop emits: one [MalformedDirective] for each directive without
    a name, one [DuplicateDirective] for each named directive that comes
    after a name was accepted, and nothing else. *)
Lemma readDirectives_emitted (st : Directive) (annos : list Annotation) :
  ∃ ds, emitted (foldl readDirective st annos) = emitted st ++ ds
    ∧ occurrences MalformedDirective ds = length (namelessDirectives annos)
    ∧ occurrences DuplicateDirective ds =
        length (namedDirectives annos)
        - match wrapperName st with Some _ => 0 | None => 1 end
    ∧ occurrences MissingDUT ds = 0
    ∧ (error (foldl readDirective st annos) = true ↔ error st = true ∨ ds ≠ []).
Proof.
  revert st. induction annos as [|anno annos IH]; intros st; simpl.
  - exists []. rewrite app_nil_r.
    split; [done |]. split; [done |]. split; [by destruct (wrapperName st) |].
    split; [done |]. split; [by left | by intros [? | ?]].
  - read_directive st anno annos.
    + apply IH.
    + destruct (IH {| wrapperName := wrapperName st; moveDut := moveDut st;
                      error := true; emitted := emitted st ++ [MalformedDirective] |})
        as (ds & Hem & Hmal & Hdup & Hmiss & Herr); simpl in *.
      exists (MalformedDirective :: ds). rewrite Hem, <- app_assoc.
      split; [done |]. change (MalformedDirective :: ds) with ([MalformedDirective] ++ ds).
      rewrite !occurrences_app, Hmal, Hdup, Hmiss.
      split; [done |]. split; [done |]. split; [done |].
      split; [by right | intros _; apply Herr; by left].
    + destruct (wrapperName st) as [accepted|] eqn:Hwn.
      * destruct (IH {| wrapperName := Some accepted; moveDut := moveDut st;
                        error := true; emitted := emitted st ++ [DuplicateDirective] |})
          as (ds & Hem & Hmal & Hdup & Hmiss & Herr); simpl in *.
        exists (DuplicateDirective :: ds). rewrite Hem, <- app_assoc.
        split; [done |]. change (DuplicateDirective :: ds) with ([DuplicateDirective] ++ ds).
        rewrite !occurrences_app, Hmal, Hdup, Hmiss.
        split; [done |]. split; [unfold occurrences; simpl; lia |]. split; [done |].
        split; [by right | intros _; apply Herr; by left].
      * destruct (IH {| wrapperName := Some x;
                        moveDut := default (moveDut st) (getMemberBool "moveDut" anno);
                        error := error st; emitted := emitted st |})
          as (ds & Hem & Hmal & Hdup & Hmiss & Herr); simpl in *.
        exists ds. split; [done |]. split; [done |]. split; [rewrite Hdup; lia |].
        split; [done | apply Herr].
Qed.

Lemma occurrences_total (ds : list Diagnostic) :
  length ds = occurrences MalformedDirective ds
              + occurrences DuplicateDirective ds
              + occurrences MissingDUT ds.
Proof.
  unfold occurrences. induction ds as [|d ds IH]; [done |].
  rewrite !filter_cons. destruct d; simpl;
    repeat case_decide; simplify_eq; simpl; lia.
Qed.

(** The state in which the loop over all annotations of the circuit ends. *)
Lemma readDirectives_summary (annos : list Annotation) :
  wrapperName (readDirectives annos) =
    head (namedDirectives annos) ≫= getMemberString "name"
  ∧ occurrences MalformedDirective (emitted (readDirectives annos)) =
      length (namelessDirectives annos)
  ∧ occurrences DuplicateDirective (emitted (readDirectives annos)) =
      length (namedDirectives annos) - 1
  ∧ occurrences MissingDUT (emitted (readDirectives annos)) = 0
  ∧ (error (readDirectives annos) = true ↔ emitted (readDirectives annos) ≠ []).
Proof.
  unfold readDirectives.
  destruct (readDirectives_emitted noDirective annos)
    as (ds & Hem & Hmal & Hdup & Hmiss & Herr); simpl in *.
  rewrite readDirectives_wrapperName, Hem; simpl.
  split; [done |]. split; [done |]. split; [done |]. split; [done |].
  rewrite Herr. split; [by intros [? | ?] | by right].
Qed.

Lemma directives_partition (annos : list Annotation) :
  length (directivesOf annos) =
    length (namedDirectives annos) + length (namelessDirectives annos).
Proof.
  unfold namedDirectives, namelessDirectives.
  induction (directivesOf annos) as [|anno l IH]; [done |].
  rewrite !filter_cons. destruct (hasName anno); simpl;
    repeat case_decide; simplify_eq; simpl; lia.
Qed.

Lemma namedDirectives_wrapperName (annos : list Annotation) :
  namedDirectives annos ≠ [] → is_Some (wrapperName (readDirectives annos)).
Proof.
  intros Hne. destruct (readDirectives_summary annos) as (-> & _).
  destruct (namedDirectives annos) as [|first l] eqn:Hnamed; [done |]. simpl.
  assert (first ∈ namedDirectives annos) as Hin by (rewrite Hnamed; left).
  apply list_elem_of_filter in Hin as [Hname _].
  unfold hasName in Hname. by apply bool_decide_eq_true in Hname.
Qed.


(* ================================================================== *)
(** * addHierarchy (lines 55-79) *)
(* ================================================================== *)

Lemma copyUntilDut_found (dutName : string) (rest acc front : list NameRef)
    (at_dut : NameRef) (back : list NameRef) :
  splitsAt dutName rest front at_dut back →
  copyUntilDut dutName rest acc = Some (acc ++ front, at_dut :: back).
Proof.
  intros (-> & Hfront & Hat). revert acc.
  induction front as [|r front IH]; intros acc; simpl.
  - by rewrite decide_True, app_nil_r.
  - apply Forall_cons in Hfront as [Hr Hfront].
    rewrite decide_False by done.
    rewrite IH by done. by rewrite <- app_assoc.
Qed.

Lemma splitsAt_exists (dutName : string) (np : list NameRef) :
  dutName ∈ getModule <$> np →
  ∃ front at_dut back, splitsAt dutName np front at_dut back.
Proof.
  induction np as [|r np IH]; simpl; intros Hin.
  - by apply elem_of_nil in Hin.
  - destruct (decide (getModule r = dutName)) as [Heq | Hne].
    + exists [], r, np. split; [done |]. split; [constructor | done].
    + apply elem_of_cons in Hin as [Heq | Hin]; [done |].
      destruct (IH Hin) as (front & at_dut & back & -> & Hfront & Hat).
      exists (r :: front), at_dut, back.
      split; [done |]. split; [by constructor | done].
Qed.

Lemma copyUntilDut_missing (dutName : string) (rest acc : list NameRef) :
  dutName ∉ getModule <$> rest → copyUntilDut dutName rest acc = None.
Proof.
  revert acc. induction rest as [|r rest IH]; intros acc Hnot; simpl; [done |].
  rewrite fmap_cons, not_elem_of_cons in Hnot. destruct Hnot as [Hne Hnot].
  rewrite decide_False by done. by apply IH.
Qed.

(** What [addHierarchy] writes: the locators in front of the DUT's locator,
    a new instance locator for the wrapper instance inside the DUT, the DUT's
    own locator pointed at the wrapper, and the locators behind it. *)
Lemma addHierarchy_splitsAt (path : HierPathOp) (dut : FModuleOp)
    (wrapperInst : InstanceOp) (front : list NameRef) (at_dut : NameRef)
    (back : list NameRef) :
  splitsAt (mod_name dut) (namepath path) front at_dut back →
  addHierarchy path dut wrapperInst =
    Some (setNamepathAttr path
            (front
             ++ [InnerRefAttr (mod_name dut) (inst_inner_sym wrapperInst);
                 retargetLocator (inst_module wrapperInst) at_dut]
             ++ back)).
Proof.
  intros Hsplit. unfold addHierarchy.
  rewrite (copyUntilDut_found _ _ [] _ _ _ Hsplit). simpl.
  destruct at_dut; simpl; by rewrite <- !app_assoc.
Qed.

Lemma addHierarchy_touching (path : HierPathOp) (dut : FModuleOp)
    (wrapperInst : InstanceOp) :
  pathTouches (mod_name dut) path = true →
  is_Some (addHierarchy path dut wrapperInst).
Proof.
  intros Htouch. apply bool_decide_eq_true in Htouch.
  destruct (splitsAt_exists _ _ Htouch) as (front & at_dut & back & Hsplit).
  rewrite (addHierarchy_splitsAt _ _ _ _ _ _ Hsplit). by eexists.
Qed.

(** A path that does not touch the DUT is outside [addHierarchy]'s domain:
    the loop would run off the end of its namepath. *)
Lemma addHierarchy_untouched (path : HierPathOp) (dut : FModuleOp)
    (wrapperInst : InstanceOp) :
  pathTouches (mod_name dut) path = false →
  addHierarchy path dut wrapperInst = None.
Proof.
  intros Htouch. apply bool_decide_eq_false in Htouch.
  unfold addHierarchy. by rewrite copyUntilDut_missing.
Qed.

(* ================================================================== *)
(** * Moving annotations over to cloned paths (lines 315-340) *)
(* ================================================================== *)

Lemma replaceAnnotations_elem (dutRenames : gmap string HierPathOp)
    (annos : list Annotation) (anno' : Annotation) :
  anno' ∈ replaceAnnotations dutRenames annos ↔
    (anno' ∈ annos ∧ removeAndUpdateNLAs dutRenames anno' = None)
    ∨ (∃ anno, anno ∈ annos ∧ removeAndUpdateNLAs dutRenames anno = Some anno').
Proof.
  unfold replaceAnnotations, removeAnnotationsIf.
  rewrite elem_of_app, list_elem_of_filter, list_elem_of_omap.
  split; intros [Hkept | Hnew]; [left | by right | left | by right].
  - destruct Hkept as [Hpred Hin]. split; [done |].
    apply bool_decide_eq_false in Hpred.
    destruct (removeAndUpdateNLAs dutRenames anno'); [| done].
    exfalso. apply Hpred. by eexists.
  - destruct Hkept as [Hin Hnone]. split; [| done].
    apply bool_decide_eq_false. rewrite Hnone. by intros [? ?].
Qed.

Lemma removeAndUpdateNLAs_Some (dutRenames : gmap string HierPathOp)
    (anno anno' : Annotation) :
  removeAndUpdateNLAs dutRenames anno = Some anno' ↔
    ∃ sym clone, nonlocalSymbol anno = Some sym ∧ dutRenames !! sym = Some clone
                 ∧ anno' = setMember "circt.nonlocal" (ASymbolRef (sym_name clone)) anno.
Proof.
  unfold removeAndUpdateNLAs. split.
  - destruct (nonlocalSymbol anno) as [sym|]; [| done].
    destruct (dutRenames !! sym) as [clone|] eqn:Hclone; [| done].
    intros [= <-]. by exists sym, clone.
  - intros (sym & clone & -> & -> & ->). done.
Qed.

Lemma removeAndUpdateNLAs_None (dutRenames : gmap string HierPathOp)
    (anno : Annotation) :
  removeAndUpdateNLAs dutRenames anno = None ↔
    match nonlocalSymbol anno with
    | Some sym => dutRenames !! sym = None
    | None => True
    end.
Proof.
  unfold removeAndUpdateNLAs.
  destruct (nonlocalSymbol anno) as [sym|]; [| done].
  by destruct (dutRenames !! sym).
Qed.

(** Moving an annotation over does not change its class, and no annotation
    is lost or made up. *)
Lemma replaceAnnotations_class (dutRenames : gmap string HierPathOp)
    (annos : list Annotation) (cls : string) :
  Exists (λ anno, isClass cls anno = true) (replaceAnnotations dutRenames annos)
  ↔ Exists (λ anno, isClass cls anno = true) annos.
Proof.
  rewrite !Exists_exists. split.
  - intros (anno' & Hin & Hcls). apply replaceAnnotations_elem in Hin as [[Hin _] | Hin].
    + by exists anno'.
    + destruct Hin as (anno & Hin & Hnew).
      apply removeAndUpdateNLAs_Some in Hnew as (sym & clone & _ & _ & ->).
      rewrite isClass_setMember_nonlocal in Hcls. by exists anno.
  - intros (anno & Hin & Hcls).
    destruct (removeAndUpdateNLAs dutRenames anno) as [anno'|] eqn:Hnew.
    + exists anno'. split.
      * apply replaceAnnotations_elem. right. by exists anno.
      * apply removeAndUpdateNLAs_Some in Hnew as (sym & clone & _ & _ & ->).
        by rewrite isClass_setMember_nonlocal.
    + exists anno. split; [| done]. apply replaceAnnotations_elem. by left.
Qed.

(* ================================================================== *)
(** * The split and the wiring (lines 158-221) *)
(* ================================================================== *)

Lemma removeAnnotationsIf_all (annos : list Annotation) :
  removeAnnotationsIf (λ _, true) annos = [].
Proof.
  unfold removeAnnotationsIf. induction annos as [|a annos IH]; [done |].
  by rewrite filter_cons, decide_False.
Qed.

Lemma mapM_seq_imap {A B : Type} (f : nat → option B) (g : nat → A → B)
    (l : list A) (start : nat) :
  (∀ i x, l !! i = Some x → f (start + i) = Some (g i x)) →
  mapM f (seq start (length l)) = Some (imap g l).
Proof.
  revert start g. induction l as [|x l IH]; intros start g Hf; simpl; [done |].
  rewrite <- (Nat.add_0_r start) at 1. rewrite (Hf 0 x eq_refl). simpl.
  rewrite (IH (S start) (g ∘ S)); [done |].
  intros i y Hy. simpl. rewrite <- (Hf (S i) y Hy). f_equal. lia.
Qed.

Section PassLemmas.
Context (allocate : gset string → string → string).

(** The wrapper and the DUT as the block of lines 160-204 leaves them. *)
Lemma splitDut_eq (moveDut : bool) (circuitNS : gset string)
    (wrapperName : string) (dut : FModuleOp) :
  splitDut allocate moveDut circuitNS wrapperName dut =
    ({| mod_name := allocate circuitNS wrapperName;
        mod_visibility := if moveDut then mod_visibility dut else Private;
        mod_convention := mod_convention dut;
        mod_ports := (λ p, setPortAnnotations p []) <$> mod_ports dut;
        mod_annotations :=
          if moveDut
          then filter (λ anno, isClass dutAnnoClass anno = true) (mod_annotations dut)
          else [];
        mod_body := mod_body dut |},
     {| mod_name := mod_name dut;
        mod_visibility := if moveDut then Private else mod_visibility dut;
        mod_convention := mod_convention dut;
        mod_ports := mod_ports dut;
        mod_annotations :=
          if moveDut
          then filter (λ anno, isClass dutAnnoClass anno = false) (mod_annotations dut)
          else mod_annotations dut;
        mod_body := [] |},
     {[allocate circuitNS wrapperName]} ∪ circuitNS).
Proof.
  assert (∀ ports : list PortInfo,
            imap (λ (_ : nat) p, setPortAnnotations p
                    (removeAnnotationsIf (λ _, true) (port_annotations p))) ports
            = (λ p, setPortAnnotations p []) <$> ports) as Hports.
  { intros ports. rewrite <- imap_const. apply imap_ext. intros i p _.
    unfold const. by rewrite removeAnnotationsIf_all. }
  unfold splitDut, newName, removeAnnotations, removePortAnnotations,
    setAnnotations, setPorts, setName, setPrivate, setVisibility.
  destruct moveDut; simpl; rewrite Hports; repeat f_equal.
  - unfold removeAnnotationsIf. apply list_filter_iff. intros anno.
    by destruct (isClass dutAnnoClass anno).
  - unfold removeAnnotationsIf. rewrite <- (removeAnnotationsIf_all (mod_annotations dut)).
    unfold removeAnnotationsIf. apply list_filter_iff. intros anno.
    by destruct (isClass dutAnnoClass anno).
Qed.

Lemma instantiateWrapper_eq (dut wrapper : FModuleOp) :
  length (mod_ports wrapper) = length (mod_ports dut) →
  instantiateWrapper allocate dut wrapper =
    let wrapperInst :=
      {| inst_name := mod_name wrapper; inst_module := mod_name wrapper;
         inst_inner_sym := allocate (InnerSymbolNamespace dut) (mod_name wrapper);
         inst_num_results := length (mod_ports wrapper) |} in
    Some (wrapperInst,
          setBody dut (OpInstance wrapperInst
                       :: imap (passThrough (mod_name wrapper)) (mod_ports dut)
                       ++ mod_body dut)).
Proof.
  intros Hlen. unfold instantiateWrapper. simpl. rewrite Hlen.
  erewrite (mapM_seq_imap _ (passThrough (mod_name wrapper))); [done |].
  intros i p Hp. unfold connectPort, getPortDirection. simpl.
  rewrite Hp. simpl. unfold passThrough, emitConnect.
  by destruct (direction p).
Qed.

(* ---------------------------------------------------------------- *)
(** ** The loop over the hierarchical paths (lines 263-313) *)
(* ---------------------------------------------------------------- *)

Lemma collectDutPortSyms_elem (dut : FModuleOp) (sym : string) :
  sym ∈ collectDutPortSyms dut ↔ Some sym ∈ port_sym <$> mod_ports dut.
Proof.
  unfold collectDutPortSyms. rewrite elem_of_list_to_set, list_elem_of_omap.
  rewrite list_elem_of_fmap. split.
  - intros (p & Hp & Hsym). by exists p.
  - intros (p & Hsym & Hp). by exists p.
Qed.

Lemma root_touches (dutName : string) (nla : HierPathOp) :
  HierPath.root nla = Some dutName → pathTouches dutName nla = true.
Proof.
  unfold HierPath.root, pathTouches. intros Hroot. apply bool_decide_eq_true.
  destruct (namepath nla) as [|r np]; simpl in *; [done |].
  injection Hroot as <-. left.
Qed.

Lemma rootPrecondition_iff (nla : HierPathOp) :
  rootPrecondition nla ↔
    ∃ module frontName second tail,
      namepath nla = InnerRefAttr module frontName :: second :: tail.
Proof.
  unfold rootPrecondition. split.
  - intros (Hlen & m & n & Hhead).
    destruct (namepath nla) as [|r [|r' np]]; simpl in *; try lia.
    injection Hhead as ->. by eexists _, _, _, _.
  - intros (m & n & r & np & ->). simpl. split; [lia |]. by eexists _, _.
Qed.

Section OnePath.
Context (wrapper dut : FModuleOp) (wrapperInst : InstanceOp)
        (dutPaths dutPortSyms : gset string).

(** The root case: the first locator is pointed at the wrapper, provided
    the assertion and the cast hold. *)
Lemma processNLA_root (circuitNS : gset string)
    (dutRenames : gmap string HierPathOp) (nla : HierPathOp) :
  HierPath.root nla = Some (mod_name dut) →
  processNLA allocate wrapper dut wrapperInst dutPaths dutPortSyms
             circuitNS dutRenames nla =
    match namepath nla with
    | InnerRefAttr _ frontName :: ((_ :: _) as tail) =>
        Some ([setNamepathAttr nla (InnerRefAttr (mod_name wrapper) frontName :: tail)],
              circuitNS, dutRenames)
    | _ => None
    end.
Proof. intros Hroot. unfold processNLA. by rewrite decide_True. Qed.

Lemma processNLA_root_Some (circuitNS : gset string)
    (dutRenames : gmap string HierPathOp) (nla : HierPathOp) :
  HierPath.root nla = Some (mod_name dut) →
  is_Some (processNLA allocate wrapper dut wrapperInst dutPaths dutPortSyms
                      circuitNS dutRenames nla)
  ↔ rootPrecondition nla.
Proof.
  intros Hroot. rewrite processNLA_root, rootPrecondition_iff by done.
  split.
  - intros [res Hres].
    destruct (namepath nla) as [|[m n|m] [|r np]]; try done.
    by eexists _, _, _, _.
  - intros (m & n & r & np & ->). by eexists.
Qed.

(** Case (1): a component path that ends at a port of the DUT. *)
Lemma processNLA_port (circuitNS : gset string)
    (dutRenames : gmap string HierPathOp) (nla : HierPathOp) (sym : string) :
  HierPath.root nla ≠ Some (mod_name dut) →
  HierPath.leafMod nla = Some (mod_name dut) →
  HierPath.ref nla = Some sym → sym ∈ dutPortSyms →
  processNLA allocate wrapper dut wrapperInst dutPaths dutPortSyms
             circuitNS dutRenames nla =
    Some ([nla], circuitNS, dutRenames).
Proof.
  intros Hroot Hleaf Href Hsym. unfold processNLA.
  rewrite decide_False by done.
  rewrite bool_decide_eq_true_2 by done.
  unfold HierPath.isComponent, HierPath.isModule. rewrite Href. simpl.
  by rewrite bool_decide_eq_true_2.
Qed.

(** Case (3): a module path that the DUT's annotations use. *)
Lemma processNLA_clone (circuitNS : gset string)
    (dutRenames : gmap string HierPathOp) (nla nla' : HierPathOp) :
  HierPath.root nla ≠ Some (mod_name dut) →
  HierPath.leafMod nla = Some (mod_name dut) →
  HierPath.ref nla = None → sym_name nla ∈ dutPaths →
  addHierarchy nla dut wrapperInst = Some nla' →
  processNLA allocate wrapper dut wrapperInst dutPaths dutPortSyms
             circuitNS dutRenames nla =
    let clone := setSymNameAttr nla (allocate circuitNS (sym_name nla)) in
    Some ([clone; nla'],
          {[allocate circuitNS (sym_name nla)]} ∪ circuitNS,
          dutRenamesInsert (sym_name nla) clone dutRenames).
Proof.
  intros Hroot Hleaf Href Hsym Hadd. unfold processNLA.
  rewrite decide_False by done.
  rewrite bool_decide_eq_true_2 by done.
  unfold HierPath.isComponent, HierPath.isModule. rewrite Href. simpl.
  rewrite bool_decide_eq_true_2 by done. simpl.
  by rewrite Hadd.
Qed.

(** Cases (2) and (4), and paths through the DUT. *)
Lemma processNLA_extend (circuitNS : gset string)
    (dutRenames : gmap string HierPathOp) (nla nla' : HierPathOp) :
  HierPath.root nla ≠ Some (mod_name dut) →
  ¬ (HierPath.leafMod nla = Some (mod_name dut)
     ∧ ∃ sym, HierPath.ref nla = Some sym ∧ sym ∈ dutPortSyms) →
  addHierarchy nla dut wrapperInst = Some nla' →
  ∃ clones circuitNS' dutRenames',
    processNLA allocate wrapper dut wrapperInst dutPaths dutPortSyms
               circuitNS dutRenames nla =
      Some (clones ++ [nla'], circuitNS', dutRenames').
Proof.
  intros Hroot Hport Hadd. unfold processNLA.
  rewrite decide_False by done.
  destruct (bool_decide (HierPath.leafMod nla = Some (mod_name dut))
            && HierPath.isComponent nla
            && setCount dutPortSyms (HierPath.ref nla)) eqn:Hcase.
  { exfalso. apply Hport.
    apply andb_true_iff in Hcase as [Hcase Hcount].
    apply andb_true_iff in Hcase as [Hleaf _].
    apply bool_decide_eq_true in Hleaf. split; [done |].
    revert Hcount. unfold setCount.
    destruct (HierPath.ref nla) as [sym|]; [| done].
    intros Hcount. apply bool_decide_eq_true in Hcount. by exists sym. }
  destruct (bool_decide (HierPath.leafMod nla = Some (mod_name dut))
            && HierPath.isModule nla
            && bool_decide (sym_name nla ∈ dutPaths)); simpl;
    rewrite Hadd; simpl.
  - exists [setSymNameAttr nla (allocate circuitNS (sym_name nla))].
    by eexists _, _.
  - exists []. by eexists _, _.
Qed.

(** The only way an iteration fails is the root case. *)
Lemma processNLA_None (circuitNS : gset string)
    (dutRenames : gmap string HierPathOp) (nla : HierPathOp) :
  pathTouches (mod_name dut) nla = true →
  processNLA allocate wrapper dut wrapperInst dutPaths dutPortSyms
             circuitNS dutRenames nla = None →
  HierPath.root nla = Some (mod_name dut) ∧ ¬ rootPrecondition nla.
Proof.
  intros Htouch Hnone.
  destruct (decide (HierPath.root nla = Some (mod_name dut))) as [Hroot | Hroot].
  - split; [done |]. rewrite <- processNLA_root_Some by done.
    rewrite Hnone. by intros [? ?].
  - exfalso. destruct (addHierarchy_touching nla dut wrapperInst Htouch) as [nla' Hadd].
    unfold processNLA in Hnone. rewrite decide_False in Hnone by done.
    destruct (bool_decide (HierPath.leafMod nla = Some (mod_name dut))
              && HierPath.isComponent nla
              && setCount dutPortSyms (HierPath.ref nla)); [done |].
    destruct (bool_decide (HierPath.leafMod nla = Some (mod_name dut))
              && HierPath.isModule nla
              && bool_decide (sym_name nla ∈ dutPaths)); simpl in Hnone;
      by rewrite Hadd in Hnone.
Qed.
End OnePath.

Lemma collectDutPaths_elem (dut : FModuleOp) (sym : string) :
  sym ∈ collectDutPaths dut ↔
    ∃ anno, nonlocalSymbol anno = Some sym
      ∧ (anno ∈ mod_annotations dut
         ∨ ∃ p, p ∈ mod_ports dut ∧ anno ∈ port_annotations p).
Proof.
  unfold collectDutPaths.
  rewrite elem_of_union, !elem_of_list_to_set, !list_elem_of_omap. split.
  - intros [(anno & Hin & Hsym) | (anno & Hin & Hsym)]; exists anno; (split; [done |]).
    + by left.
    + right. apply elem_of_concat in Hin as (annos & Hannos & Hin).
      apply list_elem_of_fmap in Hannos as (p & -> & Hp). by exists p.
  - intros (anno & Hsym & [Hin | (p & Hp & Hin)]); [left | right]; exists anno;
      (split; [| done]); [done |].
    apply elem_of_concat. exists (port_annotations p). split; [| done].
    by apply list_elem_of_fmap_2.
Qed.

(** A path that visits no module twice and both starts and ends at a
    module has a single locator. *)
Lemma acyclic_root_leaf (nla : HierPathOp) (moduleName : string) :
  NoDup (getModule <$> namepath nla) →
  HierPath.root nla = Some moduleName → HierPath.leafMod nla = Some moduleName →
  ¬ rootPrecondition nla.
Proof.
  intros Hnodup Hroot Hleaf [Hlen _].
  unfold HierPath.root, HierPath.leafMod in *.
  destruct (namepath nla) as [|r [|second tail]]; simpl in Hlen; try lia.
  simpl in Hroot. injection Hroot as Hroot.
  rewrite last_cons_cons in Hleaf.
  destruct (last (second :: tail)) as [r'|] eqn:Hlast; [| done].
  simpl in Hleaf. injection Hleaf as Hleaf.
  apply last_Some in Hlast as [np Hlast]. rewrite Hlast in Hnodup.
  rewrite fmap_cons in Hnodup. apply NoDup_cons in Hnodup as [Hnotin _].
  apply Hnotin. rewrite fmap_app. apply elem_of_app. right.
  simpl. rewrite Hleaf, Hroot. left.
Qed.

(** A module path that ends at a module and visits no module twice splits
    at its last locator. *)
Lemma module_leaf_splitsAt (nla : HierPathOp) (moduleName : string) :
  NoDup (getModule <$> namepath nla) →
  HierPath.leafMod nla = Some moduleName → HierPath.ref nla = None →
  ∃ front, splitsAt moduleName (namepath nla) front (FlatSymbolRefAttr moduleName) [].
Proof.
  unfold HierPath.leafMod, HierPath.ref. intros Hnodup Hleaf Href.
  destruct (last (namepath nla)) as [r|] eqn:Hlast; [| done].
  simpl in *. injection Hleaf as Hleaf.
  destruct r as [m n|m]; [done |]. simpl in Hleaf. subst m.
  apply last_Some in Hlast as [front Hnp]. exists front.
  split; [done |]. split; [| done].
  rewrite Hnp, fmap_app in Hnodup. apply NoDup_app in Hnodup as (_ & Hdisj & _).
  apply Forall_forall. intros r Hr Heq.
  apply (Hdisj (getModule r)); [by apply list_elem_of_fmap_2 |].
  simpl. rewrite Heq. left.
Qed.

Lemma leafMod_touches (dutName : string) (nla : HierPathOp) :
  HierPath.leafMod nla = Some dutName → pathTouches dutName nla = true.
Proof.
  unfold HierPath.leafMod, pathTouches. intros Hleaf. apply bool_decide_eq_true.
  destruct (last (namepath nla)) as [r|] eqn:Hlast; simpl in *; [| done].
  injection Hleaf as <-. apply list_elem_of_fmap_2.
  apply last_Some in Hlast as [np ->]. apply elem_of_app. right. left.
Qed.

Section AllPaths.
Context (wrapper dut : FModuleOp) (wrapperInst : InstanceOp)
        (dutPaths dutPortSyms : gset string).

Local Abbreviation processOne :=
  (processNLA allocate wrapper dut wrapperInst dutPaths dutPortSyms).
Local Abbreviation processAll :=
  (processNLAs allocate wrapper dut wrapperInst dutPaths dutPortSyms).

(** An iteration either leaves the namespace and [dutRenames] alone or
    allocates the symbol of one clone. *)
Lemma processNLA_state (circuitNS circuitNS' : gset string)
    (dutRenames dutRenames' : gmap string HierPathOp)
    (nla : HierPathOp) (image : list HierPathOp) :
  processOne circuitNS dutRenames nla = Some (image, circuitNS', dutRenames') →
  (circuitNS' = circuitNS ∧ dutRenames' = dutRenames)
  ∨ (circuitNS' = {[allocate circuitNS (sym_name nla)]} ∪ circuitNS
     ∧ dutRenames' =
         dutRenamesInsert (sym_name nla)
           (setSymNameAttr nla (allocate circuitNS (sym_name nla))) dutRenames).
Proof.
  unfold processNLA. intros Hrun.
  destruct (decide (HierPath.root nla = Some (mod_name dut))).
  { destruct (namepath nla) as [|[m n|m] [|r np]]; simplify_eq. by left. }
  destruct (bool_decide (HierPath.leafMod nla = Some (mod_name dut))
            && HierPath.isComponent nla
            && setCount dutPortSyms (HierPath.ref nla)).
  { simplify_eq. by left. }
  destruct (bool_decide (HierPath.leafMod nla = Some (mod_name dut))
            && HierPath.isModule nla
            && bool_decide (sym_name nla ∈ dutPaths)); simpl in Hrun;
    destruct (addHierarchy nla dut wrapperInst); simpl in Hrun; simplify_eq.
  - by right.
  - by left.
Qed.

Lemma dutRenamesInsert_lookup (key key' : string) (clone : HierPathOp)
    (dutRenames : gmap string HierPathOp) :
  dutRenamesInsert key clone dutRenames !! key' =
    match dutRenames !! key' with
    | Some old => Some old
    | None => if decide (key = key') then Some clone else None
    end.
Proof.
  unfold dutRenamesInsert.
  destruct (dutRenames !! key) as [old|] eqn:Hkey.
  - destruct (dutRenames !! key') eqn:Hkey'; [done |].
    rewrite decide_False; [done | congruence].
  - rewrite lookup_insert. destruct (decide (key = key')) as [<- | Hne].
    + by rewrite Hkey.
    + by destruct (dutRenames !! key').
Qed.

(** The paths that leave the loop: a path that the table does not list
    is left alone, and one that it lists is replaced by what its
    iteration produced. *)
Lemma processNLAs_elem (circuitNS circuitNS' : gset string)
    (dutRenames dutRenames' : gmap string HierPathOp)
    (paths out : list HierPathOp) (nla : HierPathOp) :
  processAll circuitNS dutRenames paths = Some (out, circuitNS', dutRenames') →
  nla ∈ paths →
  if pathTouches (mod_name dut) nla then
    ∃ ns0 rn0 image ns1 rn1,
      processOne ns0 rn0 nla = Some (image, ns1, rn1)
      ∧ ∀ q, q ∈ image → q ∈ out
  else nla ∈ out.
Proof.
  revert circuitNS dutRenames out.
  induction paths as [|p paths IH]; intros ns rn out Hrun Hin.
  { by apply elem_of_nil in Hin. }
  simpl in Hrun.
  destruct (pathTouches (mod_name dut) p) eqn:Hp.
  - destruct (processOne ns rn p) as [[[here ns1] rn1]|] eqn:Hone; [| done].
    simpl in Hrun.
    destruct (processAll ns1 rn1 paths) as [[[there ns2] rn2]|] eqn:Hrest; [| done].
    simpl in Hrun. simplify_eq.
    apply elem_of_cons in Hin as [-> | Hin].
    + rewrite Hp. exists ns, rn, here, ns1, rn1. split; [done |].
      intros q Hq. apply elem_of_app. by left.
    + specialize (IH _ _ _ Hrest Hin).
      destruct (pathTouches (mod_name dut) nla).
      * destruct IH as (ns0 & rn0 & image & ns3 & rn3 & Hone' & Himg).
        exists ns0, rn0, image, ns3, rn3. split; [done |].
        intros q Hq. apply elem_of_app. right. by apply Himg.
      * apply elem_of_app. by right.
  - destruct (processAll ns rn paths) as [[[there ns2] rn2]|] eqn:Hrest; [| done].
    simpl in Hrun. simplify_eq.
    apply elem_of_cons in Hin as [-> | Hin].
    + rewrite Hp. left.
    + specialize (IH _ _ _ Hrest Hin).
      destruct (pathTouches (mod_name dut) nla).
      * destruct IH as (ns0 & rn0 & image & ns3 & rn3 & Hone' & Himg).
        exists ns0, rn0, image, ns3, rn3. split; [done |].
        intros q Hq. right. by apply Himg.
      * by right.
Qed.

(** The loop runs to its end exactly when every path rooted at the DUT
    meets the precondition of the root case. *)
Lemma processNLAs_is_Some (circuitNS : gset string)
    (dutRenames : gmap string HierPathOp) (paths : list HierPathOp) :
  is_Some (processAll circuitNS dutRenames paths)
  ↔ ∀ nla, nla ∈ paths → HierPath.root nla = Some (mod_name dut) →
           rootPrecondition nla.
Proof.
  revert circuitNS dutRenames.
  induction paths as [|p paths IH]; intros ns rn; simpl.
  { split; [| by eexists]. intros _ nla Hin. by apply elem_of_nil in Hin. }
  destruct (pathTouches (mod_name dut) p) eqn:Hp.
  - destruct (processOne ns rn p) as [[[here ns1] rn1]|] eqn:Hone; simpl.
    + specialize (IH ns1 rn1).
      destruct (processAll ns1 rn1 paths) as [[[there ns2] rn2]|] eqn:Hrest; simpl.
      * split; [| by eexists]. intros _ nla Hin Hroot.
        apply elem_of_cons in Hin as [-> | Hin].
        -- apply (processNLA_root_Some wrapper dut wrapperInst
                    dutPaths dutPortSyms ns rn); [done |]. by rewrite Hone.
        -- destruct IH as [IH _]. apply IH; [by eexists | done | done].
      * split; [by intros [? ?] |]. intros Hall. exfalso.
        destruct IH as [_ IH]. destruct IH as [? ?]; [| done].
        intros nla Hin. apply Hall. by right.
    + split; [by intros [? ?] |]. intros Hall. exfalso.
      destruct (processNLA_None wrapper dut wrapperInst dutPaths
                  dutPortSyms ns rn p Hp Hone) as [Hroot Hpre].
      apply Hpre, Hall; [left | done].
  - specialize (IH ns rn).
    destruct (processAll ns rn paths) as [[[there ns2] rn2]|] eqn:Hrest; simpl.
    + split; [| by eexists]. intros _ nla Hin Hroot.
      apply elem_of_cons in Hin as [-> | Hin].
      * apply root_touches in Hroot. congruence.
      * destruct IH as [IH _]. apply IH; [by eexists | done | done].
    + split; [by intros [? ?] |]. intros Hall. exfalso.
      destruct IH as [_ IH]. destruct IH as [? ?]; [| done].
      intros nla Hin. apply Hall. by right.
Qed.

(** The namespace only grows, and [dutRenames] only gains entries. *)
Lemma processNLA_mono (circuitNS circuitNS' : gset string)
    (dutRenames dutRenames' : gmap string HierPathOp)
    (nla : HierPathOp) (image : list HierPathOp) :
  processOne circuitNS dutRenames nla = Some (image, circuitNS', dutRenames') →
  circuitNS ⊆ circuitNS'
  ∧ (∀ key clone, dutRenames !! key = Some clone → dutRenames' !! key = Some clone)
  ∧ (∀ key clone, dutRenames' !! key = Some clone →
       dutRenames !! key = Some clone
       ∨ (key = sym_name nla
          ∧ clone = setSymNameAttr nla (allocate circuitNS (sym_name nla)))).
Proof.
  intros Hone. apply processNLA_state in Hone as [[-> ->] | [-> ->]].
  - split; [done |]. split; [done |]. intros key clone Hkey. by left.
  - split; [apply union_subseteq_r |]. split.
    + intros key clone Hkey. by rewrite dutRenamesInsert_lookup, Hkey.
    + intros key clone. rewrite dutRenamesInsert_lookup.
      destruct (dutRenames !! key); [by left |].
      case_decide; [| done]. intros [= <-]. by right.
Qed.

Lemma processNLAs_mono (circuitNS circuitNS' : gset string)
    (dutRenames dutRenames' : gmap string HierPathOp)
    (paths out : list HierPathOp) :
  processAll circuitNS dutRenames paths = Some (out, circuitNS', dutRenames') →
  circuitNS ⊆ circuitNS'
  ∧ (∀ key clone, dutRenames !! key = Some clone → dutRenames' !! key = Some clone)
  ∧ (∀ key clone, dutRenames' !! key = Some clone →
       dutRenames !! key = Some clone
       ∨ ∃ nla ns0, nla ∈ paths ∧ circuitNS ⊆ ns0 ∧ key = sym_name nla
                    ∧ clone = setSymNameAttr nla (allocate ns0 (sym_name nla))).
Proof.
  revert circuitNS dutRenames out.
  induction paths as [|p paths IH]; intros ns rn out Hrun; simpl in Hrun.
  { simplify_eq. split; [done |]. split; [done |]. intros key clone Hkey. by left. }
  destruct (pathTouches (mod_name dut) p).
  - destruct (processOne ns rn p) as [[[here ns1] rn1]|] eqn:Hone; [| done].
    simpl in Hrun.
    destruct (processAll ns1 rn1 paths) as [[[there ns2] rn2]|] eqn:Hrest; [| done].
    simpl in Hrun. simplify_eq.
    destruct (processNLA_mono _ _ _ _ _ _ Hone) as (Hns & Hrn & Hnew).
    destruct (IH _ _ _ Hrest) as (Hns' & Hrn' & Hnew').
    split; [by etrans |]. split; [by intros key clone Hkey; apply Hrn', Hrn |].
    intros key clone Hkey.
    destruct (Hnew' key clone Hkey) as [Hold | (nla & ns0 & Hin & Hsub & -> & ->)].
    + destruct (Hnew key clone Hold) as [? | [-> ->]]; [by left |].
      right. exists p, ns. split; [left | done].
    + right. exists nla, ns0. split; [by right |]. split; [by etrans | done].
  - destruct (processAll ns rn paths) as [[[there ns2] rn2]|] eqn:Hrest; [| done].
    simpl in Hrun. simplify_eq.
    destruct (IH _ _ _ Hrest) as (Hns' & Hrn' & Hnew').
    split; [done |]. split; [done |].
    intros key clone Hkey.
    destruct (Hnew' key clone Hkey) as [Hold | (nla & ns0 & Hin & Hsub & -> & ->)].
    + by left.
    + right. exists nla, ns0. split; [by right | done].
Qed.

(** Case (3) inside the loop: the clone and the extended original both
    leave the loop, and [dutRenames] ends up mapping the path's symbol
    to its clone. *)
Lemma processNLAs_clone (circuitNS circuitNS' : gset string)
    (dutRenames dutRenames' : gmap string HierPathOp)
    (paths out : list HierPathOp) (nla nla' : HierPathOp) :
  processAll circuitNS dutRenames paths = Some (out, circuitNS', dutRenames') →
  NoDup (sym_name <$> paths) → nla ∈ paths →
  dutRenames !! sym_name nla = None →
  HierPath.root nla ≠ Some (mod_name dut) →
  HierPath.leafMod nla = Some (mod_name dut) →
  HierPath.ref nla = None → sym_name nla ∈ dutPaths →
  addHierarchy nla dut wrapperInst = Some nla' →
  ∃ ns0, circuitNS ⊆ ns0
    ∧ setSymNameAttr nla (allocate ns0 (sym_name nla)) ∈ out
    ∧ nla' ∈ out
    ∧ dutRenames' !! sym_name nla
      = Some (setSymNameAttr nla (allocate ns0 (sym_name nla))).
Proof.
  intros Hrun Hnodup Hin Hfree Hroot Hleaf Href Hused Hadd.
  revert circuitNS dutRenames out Hrun Hfree.
  induction paths as [|p paths IH]; intros ns rn out Hrun Hfree.
  { by apply elem_of_nil in Hin. }
  rewrite fmap_cons in Hnodup. apply NoDup_cons in Hnodup as [Hp Hnodup].
  simpl in Hrun.
  destruct (decide (p = nla)) as [-> | Hne].
  - (* the iteration for [nla] itself *)
    rewrite (leafMod_touches _ _ Hleaf) in Hrun.
    rewrite (processNLA_clone wrapper dut wrapperInst dutPaths dutPortSyms
               ns rn nla nla') in Hrun by done.
    simpl in Hrun.
    match type of Hrun with
    | context [processNLAs ?a ?w ?d ?i ?dp ?ps ?ns1 ?rn1 paths] =>
        destruct (processNLAs a w d i dp ps ns1 rn1 paths)
          as [[[there ns2] rn2]|] eqn:Hrest
    end; [| done].
    simpl in Hrun. simplify_eq.
    exists ns. split; [done |].
    split; [left |]. split; [right; left |].
    destruct (processNLAs_mono _ _ _ _ _ _ Hrest) as (_ & Hrn & _).
    apply Hrn. by rewrite dutRenamesInsert_lookup, Hfree, decide_True.
  - apply elem_of_cons in Hin as [-> | Hin]; [done |].
    assert (sym_name p ≠ sym_name nla) as Hsym.
    { intros Heq. apply Hp. rewrite Heq. by apply list_elem_of_fmap_2. }
    destruct (pathTouches (mod_name dut) p).
    + destruct (processOne ns rn p) as [[[here ns1] rn1]|] eqn:Hone; [| done].
      simpl in Hrun.
      destruct (processAll ns1 rn1 paths) as [[[there ns2] rn2]|] eqn:Hrest; [| done].
      simpl in Hrun. simplify_eq.
      destruct (processNLA_mono _ _ _ _ _ _ Hone) as (Hns & _ & Hnew).
      destruct (IH Hnodup Hin ns1 rn1 there Hrest) as (ns0 & Hsub & Hclone & Hext & Hmap).
      { destruct (rn1 !! sym_name nla) as [clone|] eqn:Hclone; [| done].
        destruct (Hnew _ _ Hclone) as [? | [? _]]; congruence. }
      exists ns0. split; [by etrans |].
      split; [apply elem_of_app; by right |].
      split; [apply elem_of_app; by right | done].
    + destruct (processAll ns rn paths) as [[[there ns2] rn2]|] eqn:Hrest; [| done].
      simpl in Hrun. simplify_eq.
      destruct (IH Hnodup Hin ns rn there Hrest Hfree)
        as (ns0 & Hsub & Hclone & Hext & Hmap).
      exists ns0. split; [done |]. split; [by right |]. split; [by right | done].
Qed.

Section FreshSymbols.
Hypothesis allocate_fresh : ∀ used hint, allocate used hint ∉ used.

(** What stands where a path stood: the path under its own symbol,
    possibly rewritten, with its clone in front of it in case (3). *)
Lemma processNLA_image (circuitNS circuitNS' : gset string)
    (dutRenames dutRenames' : gmap string HierPathOp)
    (nla : HierPathOp) (image : list HierPathOp) :
  processOne circuitNS dutRenames nla = Some (image, circuitNS', dutRenames') →
  ∃ nla', sym_name nla' = sym_name nla
    ∧ ((image = [nla'] ∧ circuitNS' = circuitNS)
       ∨ (image = [setSymNameAttr nla (allocate circuitNS (sym_name nla)); nla']
          ∧ circuitNS' = {[allocate circuitNS (sym_name nla)]} ∪ circuitNS)).
Proof.
  unfold processNLA. intros Hrun.
  destruct (decide (HierPath.root nla = Some (mod_name dut))).
  { destruct (namepath nla) as [|[m n|m] [|r np]]; simplify_eq.
    eexists. split; [| by left]. done. }
  destruct (bool_decide (HierPath.leafMod nla = Some (mod_name dut))
            && HierPath.isComponent nla
            && setCount dutPortSyms (HierPath.ref nla)).
  { simplify_eq. exists nla. split; [done | by left]. }
  assert (∀ nla', addHierarchy nla dut wrapperInst = Some nla' →
                  sym_name nla' = sym_name nla) as Hsym.
  { unfold addHierarchy. intros nla' Hadd.
    destruct (copyUntilDut (mod_name dut) (namepath nla) [])
      as [[newNamepath [|at_dut back]]|]; simplify_eq. done. }
  destruct (bool_decide (HierPath.leafMod nla = Some (mod_name dut))
            && HierPath.isModule nla
            && bool_decide (sym_name nla ∈ dutPaths)); simpl in Hrun;
    destruct (addHierarchy nla dut wrapperInst) as [nla'|] eqn:Hadd;
    simpl in Hrun; simplify_eq.
  - exists nla'. split; [by apply Hsym | by right].
  - exists nla'. split; [by apply Hsym | by left].
Qed.

(** The symbols of the paths stay distinct: a rewritten path keeps its
    symbol, and a clone gets one that the namespace has never seen. *)
Lemma processNLAs_symbols (circuitNS circuitNS' : gset string)
    (dutRenames dutRenames' : gmap string HierPathOp)
    (paths out : list HierPathOp) :
  processAll circuitNS dutRenames paths = Some (out, circuitNS', dutRenames') →
  NoDup (sym_name <$> paths) →
  (∀ p, p ∈ paths → sym_name p ∈ circuitNS) →
  NoDup (sym_name <$> out)
  ∧ ∀ q, q ∈ out →
      (sym_name q ∈ sym_name <$> paths ∨ sym_name q ∉ circuitNS)
      ∧ sym_name q ∈ circuitNS'.
Proof.
  revert circuitNS dutRenames out.
  induction paths as [|p paths IH]; intros ns rn out Hrun Hnodup Hknown;
    simpl in Hrun.
  { simplify_eq. split; [constructor |]. by intros q ?%elem_of_nil. }
  rewrite fmap_cons in Hnodup. apply NoDup_cons in Hnodup as [Hp Hnodup].
  assert (sym_name p ∈ ns) as Hpns by (apply Hknown; left).
  destruct (pathTouches (mod_name dut) p).
  - destruct (processOne ns rn p) as [[[here ns1] rn1]|] eqn:Hone; [| done].
    simpl in Hrun.
    destruct (processAll ns1 rn1 paths) as [[[there ns2] rn2]|] eqn:Hrest; [| done].
    simpl in Hrun. simplify_eq.
    destruct (processNLAs_mono _ _ _ _ _ _ Hrest) as (Hsub2 & _).
    destruct (processNLA_mono _ _ _ _ _ _ Hone) as (Hsub1 & _).
    destruct (IH ns1 rn1 there Hrest Hnodup) as [Hnd Hthere].
    { intros q Hq. apply Hsub1, Hknown. by right. }
    destruct (processNLA_image _ _ _ _ _ _ Hone)
      as (p' & Hsym & [[-> ->] | [-> ->]]).
    + (* the path alone *)
      split.
      * simpl. rewrite Hsym. apply NoDup_cons. split; [| done].
        intros Hin. apply list_elem_of_fmap in Hin as (q & Heq & Hq).
        destruct (Hthere q Hq) as [[Hold | Hnew] _]; [congruence |].
        apply Hnew. by rewrite <- Heq.
      * intros q Hq. apply elem_of_cons in Hq as [-> | Hq].
        -- rewrite Hsym. split; [left; left | by apply Hsub2].
        -- destruct (Hthere q Hq) as [[Hold | Hnew] Hin2]; split; try done.
           ++ left. by right.
           ++ by right.
    + (* the clone and the path *)
      set (c := allocate ns (sym_name p)) in *.
      assert (c ∉ ns) as Hc by apply allocate_fresh.
      assert (c ∈ {[c]} ∪ ns) as Hc1 by (apply elem_of_union_l, elem_of_singleton; done).
      split.
      * simpl. rewrite Hsym. apply NoDup_cons. split.
        { intros Hin. apply elem_of_cons in Hin as [Heq | Hin].
          - apply Hc. fold c. by rewrite Heq.
          - apply list_elem_of_fmap in Hin as (q & Heq & Hq).
            destruct (Hthere q Hq) as [[Hold | Hnew] _].
            + apply Hc. rewrite Heq.
              apply list_elem_of_fmap in Hold as (q' & -> & Hq').
              apply Hknown. by right.
            + apply Hnew. by rewrite <- Heq. }
        apply NoDup_cons. split; [| done].
        intros Hin. apply list_elem_of_fmap in Hin as (q & Heq & Hq).
        destruct (Hthere q Hq) as [[Hold | Hnew] _]; [congruence |].
        apply Hnew. rewrite <- Heq. by apply elem_of_union_r.
      * intros q Hq. apply elem_of_cons in Hq as [-> | Hq].
        { simpl. split; [by right | by apply Hsub2]. }
        apply elem_of_cons in Hq as [-> | Hq].
        { rewrite Hsym. split; [left; left |]. by apply Hsub2, elem_of_union_r. }
        destruct (Hthere q Hq) as [[Hold | Hnew] Hin2]; split; try done.
        -- left. by right.
        -- right. intros Hbad. apply Hnew. by apply elem_of_union_r.
  - destruct (processAll ns rn paths) as [[[there ns2] rn2]|] eqn:Hrest; [| done].
    simpl in Hrun. simplify_eq.
    destruct (processNLAs_mono _ _ _ _ _ _ Hrest) as (Hsub2 & _).
    destruct (IH ns rn there Hrest Hnodup) as [Hnd Hthere].
    { intros q Hq. apply Hknown. by right. }
    split.
    + simpl. apply NoDup_cons. split; [| done].
      intros Hin. apply list_elem_of_fmap in Hin as (q & Heq & Hq).
      destruct (Hthere q Hq) as [[Hold | Hnew] _]; [congruence |].
      apply Hnew. by rewrite <- Heq.
    + intros q Hq. apply elem_of_cons in Hq as [-> | Hq].
      * split; [left; left | by apply Hsub2].
      * destruct (Hthere q Hq) as [[Hold | Hnew] Hin2]; split; try done.
        -- left. by right.
        -- by right.
Qed.
End FreshSymbols.
End AllPaths.

(* ---------------------------------------------------------------- *)
(** ** The anatomy of a run *)
(* ---------------------------------------------------------------- *)

Lemma getDut_spec (modules before after : list FModuleOp) (dut : FModuleOp) :
  getDut modules = Some (before, dut, after) →
  modules = before ++ dut :: after ∧ hasAnnotation dutAnnoClass dut = true.
Proof.
  revert before. induction modules as [|m modules IH]; intros before Hdut; [done |].
  simpl in Hdut. destruct (hasAnnotation dutAnnoClass m) eqn:Hm.
  - by simplify_eq.
  - destruct (getDut modules) as [[[before' dut'] after']|]; [| done].
    simpl in Hdut. simplify_eq.
    destruct (IH before' eq_refl) as [-> ?]. done.
Qed.

Section Anatomy.
Context (circuit : CircuitOp) (hint : string) (moveDut : bool)
        (before : list FModuleOp) (oldDut : FModuleOp) (after : list FModuleOp).

Local Abbreviation wrapper0 := (splitWrapper allocate circuit hint moveDut oldDut).
Local Abbreviation shell0 := (splitShell allocate circuit hint moveDut oldDut).
Local Abbreviation inst0 := (builtInstance allocate circuit hint moveDut oldDut).
Local Abbreviation shell1 := (wiredShell allocate circuit hint moveDut oldDut).

Lemma splitWrapper_fields :
  mod_name wrapper0 = allocate (CircuitNamespace circuit) hint
  ∧ mod_ports wrapper0 = (λ p, setPortAnnotations p []) <$> mod_ports oldDut
  ∧ mod_annotations wrapper0 =
      (if moveDut
       then filter (λ anno, isClass dutAnnoClass anno = true) (mod_annotations oldDut)
       else [])
  ∧ mod_body wrapper0 = mod_body oldDut
  ∧ mod_visibility wrapper0 = (if moveDut then mod_visibility oldDut else Private).
Proof. unfold splitWrapper. by rewrite splitDut_eq. Qed.

Lemma splitShell_fields :
  mod_name shell0 = mod_name oldDut
  ∧ mod_ports shell0 = mod_ports oldDut
  ∧ mod_annotations shell0 =
      (if moveDut
       then filter (λ anno, isClass dutAnnoClass anno = false) (mod_annotations oldDut)
       else mod_annotations oldDut)
  ∧ mod_body shell0 = []
  ∧ mod_visibility shell0 = (if moveDut then Private else mod_visibility oldDut).
Proof. unfold splitShell. by rewrite splitDut_eq. Qed.

Lemma injectHierarchy_eq :
  injectHierarchy allocate circuit hint moveDut before oldDut after =
    '(paths, _, dutRenames) ←
      processNLAs allocate wrapper0 shell1 inst0
        (collectDutPaths shell1) (collectDutPortSyms shell1)
        ({[mod_name wrapper0]} ∪ CircuitNamespace circuit) ∅ (circ_paths circuit);
    Some {| circ_annotations := circ_annotations circuit;
            circ_modules :=
              before
              ++ setBody wrapper0
                   (map (updateRWProbe (mod_name wrapper0)) (mod_body wrapper0))
              :: updateAnnotations dutRenames shell1 :: after;
            circ_paths := paths |}.
Proof.
  unfold injectHierarchy.
  pose proof splitWrapper_fields as (Hwn & Hwp & _).
  pose proof splitShell_fields as (_ & Hsp & _ & Hsb & _).
  unfold wiredShell, builtInstance, splitWrapper, splitShell in *.
  destruct (splitDut allocate moveDut (CircuitNamespace circuit) hint oldDut)
    as [[wrapper shell] ns] eqn:Hsplit.
  rewrite splitDut_eq in Hsplit. simpl in *.
  rewrite instantiateWrapper_eq by (by rewrite Hwp, Hsp, length_fmap).
  simpl. rewrite Hsb, app_nil_r.
  assert (ns = {[mod_name wrapper]} ∪ CircuitNamespace circuit) as ->
    by (by simplify_eq).
  done.
Qed.
End Anatomy.

(** A run that succeeds went through the whole transformation. *)
Lemma runOnOperation_success (circuit : CircuitOp) (run : PassRun) :
  runOnOperation allocate circuit = Some run → status run = PassSuccess →
  ∃ hint before oldDut after,
    error (readDirectives (circ_annotations circuit)) = false
    ∧ wrapperName (readDirectives (circ_annotations circuit)) = Some hint
    ∧ getDut (circ_modules circuit) = Some (before, oldDut, after)
    ∧ injectHierarchy allocate circuit hint
        (moveDut (readDirectives (circ_annotations circuit)))
        before oldDut after = Some (result run).
Proof.
  unfold runOnOperation. intros Hrun Hstatus.
  destruct (error (readDirectives (circ_annotations circuit))) eqn:Herr.
  { by simplify_eq. }
  destruct (wrapperName (readDirectives (circ_annotations circuit))) as [hint|];
    [| by simplify_eq].
  destruct (getDut (circ_modules circuit)) as [[[before oldDut] after]|];
    [| by simplify_eq].
  destruct (injectHierarchy allocate circuit hint _ before oldDut after)
    as [circuit'|] eqn:Hinject; simpl in Hrun; [| done].
  simplify_eq. by exists hint, before, oldDut, after.
Qed.

Lemma success_anatomy (circuit : CircuitOp) (run : PassRun) :
  runOnOperation allocate circuit = Some run → status run = PassSuccess →
  ∃ hint before oldDut after paths circuitNS dutRenames,
    let moveDut := moveDut (readDirectives (circ_annotations circuit)) in
    let wrapper := splitWrapper allocate circuit hint moveDut oldDut in
    let shell := wiredShell allocate circuit hint moveDut oldDut in
    let wrapperInst := builtInstance allocate circuit hint moveDut oldDut in
    wrapperName (readDirectives (circ_annotations circuit)) = Some hint
    ∧ getDut (circ_modules circuit) = Some (before, oldDut, after)
    ∧ processNLAs allocate wrapper shell wrapperInst
        (collectDutPaths shell) (collectDutPortSyms shell)
        ({[mod_name wrapper]} ∪ CircuitNamespace circuit) ∅ (circ_paths circuit)
      = Some (paths, circuitNS, dutRenames)
    ∧ circ_modules (result run) =
        before
        ++ setBody wrapper (map (updateRWProbe (mod_name wrapper)) (mod_body wrapper))
        :: updateAnnotations dutRenames shell :: after
    ∧ circ_paths (result run) = paths
    ∧ circ_annotations (result run) = circ_annotations circuit.
Proof.
  intros Hrun Hstatus.
  destruct (runOnOperation_success circuit run Hrun Hstatus)
    as (hint & before & oldDut & after & _ & Hhint & Hdut & Hinject).
  rewrite injectHierarchy_eq in Hinject.
  match type of Hinject with
  | context [processNLAs ?a ?w ?d ?i ?dp ?ps ?ns ?rn ?paths] =>
      destruct (processNLAs a w d i dp ps ns rn paths)
        as [[[paths' circuitNS] dutRenames]|] eqn:Hloop
  end; simpl in Hinject; [| done].
  injection Hinject as <-.
  by exists hint, before, oldDut, after, paths', circuitNS, dutRenames.
Qed.

Lemma wiredShell_fields (circuit : CircuitOp) (hint : string) (moveDut : bool)
    (oldDut : FModuleOp) :
  mod_name (wiredShell allocate circuit hint moveDut oldDut) = mod_name oldDut
  ∧ mod_ports (wiredShell allocate circuit hint moveDut oldDut) = mod_ports oldDut
  ∧ mod_annotations (wiredShell allocate circuit hint moveDut oldDut) =
      (if moveDut
       then filter (λ anno, isClass dutAnnoClass anno = false) (mod_annotations oldDut)
       else mod_annotations oldDut).
Proof.
  destruct (splitShell_fields circuit hint moveDut oldDut) as (? & ? & ? & _).
  unfold wiredShell. simpl. done.
Qed.
End PassLemmas.

(* ================================================================== *)
(** * Further lemmas: the shape of rewritten paths *)
(* ================================================================== *)

Lemma addHierarchy_Some (path : HierPathOp) (dut : FModuleOp)
    (wrapperInst : InstanceOp) (path' : HierPathOp) :
  addHierarchy path dut wrapperInst = Some path' →
  ∃ front at_dut back,
    splitsAt (mod_name dut) (namepath path) front at_dut back
    ∧ path' = setNamepathAttr path
                (front
                 ++ [InnerRefAttr (mod_name dut) (inst_inner_sym wrapperInst);
                     retargetLocator (inst_module wrapperInst) at_dut]
                 ++ back).
Proof.
  intros Hadd.
  destruct (pathTouches (mod_name dut) path) eqn:Htouch.
  - apply bool_decide_eq_true in Htouch.
    destruct (splitsAt_exists _ _ Htouch) as (front & at_dut & back & Hsplit).
    exists front, at_dut, back. split; [done |].
    rewrite (addHierarchy_splitsAt _ _ _ _ _ _ Hsplit) in Hadd. by simplify_eq.
  - by rewrite addHierarchy_untouched in Hadd.
Qed.

Lemma getName_retargetLocator (wrapperModuleName : string) (r : NameRef) :
  getName (retargetLocator wrapperModuleName r) = getName r.
Proof. by destruct r. Qed.

Lemma getModule_retargetLocator (wrapperModuleName : string) (r : NameRef) :
  getModule (retargetLocator wrapperModuleName r) = wrapperModuleName.
Proof. by destruct r. Qed.

Lemma interiorInnerRefs_app (front back : list NameRef) :
  back ≠ [] →
  interiorInnerRefs (front ++ back) =
    forallb (λ r, bool_decide (is_Some (getName r))) front && interiorInnerRefs back.
Proof.
  intros Hback. induction front as [|r front IH]; [done |].
  change ((r :: front) ++ back) with (r :: (front ++ back)).
  cbn [interiorInnerRefs forallb].
  destruct (front ++ back) as [|r' rest] eqn:Happ.
  { apply app_eq_nil in Happ as [_ ?]. done. }
  rewrite IH. by rewrite andb_assoc.
Qed.

Lemma filter_all {A : Type} (P : A → Prop) `{!∀ x, Decision (P x)} (l : list A) :
  (∀ x, x ∈ l → P x) → filter P l = l.
Proof.
  induction l as [|x l IH]; intros Hall; [done |].
  rewrite filter_cons. destruct (decide (P x)) as [? | Hno].
  - f_equal. apply IH. intros y Hy. apply Hall. by right.
  - destruct Hno. apply Hall. left.
Qed.

(** The loop of lines 101-127 skips whatever is not a directive. *)
Lemma readDirectives_directivesOf (st : Directive) (annos : list Annotation) :
  foldl readDirective st annos = foldl readDirective st (directivesOf annos).
Proof.
  revert st. induction annos as [|anno annos IH]; intros st; [done |].
  unfold directivesOf. rewrite filter_cons. fold (directivesOf annos).
  destruct (decide (isDirective anno = true)) as [Hcls | Hcls]; simpl.
  - apply IH.
  - rewrite <- IH. f_equal. unfold readDirective.
    unfold isDirective in Hcls. apply not_true_is_false in Hcls.
    by rewrite Hcls.
Qed.

(** What the loop accepts when it raises no error. *)
Lemma readDirectives_accepts (annos : list Annotation) :
  error (readDirectives annos) = false →
  emitted (readDirectives annos) = []
  ∧ namelessDirectives annos = []
  ∧ match wrapperName (readDirectives annos) with
    | Some name =>
        ∃ directive, directivesOf annos = [directive]
                     ∧ getMemberString "name" directive = Some name
    | None => directivesOf annos = []
    end.
Proof.
  intros He.
  destruct (readDirectives_summary annos) as (Hwn & Hmal & Hdup & Hmiss & Herr).
  pose proof (directives_partition annos) as Hpart.
  assert (emitted (readDirectives annos) = []) as Hnil.
  { destruct (decide (emitted (readDirectives annos) = [])) as [? | Hne]; [done |].
    apply Herr in Hne. congruence. }
  rewrite Hnil in Hmal, Hdup. simpl in Hmal, Hdup.
  assert (namelessDirectives annos = []) as Hnl by (by apply nil_length_inv).
  split; [done |]. split; [done |].
  assert (directivesOf annos = namedDirectives annos) as Hall.
  { unfold namedDirectives. symmetry. apply filter_all. intros anno Hin.
    destruct (hasName anno) eqn:Hname; [done |].
    assert (anno ∈ namelessDirectives annos) as Hbad.
    { unfold namelessDirectives. by apply list_elem_of_filter. }
    rewrite Hnl in Hbad. by apply elem_of_nil in Hbad. }
  rewrite Hwn, Hall. revert Hdup.
  destruct (namedDirectives annos) as [|first [|second rest]] eqn:Hnamed;
    simpl; intros Hdup; [done | | discriminate Hdup].
  assert (first ∈ namedDirectives annos) as Hin by (rewrite Hnamed; left).
  apply list_elem_of_filter in Hin as [Hname _].
  unfold hasName in Hname. apply bool_decide_eq_true in Hname as [name Hname].
  rewrite Hname. by exists first.
Qed.

Section PathOrigins.
Context (allocate : gset string → string → string).
Context (wrapper dut : FModuleOp) (wrapperInst : InstanceOp)
        (dutPaths dutPortSyms : gset string).

Local Abbreviation processOne :=
  (processNLA allocate wrapper dut wrapperInst dutPaths dutPortSyms).
Local Abbreviation processAll :=
  (processNLAs allocate wrapper dut wrapperInst dutPaths dutPortSyms).

(** Where a path that stands in place of [nla] after the loop body comes
    from: the root case, the port case, the clone, or [addHierarchy]. *)
Lemma processNLA_origin (circuitNS circuitNS' : gset string)
    (dutRenames dutRenames' : gmap string HierPathOp)
    (nla : HierPathOp) (image : list HierPathOp) (q : HierPathOp) :
  processOne circuitNS dutRenames nla = Some (image, circuitNS', dutRenames') →
  q ∈ image →
  (∃ frontName second tail,
     namepath nla = InnerRefAttr (mod_name dut) frontName :: second :: tail
     ∧ q = setNamepathAttr nla
             (InnerRefAttr (mod_name wrapper) frontName :: second :: tail))
  ∨ (HierPath.root nla ≠ Some (mod_name dut)
     ∧ ((q = nla ∧ HierPath.leafMod nla = Some (mod_name dut)
         ∧ is_Some (HierPath.ref nla))
        ∨ (q = setSymNameAttr nla (allocate circuitNS (sym_name nla))
           ∧ HierPath.leafMod nla = Some (mod_name dut)
           ∧ HierPath.ref nla = None)
        ∨ addHierarchy nla dut wrapperInst = Some q)).
Proof.
  unfold processNLA. intros Hrun Hq.
  destruct (decide (HierPath.root nla = Some (mod_name dut))) as [Hroot | Hroot].
  { left. unfold HierPath.root in Hroot.
    destruct (namepath nla) as [|[m n|m] [|r np]]; simpl in Hroot; simplify_eq.
    apply list_elem_of_singleton in Hq as ->. by exists n, r, np. }
  right. split; [done |].
  destruct (bool_decide (HierPath.leafMod nla = Some (mod_name dut))
            && HierPath.isComponent nla
            && setCount dutPortSyms (HierPath.ref nla)) eqn:Hport.
  { simplify_eq. apply list_elem_of_singleton in Hq as ->. left.
    apply andb_true_iff in Hport as [Hport _].
    apply andb_true_iff in Hport as [Hleaf Hcomp].
    apply bool_decide_eq_true in Hleaf.
    unfold HierPath.isComponent, HierPath.isModule in Hcomp.
    apply negb_true_iff, bool_decide_eq_false in Hcomp.
    split; [done |]. split; [done |].
    by destruct (HierPath.ref nla). }
  destruct (bool_decide (HierPath.leafMod nla = Some (mod_name dut))
            && HierPath.isModule nla
            && bool_decide (sym_name nla ∈ dutPaths)) eqn:Hclone; simpl in Hrun;
    destruct (addHierarchy nla dut wrapperInst) as [nla'|] eqn:Hadd;
    simpl in Hrun; simplify_eq.
  - apply elem_of_cons in Hq as [-> | Hq].
    + right. left.
      apply andb_true_iff in Hclone as [Hclone _].
      apply andb_true_iff in Hclone as [Hleaf Hmod].
      apply bool_decide_eq_true in Hleaf.
      unfold HierPath.isModule in Hmod. by apply bool_decide_eq_true in Hmod.
    + apply list_elem_of_singleton in Hq as ->. by right; right.
  - apply list_elem_of_singleton in Hq as ->. by right; right.
Qed.

(** Where a path comes from after the whole loop. *)
Lemma processNLAs_origin (circuitNS circuitNS' : gset string)
    (dutRenames dutRenames' : gmap string HierPathOp)
    (paths out : list HierPathOp) (q : HierPathOp) :
  processAll circuitNS dutRenames paths = Some (out, circuitNS', dutRenames') →
  q ∈ out →
  ∃ nla, nla ∈ paths
    ∧ ((pathTouches (mod_name dut) nla = false ∧ q = nla)
       ∨ (pathTouches (mod_name dut) nla = true
          ∧ ∃ ns0 rn0 image ns1 rn1,
              processOne ns0 rn0 nla = Some (image, ns1, rn1) ∧ q ∈ image)).
Proof.
  revert circuitNS dutRenames out.
  induction paths as [|p paths IH]; intros ns rn out Hrun Hq.
  { simpl in Hrun. simplify_eq. by apply elem_of_nil in Hq. }
  simpl in Hrun.
  destruct (pathTouches (mod_name dut) p) eqn:Hp.
  - destruct (processOne ns rn p) as [[[here ns1] rn1]|] eqn:Hone; [| done].
    simpl in Hrun.
    destruct (processAll ns1 rn1 paths) as [[[there ns2] rn2]|] eqn:Hrest; [| done].
    simpl in Hrun. simplify_eq.
    apply elem_of_app in Hq as [Hq | Hq].
    + exists p. split; [left |]. right. split; [done |].
      by exists ns, rn, here, ns1, rn1.
    + destruct (IH _ _ _ Hrest Hq) as (nla & Hin & Hcase).
      exists nla. split; [by right | done].
  - destruct (processAll ns rn paths) as [[[there ns2] rn2]|] eqn:Hrest; [| done].
    simpl in Hrun. simplify_eq.
    apply elem_of_cons in Hq as [-> | Hq].
    + exists p. split; [left |]. by left.
    + destruct (IH _ _ _ Hrest Hq) as (nla & Hin & Hcase).
      exists nla. split; [by right | done].
Qed.

(** The two lemmas together, with the cases of [processNLA_origin] spelt
    out for a path of the result. *)
Lemma processNLAs_cases (circuitNS circuitNS' : gset string)
    (dutRenames dutRenames' : gmap string HierPathOp)
    (paths out : list HierPathOp) (q : HierPathOp) :
  processAll circuitNS dutRenames paths = Some (out, circuitNS', dutRenames') →
  q ∈ out →
  ∃ nla, nla ∈ paths
    ∧ ((pathTouches (mod_name dut) nla = false ∧ q = nla)
       ∨ (∃ frontName second tail,
            namepath nla = InnerRefAttr (mod_name dut) frontName :: second :: tail
            ∧ q = setNamepathAttr nla
                    (InnerRefAttr (mod_name wrapper) frontName :: second :: tail))
       ∨ (HierPath.root nla ≠ Some (mod_name dut)
          ∧ HierPath.leafMod nla = Some (mod_name dut)
          ∧ ((q = nla ∧ is_Some (HierPath.ref nla))
             ∨ (∃ ns0, q = setSymNameAttr nla (allocate ns0 (sym_name nla))
                       ∧ HierPath.ref nla = None)))
       ∨ (HierPath.root nla ≠ Some (mod_name dut)
          ∧ addHierarchy nla dut wrapperInst = Some q)).
Proof.
  intros Hrun Hq.
  destruct (processNLAs_origin _ _ _ _ _ _ _ Hrun Hq)
    as (nla & Hin & [Hcase | (Htouch & ns0 & rn0 & image & ns1 & rn1 & Hone & Himg)]).
  { exists nla. split; [done | by left]. }
  exists nla. split; [done |]. right.
  destruct (processNLA_origin _ _ _ _ _ _ _ Hone Himg)
    as [Hroot | (Hroot & [(-> & Hleaf & Href) | [(-> & Hleaf & Href) | Hadd]])].
  - by left.
  - right. left. split; [done |]. split; [done |]. by left.
  - right. left. split; [done |]. split; [done |]. right. by exists ns0.
  - right. right. done.
Qed.
End PathOrigins.

(** ** Locators of a namepath with one more level *)

Lemma head_insert_level (moduleName : string) (np front : list NameRef)
    (at_module : NameRef) (back : list NameRef) (edgeName child : string) :
  splitsAt moduleName np front at_module back →
  getModule <$> head (front ++ [InnerRefAttr moduleName edgeName;
                                 retargetLocator child at_module] ++ back)
  = getModule <$> head np.
Proof.
  intros (-> & _ & Hat). destruct front as [|r front]; simpl; [| done].
  by rewrite Hat.
Qed.

Lemma interiorInnerRefs_insert_level (front : list NameRef) (at_module : NameRef)
    (back : list NameRef) (moduleName edgeName child : string) :
  interiorInnerRefs (front ++ at_module :: back) = true →
  interiorInnerRefs (front ++ [InnerRefAttr moduleName edgeName;
                               retargetLocator child at_module] ++ back) = true.
Proof.
  intros Hshape.
  rewrite interiorInnerRefs_app in Hshape by done.
  rewrite interiorInnerRefs_app by done.
  apply andb_true_iff in Hshape as [Hfront Hback].
  apply andb_true_iff. split; [done |].
  change (bool_decide (is_Some (Some edgeName))
          && interiorInnerRefs (retargetLocator child at_module :: back) = true).
  apply andb_true_iff. split; [by apply bool_decide_eq_true |].
  destruct back as [|b back]; [done |].
  cbn [interiorInnerRefs] in Hback |- *.
  by rewrite getName_retargetLocator.
Qed.

Lemma routesThrough_untouched (moduleName : string) (edge : NameRef)
    (child : string) (np : list NameRef) :
  moduleName ∉ getModule <$> np → routesThrough moduleName edge child np.
Proof.
  intros Hnotin i r r' Hi _ Hm. destruct Hnotin.
  apply list_elem_of_fmap. exists r. split; [done |].
  by apply list_elem_of_lookup_2 in Hi.
Qed.

(** In a namepath that visits no module twice and ends at the module, no
    locator behind one that names the module is left. *)
Lemma routesThrough_leaf (moduleName : string) (edge : NameRef)
    (child : string) (np : list NameRef) :
  NoDup (getModule <$> np) →
  getModule <$> last np = Some moduleName →
  routesThrough moduleName edge child np.
Proof.
  intros Hnodup Hleaf i r r' Hi HSi Hm. exfalso.
  destruct (last np) as [l|] eqn:Hlast; [| done].
  simpl in Hleaf. injection Hleaf as Hleaf.
  apply last_Some in Hlast as [np' ->].
  rewrite fmap_app in Hnodup. apply NoDup_app in Hnodup as (_ & Hdisj & _).
  destruct (decide (i < length np')) as [Hlt | Hge].
  - rewrite lookup_app_l in Hi by done.
    apply (Hdisj moduleName).
    + apply list_elem_of_fmap. exists r. split; [done |].
      by apply list_elem_of_lookup_2 in Hi.
    + simpl. rewrite Hleaf. left.
  - apply lookup_lt_Some in HSi. rewrite length_app in HSi. simpl in HSi. lia.
Qed.

Lemma routesThrough_insert_level (moduleName : string) (np front : list NameRef)
    (at_module : NameRef) (back : list NameRef) (edgeName child : string) :
  splitsAt moduleName np front at_module back →
  NoDup (getModule <$> np) → child ≠ moduleName →
  routesThrough moduleName (InnerRefAttr moduleName edgeName) child
    (front ++ [InnerRefAttr moduleName edgeName;
               retargetLocator child at_module] ++ back).
Proof.
  intros (-> & Hfront & Hat) Hnodup Hne i r r' Hi HSi Hm.
  rewrite fmap_app, fmap_cons, Hat in Hnodup.
  apply NoDup_app in Hnodup as (_ & _ & Hnodup).
  apply NoDup_cons in Hnodup as [Hback _].
  destruct (decide (i < length front)) as [Hlt | Hge].
  { rewrite lookup_app_l in Hi by done.
    apply list_elem_of_lookup_2 in Hi.
    rewrite Forall_forall in Hfront. by destruct (Hfront r Hi). }
  rewrite lookup_app_r in Hi by lia.
  rewrite lookup_app_r in HSi by lia.
  replace (S i - length front) with (S (i - length front)) in HSi by lia.
  destruct (i - length front) as [|[|j]]; simpl in Hi, HSi.
  - injection Hi as <-. injection HSi as <-.
    split; [done |]. apply getModule_retargetLocator.
  - injection Hi as <-. by rewrite getModule_retargetLocator in Hm.
  - destruct Hback. apply list_elem_of_fmap. exists r. split; [done |].
    by apply list_elem_of_lookup_2 in Hi.
Qed.

Lemma omap_port_sym_annotations (f : PortInfo → list Annotation)
    (ports : list PortInfo) :
  omap port_sym ((λ p, setPortAnnotations p (f p)) <$> ports) = omap port_sym ports.
Proof.
  induction ports as [|p ports IH]; [done |].
  simpl. destruct (port_sym p); [f_equal |]; apply IH.
Qed.

Lemma innerSymbolsOf_passThrough (instanceName : string) (ports : list PortInfo) :
  concat (map innerSymbolsOf (imap (passThrough instanceName) ports)) = [].
Proof.
  assert (∀ (g : nat → nat) ports,
            concat (map innerSymbolsOf
                      (imap (λ i, passThrough instanceName (g i)) ports)) = [])
    as Hgen.
  { intros g ports'. revert g.
    induction ports' as [|p ports' IH]; intros g; [done |].
    simpl. unfold passThrough at 1. destruct (direction p); simpl; apply (IH (g ∘ S)). }
  apply (Hgen id).
Qed.

Section RunAnatomy.
Context (allocate : gset string → string → string).

(** The parts of a successful run that the properties of the paths use. *)
Lemma success_paths (circuit : CircuitOp) (run : PassRun)
    (before : list FModuleOp) (oldDut : FModuleOp) (after : list FModuleOp) :
  runOnOperation allocate circuit = Some run → status run = PassSuccess →
  getDut (circ_modules circuit) = Some (before, oldDut, after) →
  ∃ hint wrapper shell wrapperInst connects wrapper0 shell0
      dutPaths dutPortSyms circuitNS dutRenames,
    circ_modules (result run) = before ++ wrapper :: shell :: after
    ∧ mod_name wrapper = allocate (CircuitNamespace circuit) hint
    ∧ mod_name shell = mod_name oldDut
    ∧ mod_body shell = OpInstance wrapperInst :: connects
    ∧ inst_module wrapperInst = mod_name wrapper
    ∧ mod_name wrapper0 = mod_name wrapper
    ∧ mod_name shell0 = mod_name oldDut
    ∧ processNLAs allocate wrapper0 shell0 wrapperInst dutPaths dutPortSyms
        ({[mod_name wrapper]} ∪ CircuitNamespace circuit) ∅ (circ_paths circuit)
      = Some (circ_paths (result run), circuitNS, dutRenames).
Proof.
  intros Hrun Hstatus Hdut.
  destruct (success_anatomy allocate circuit run Hrun Hstatus)
    as (hint & before' & oldDut' & after' & paths & ns & rn
        & _ & Hdut' & Hloop & Hmods & Hpaths & _).
  rewrite Hdut in Hdut'. symmetry in Hdut'. simplify_eq.
  set (mv := moveDut (readDirectives (circ_annotations circuit))) in *.
  destruct (wiredShell_fields allocate circuit hint mv oldDut) as (Hsn & _).
  destruct (splitWrapper_fields allocate circuit hint mv oldDut) as (Hwn & _).
  eexists hint, _, _, (builtInstance allocate circuit hint mv oldDut), _,
    (splitWrapper allocate circuit hint mv oldDut),
    (wiredShell allocate circuit hint mv oldDut), _, _, ns, rn.
  split; [exact Hmods |]. split; [exact Hwn |]. split; [exact Hsn |].
  split; [reflexivity |]. split; [reflexivity |]. split; [reflexivity |].
  split; [exact Hsn |]. exact Hloop.
Qed.

(** Once a directive is accepted and a DUT is found, the run reaches its end
    exactly when the loop over the paths does. *)
Lemma run_is_Some_iff (circuit : CircuitOp) (hint : string)
    (before : list FModuleOp) (oldDut : FModuleOp) (after : list FModuleOp) :
  error (readDirectives (circ_annotations circuit)) = false →
  wrapperName (readDirectives (circ_annotations circuit)) = Some hint →
  getDut (circ_modules circuit) = Some (before, oldDut, after) →
  is_Some (runOnOperation allocate circuit) ↔
    ∀ nla, nla ∈ circ_paths circuit →
           HierPath.root nla = Some (mod_name oldDut) → rootPrecondition nla.
Proof.
  intros Herr Hhint Hdut.
  set (mv := moveDut (readDirectives (circ_annotations circuit))).
  destruct (wiredShell_fields allocate circuit hint mv oldDut) as (Hsn & _).
  unfold runOnOperation. rewrite Herr, Hhint, Hdut, injectHierarchy_eq.
  fold mv.
  pose proof (processNLAs_is_Some allocate
                (splitWrapper allocate circuit hint mv oldDut)
                (wiredShell allocate circuit hint mv oldDut)
                (builtInstance allocate circuit hint mv oldDut)
                (collectDutPaths (wiredShell allocate circuit hint mv oldDut))
                (collectDutPortSyms (wiredShell allocate circuit hint mv oldDut))
                ({[mod_name (splitWrapper allocate circuit hint mv oldDut)]}
                 ∪ CircuitNamespace circuit) ∅ (circ_paths circuit)) as Hloop.
  rewrite Hsn in Hloop. rewrite <- Hloop. clear Hloop.
  match goal with
  | |- context [processNLAs ?a ?w ?d ?i ?dp ?ps ?ns ?rn ?paths] =>
      destruct (processNLAs a w d i dp ps ns rn paths) as [[[out ns'] rn']|]
  end; simpl.
  - split; intros _; by eexists.
  - split; by intros [? ?].
Qed.
End RunAnatomy.

(** ** Annotations after the retargeting of lines 315-340 *)

Lemma replaceAnnotations_cons (dutRenames : gmap string HierPathOp)
    (anno : Annotation) (annos : list Annotation) :
  replaceAnnotations dutRenames (anno :: annos) =
    match removeAndUpdateNLAs dutRenames anno with
    | Some anno' =>
        removeAnnotationsIf
          (λ a, bool_decide (is_Some (removeAndUpdateNLAs dutRenames a))) annos
        ++ anno' :: omap (removeAndUpdateNLAs dutRenames) annos
    | None => anno :: replaceAnnotations dutRenames annos
    end.
Proof.
  unfold replaceAnnotations, removeAnnotationsIf. rewrite filter_cons. simpl.
  destruct (removeAndUpdateNLAs dutRenames anno) as [anno'|] eqn:Hrm.
  - rewrite decide_False; [done |].
    intros Hno. apply bool_decide_eq_false in Hno. by destruct Hno.
  - rewrite decide_True; [done |].
    apply bool_decide_eq_false. by intros [? ?].
Qed.

Lemma replaceAnnotations_Permutation (dutRenames : gmap string HierPathOp)
    (annos : list Annotation) :
  replaceAnnotations dutRenames annos ≡ₚ retargetAnnotation dutRenames <$> annos.
Proof.
  induction annos as [|anno annos IH]; [done |].
  rewrite replaceAnnotations_cons, fmap_cons. unfold retargetAnnotation at 1.
  destruct (removeAndUpdateNLAs dutRenames anno) as [anno'|]; simpl.
  - rewrite <- Permutation_middle. by constructor.
  - by constructor.
Qed.

Lemma retargetAnnotation_fields (dutRenames : gmap string HierPathOp)
    (anno : Annotation) (key : string) :
  key ≠ "circt.nonlocal" →
  dictGet key (retargetAnnotation dutRenames anno) = dictGet key anno.
Proof.
  intros Hkey. unfold retargetAnnotation.
  destruct (removeAndUpdateNLAs dutRenames anno) as [anno'|] eqn:Hrm; [| done].
  apply removeAndUpdateNLAs_Some in Hrm as (sym & clone & _ & _ & ->).
  simpl. by apply dictGet_setMember_ne.
Qed.

Lemma retargetAnnotation_local (dutRenames : gmap string HierPathOp)
    (anno : Annotation) :
  isLocal anno → retargetAnnotation dutRenames anno = anno.
Proof.
  unfold isLocal, retargetAnnotation, removeAndUpdateNLAs. by intros ->.
Qed.

Lemma replaceAnnotations_local (dutRenames : gmap string HierPathOp)
    (annos : list Annotation) :
  filter isLocal (replaceAnnotations dutRenames annos) = filter isLocal annos.
Proof.
  induction annos as [|anno annos IH]; [done |].
  rewrite replaceAnnotations_cons.
  destruct (removeAndUpdateNLAs dutRenames anno) as [anno'|] eqn:Hrm.
  - apply removeAndUpdateNLAs_Some in Hrm as (sym & clone & Hsym & _ & ->).
    rewrite filter_app, !filter_cons.
    rewrite decide_False.
    2: { unfold isLocal. by rewrite nonlocalSymbol_setMember. }
    rewrite decide_False.
    2: { unfold isLocal. by rewrite Hsym. }
    rewrite <- filter_app. exact IH.
  - rewrite !filter_cons, IH. done.
Qed.

(** ** [rwprobe] operations *)

Lemma Operation_nested_ind (P : Operation → Prop) :
  (∀ inst, P (OpInstance inst)) →
  (∀ dest src, P (OpConnect dest src)) →
  (∀ targetModule targetName, P (OpRWProbe targetModule targetName)) →
  (∀ mnemonic nested, Forall P nested → P (OpOther mnemonic nested)) →
  ∀ op, P op.
Proof.
  intros Hinst Hconnect Hprobe Hother. fix IH 1.
  intros [inst | dest src | targetModule targetName | mnemonic nested];
    [apply Hinst | apply Hconnect | apply Hprobe |].
  apply Hother. induction nested as [|op nested IHnested]; constructor.
  - apply IH.
  - exact IHnested.
Qed.

Lemma rwprobeTargets_updateRWProbe (wrapperModuleName : string) (op : Operation) :
  rwprobeTargets (updateRWProbe wrapperModuleName op)
  = (λ target, (wrapperModuleName, target.2)) <$> rwprobeTargets op.
Proof.
  induction op as [| | |mnemonic nested IH] using Operation_nested_ind; try done.
  simpl. induction IH as [|op nested Hop _ IHnested]; [done |].
  simpl. rewrite fmap_app. by rewrite Hop, IHnested.
Qed.

Lemma updateRWProbe_absorb (name wrapperModuleName : string) (op : Operation) :
  updateRWProbe name (updateRWProbe wrapperModuleName op) = updateRWProbe name op.
Proof.
  induction op as [| | |mnemonic nested IH] using Operation_nested_ind; try done.
  simpl. f_equal. induction IH as [|op nested Hop _ IHnested]; [done |].
  simpl. by rewrite Hop, IHnested.
Qed.

Lemma updateRWProbe_no_rwprobe (wrapperModuleName : string) (op : Operation) :
  rwprobeTargets op = [] → updateRWProbe wrapperModuleName op = op.
Proof.
  induction op as [| | |mnemonic nested IH] using Operation_nested_ind; try done.
  simpl. intros Hnone. f_equal.
  induction IH as [|op nested Hop _ IHnested]; [done |].
  simpl in Hnone. apply app_eq_nil in Hnone as [Hhere Hthere].
  simpl. by rewrite Hop, IHnested.
Qed.

Lemma rwprobeTargets_body (wrapperModuleName : string) (body : list Operation) :
  concat (map rwprobeTargets (map (updateRWProbe wrapperModuleName) body))
  = (λ target, (wrapperModuleName, target.2)) <$> concat (map rwprobeTargets body).
Proof.
  induction body as [|op body IH]; [done |].
  cbn [map concat]. by rewrite fmap_app, rwprobeTargets_updateRWProbe, IH.
Qed.

Lemma updateRWProbe_absorb_body (name wrapperModuleName : string)
    (body : list Operation) :
  map (updateRWProbe name) (map (updateRWProbe wrapperModuleName) body)
  = map (updateRWProbe name) body.
Proof.
  induction body as [|op body IH]; [done |].
  cbn [map]. by rewrite updateRWProbe_absorb, IH.
Qed.

Lemma updateRWProbe_no_rwprobe_body (wrapperModuleName : string)
    (body : list Operation) :
  concat (map rwprobeTargets body) = [] →
  map (updateRWProbe wrapperModuleName) body = body.
Proof.
  induction body as [|op body IH]; [done |].
  cbn [map concat]. intros Hnone. apply app_eq_nil in Hnone as [Hhere Hthere].
  by rewrite updateRWProbe_no_rwprobe, IH.
Qed.

(* ================================================================== *)
(** * The properties of the pass *)
(* ================================================================== *)

Section Properties.
Context (allocate : gset string → string → string).

(** Claim C1.  After a successful run the new shell carries the old DUT's
    name and port interface, its body is the wrapper instance followed by
    one connection per port, in port order, and the connection of port [i]
    joins the shell's port [i] with result [i] of the instance: an input
    port of the shell drives the instance, the instance drives an output
    port of the shell.  The wrapper, which the instance names, has the same
    port interface and holds the old DUT's body. *)
Theorem C1_pass_through_wiring (circuit : CircuitOp) (run : PassRun) :
  runOnOperation allocate circuit = Some run → status run = PassSuccess →
  ∃ before oldDut after wrapper shell wrapperInst connects,
    getDut (circ_modules circuit) = Some (before, oldDut, after)
    ∧ circ_modules (result run) = before ++ wrapper :: shell :: after
    ∧ mod_name shell = mod_name oldDut
    ∧ portSignature <$> mod_ports shell = portSignature <$> mod_ports oldDut
    ∧ portSignature <$> mod_ports wrapper = portSignature <$> mod_ports oldDut
    ∧ mod_body wrapper = map (updateRWProbe (mod_name wrapper)) (mod_body oldDut)
    ∧ mod_body shell = OpInstance wrapperInst :: connects
    ∧ inst_module wrapperInst = mod_name wrapper
    ∧ inst_num_results wrapperInst = length (mod_ports shell)
    ∧ length connects = length (mod_ports shell)
    ∧ ∀ i p, mod_ports shell !! i = Some p →
             connects !! i = Some (passThrough (inst_name wrapperInst) i p).
Proof.
  intros Hrun Hstatus.
  destruct (success_anatomy allocate circuit run Hrun Hstatus)
    as (hint & before & oldDut & after & paths & ns & rn
        & _ & Hdut & _ & Hmods & _).
  set (mv := moveDut (readDirectives (circ_annotations circuit))) in *.
  destruct (splitWrapper_fields allocate circuit hint mv oldDut)
    as (Hwn & Hwp & _ & Hwb & _).
  destruct (splitShell_fields allocate circuit hint mv oldDut)
    as (Hsn & Hsp & _).
  eexists before, oldDut, after, _, _,
    (builtInstance allocate circuit hint mv oldDut),
    (imap (passThrough (mod_name (splitWrapper allocate circuit hint mv oldDut)))
          (mod_ports oldDut)).
  split; [done |]. split; [exact Hmods |]. simpl.
  split; [done |].
  split. { rewrite Hsp, <- list_fmap_compose. by apply list_fmap_ext. }
  split. { rewrite Hwp, <- list_fmap_compose. by apply list_fmap_ext. }
  split; [by rewrite Hwb |].
  split; [by rewrite Hsp |].
  split; [done |].
  rewrite Hsp, Hwp, !length_fmap, length_imap.
  split; [done |]. split; [done |].
  intros i p Hp. apply list_lookup_fmap_Some in Hp as (p0 & -> & Hp0).
  rewrite list_lookup_imap, Hp0. simpl. by unfold passThrough.
Qed.

(** Claim C2, amended.  After a successful run, a path that touches the
    old DUT, is not rooted at it and does not end at one of its ports has
    exactly one more locator than before.  The new locator, an instance
    locator for the wrapper instance, owned by the new shell, stands where
    the locator naming the old DUT stood; that locator follows it at once,
    pointed at the wrapper's name with its inner symbol kept; the locators
    in front and behind are unchanged. *)
Theorem C2_extra_level_in_front (circuit : CircuitOp) (run : PassRun)
    (before : list FModuleOp) (oldDut : FModuleOp) (after : list FModuleOp)
    (nla : HierPathOp) :
  runOnOperation allocate circuit = Some run → status run = PassSuccess →
  getDut (circ_modules circuit) = Some (before, oldDut, after) →
  nla ∈ circ_paths circuit →
  pathTouches (mod_name oldDut) nla = true →
  HierPath.root nla ≠ Some (mod_name oldDut) →
  ¬ endsAtPortOf oldDut nla →
  ∃ wrapper shell wrapperInst connects front at_dut back,
    circ_modules (result run) = before ++ wrapper :: shell :: after
    ∧ mod_name shell = mod_name oldDut
    ∧ mod_body shell = OpInstance wrapperInst :: connects
    ∧ inst_module wrapperInst = mod_name wrapper
    ∧ splitsAt (mod_name oldDut) (namepath nla) front at_dut back
    ∧ mkHierPath (sym_name nla)
        (front
         ++ [InnerRefAttr (mod_name shell) (inst_inner_sym wrapperInst);
             retargetLocator (mod_name wrapper) at_dut]
         ++ back) ∈ circ_paths (result run)
    ∧ length (front
              ++ [InnerRefAttr (mod_name shell) (inst_inner_sym wrapperInst);
                  retargetLocator (mod_name wrapper) at_dut]
              ++ back) = S (length (namepath nla)).
Proof.
  intros Hrun Hstatus Hdut Hin Htouch Hroot Hport.
  destruct (success_anatomy allocate circuit run Hrun Hstatus)
    as (hint & before' & oldDut' & after' & paths & ns & rn
        & _ & Hdut' & Hloop & Hmods & Hpaths & _).
  rewrite Hdut in Hdut'. symmetry in Hdut'. simplify_eq.
  set (mv := moveDut (readDirectives (circ_annotations circuit))) in *.
  destruct (wiredShell_fields allocate circuit hint mv oldDut) as (Hsn & Hsp & _).
  pose proof (processNLAs_elem allocate _ _ _ _ _ _ _ _ _ _ _ nla Hloop Hin) as Helem.
  rewrite Hsn, Htouch in Helem.
  destruct Helem as (ns0 & rn0 & image & ns1 & rn1 & Hone & Himage).
  pose proof Htouch as Hsplit. apply bool_decide_eq_true in Hsplit.
  apply splitsAt_exists in Hsplit as (front & at_dut & back & Hsplit).
  pose proof Hsplit as Hadd. rewrite <- Hsn in Hadd.
  apply (addHierarchy_splitsAt nla (wiredShell allocate circuit hint mv oldDut)
           (builtInstance allocate circuit hint mv oldDut)) in Hadd.
  assert (¬ (HierPath.leafMod nla
               = Some (mod_name (wiredShell allocate circuit hint mv oldDut))
             ∧ ∃ sym, HierPath.ref nla = Some sym
                      ∧ sym ∈ collectDutPortSyms
                                (wiredShell allocate circuit hint mv oldDut)))
    as Hport'.
  { rewrite Hsn. intros (Hleaf & sym & Href & Hsym). apply Hport.
    split; [done |]. exists sym. split; [done |].
    apply collectDutPortSyms_elem in Hsym. by rewrite Hsp in Hsym. }
  rewrite <- Hsn in Hroot.
  destruct (processNLA_extend allocate
              (splitWrapper allocate circuit hint mv oldDut) _ _
              (collectDutPaths (wiredShell allocate circuit hint mv oldDut))
              _ ns0 rn0 nla _ Hroot Hport' Hadd)
    as (clones & ns2 & rn2 & Hone').
  rewrite Hone' in Hone. injection Hone as <- _ _.
  eexists _, _, (builtInstance allocate circuit hint mv oldDut), _, front, at_dut, back.
  split; [exact Hmods |]. split; [exact Hsn |]. split; [done |].
  split; [done |]. split; [done |].
  split.
  - apply Himage. apply elem_of_app. right.
    apply list_elem_of_singleton. reflexivity.
  - destruct Hsplit as (-> & _). rewrite !length_app. simpl. lia.
Qed.

Section CloneIsolation.
Hypothesis allocate_fresh : ∀ used hint, allocate used hint ∉ used.

(** The symbols of the hierarchical paths stay distinct through a run: a
    rewritten path keeps its symbol and a clone is given an unused one.  So
    the path that carries a given symbol after the run is determined. *)
Theorem path_symbols_stay_distinct (circuit : CircuitOp) (run : PassRun) :
  runOnOperation allocate circuit = Some run → status run = PassSuccess →
  NoDup (sym_name <$> circ_paths circuit) →
  NoDup (sym_name <$> circ_paths (result run)).
Proof.
  intros Hrun Hstatus Hnodup.
  destruct (success_anatomy allocate circuit run Hrun Hstatus)
    as (hint & before & oldDut & after & paths & ns & rn
        & _ & _ & Hloop & _ & Hpaths & _).
  rewrite Hpaths.
  destruct (processNLAs_symbols allocate _ _ _ _ _ allocate_fresh
              _ _ _ _ _ _ Hloop Hnodup) as [Hdistinct _]; [| done].
  intros p Hp. apply elem_of_union_r. unfold CircuitNamespace.
  apply elem_of_union_r, elem_of_list_to_set. by apply list_elem_of_fmap_2.
Qed.

(** Claim C3, amended.  After a successful run on a circuit whose paths
    have distinct symbols, take a module path that ends at the old DUT,
    visits no module twice, and whose symbol is referenced by an
    annotation that the new shell holds: a module annotation of the old
    DUT, other than the DUT marker when [moveDut] is true, or an
    annotation of one of its ports.  Then the path has a clone with a
    fresh symbol and the locators of the original; the original has
    received the extra level of hierarchy; every annotation of the shell
    or of its ports that referenced the original symbol references the
    clone's symbol instead; and no annotation on the shell or its ports
    references the symbol of the rewritten original any more. *)
Theorem C3_clone_isolation (circuit : CircuitOp) (run : PassRun)
    (before : list FModuleOp) (oldDut : FModuleOp) (after : list FModuleOp)
    (nla : HierPathOp) (user : Annotation) :
  runOnOperation allocate circuit = Some run → status run = PassSuccess →
  getDut (circ_modules circuit) = Some (before, oldDut, after) →
  NoDup (sym_name <$> circ_paths circuit) →
  nla ∈ circ_paths circuit →
  NoDup (getModule <$> namepath nla) →
  HierPath.leafMod nla = Some (mod_name oldDut) → HierPath.isModule nla = true →
  nonlocalSymbol user = Some (sym_name nla) →
  heldByShell (moveDut (readDirectives (circ_annotations circuit))) oldDut user →
  ∃ wrapper shell wrapperInst connects front cloneSym,
    circ_modules (result run) = before ++ wrapper :: shell :: after
    ∧ mod_name shell = mod_name oldDut
    ∧ mod_body shell = OpInstance wrapperInst :: connects
    ∧ inst_module wrapperInst = mod_name wrapper
    ∧ cloneSym ≠ sym_name nla
    ∧ (cloneSym ∉ CircuitNamespace circuit)
    ∧ mkHierPath cloneSym (namepath nla) ∈ circ_paths (result run)
    ∧ namepath nla = front ++ [FlatSymbolRefAttr (mod_name oldDut)]
    ∧ mkHierPath (sym_name nla)
        (front ++ [InnerRefAttr (mod_name shell) (inst_inner_sym wrapperInst);
                   FlatSymbolRefAttr (mod_name wrapper)])
      ∈ circ_paths (result run)
    ∧ (∀ anno, anno ∈ mod_annotations oldDut →
         (moveDut (readDirectives (circ_annotations circuit)) = true →
          isClass dutAnnoClass anno = false) →
         nonlocalSymbol anno = Some (sym_name nla) →
         setMember "circt.nonlocal" (ASymbolRef cloneSym) anno
           ∈ mod_annotations shell)
    ∧ (∀ i p anno, mod_ports oldDut !! i = Some p → anno ∈ port_annotations p →
         nonlocalSymbol anno = Some (sym_name nla) →
         ∃ p', mod_ports shell !! i = Some p'
           ∧ setMember "circt.nonlocal" (ASymbolRef cloneSym) anno
               ∈ port_annotations p')
    ∧ (∀ anno, anno ∈ mod_annotations shell →
         nonlocalSymbol anno ≠ Some (sym_name nla))
    ∧ (∀ p anno, p ∈ mod_ports shell → anno ∈ port_annotations p →
         nonlocalSymbol anno ≠ Some (sym_name nla)).
Proof.
  intros Hrun Hstatus Hdut Hsyms Hin Hacyclic Hleaf Hmodule Huser Hheld.
  destruct (success_anatomy allocate circuit run Hrun Hstatus)
    as (hint & before' & oldDut' & after' & paths & ns & rn
        & _ & Hdut' & Hloop & Hmods & Hpaths & _).
  rewrite Hdut in Hdut'. symmetry in Hdut'. simplify_eq.
  set (mv := moveDut (readDirectives (circ_annotations circuit))) in *.
  set (wrapper := splitWrapper allocate circuit hint mv oldDut) in *.
  set (shell := wiredShell allocate circuit hint mv oldDut) in *.
  set (wrapperInst := builtInstance allocate circuit hint mv oldDut) in *.
  destruct (wiredShell_fields allocate circuit hint mv oldDut)
    as (Hsn & Hsp & Hsa). fold shell in Hsn, Hsp, Hsa.
  apply bool_decide_eq_true in Hmodule. rename Hmodule into Href.
  (* the path is not rooted at the DUT *)
  assert (HierPath.root nla ≠ Some (mod_name shell)) as Hroot.
  { rewrite Hsn. intros Hroot.
    apply (acyclic_root_leaf nla (mod_name oldDut)); [done | done | done |].
    assert (is_Some (processNLAs allocate wrapper shell wrapperInst
                       (collectDutPaths shell) (collectDutPortSyms shell)
                       ({[mod_name wrapper]} ∪ CircuitNamespace circuit) ∅
                       (circ_paths circuit))) as Hsome by (by eexists).
    pose proof (proj1 (processNLAs_is_Some allocate _ _ _ _ _ _ _ _) Hsome) as Hall.
    apply Hall; [done |]. by rewrite Hsn. }
  (* its symbol is among those the shell's annotations use *)
  assert (sym_name nla ∈ collectDutPaths shell) as Hused.
  { apply collectDutPaths_elem. exists user. split; [done |].
    rewrite Hsp, Hsa. destruct Hheld as [[Hanno Hmarker] | Hport]; [left | by right].
    destruct mv; [| done]. apply list_elem_of_filter. split; [by apply Hmarker | done]. }
  destruct (module_leaf_splitsAt nla (mod_name oldDut) Hacyclic Hleaf Href)
    as [front Hsplit].
  pose proof Hsplit as Hadd. rewrite <- Hsn in Hadd.
  apply (addHierarchy_splitsAt nla shell wrapperInst) in Hadd.
  rewrite app_nil_r in Hadd.
  rewrite <- Hsn in Hleaf.
  destruct (processNLAs_clone allocate wrapper shell wrapperInst
              (collectDutPaths shell) (collectDutPortSyms shell)
              _ _ _ _ _ _ nla _ Hloop Hsyms Hin (lookup_empty _)
              Hroot Hleaf Href Hused Hadd)
    as (ns0 & Hsub & Hclone & Hext & Hmap).
  set (cloneSym := allocate ns0 (sym_name nla)) in *.
  assert (sym_name nla ∈ CircuitNamespace circuit) as Hknown.
  { unfold CircuitNamespace. apply elem_of_union. right.
    apply elem_of_list_to_set. by apply list_elem_of_fmap_2. }
  assert (CircuitNamespace circuit ⊆ ns0) as Hsub'.
  { etrans; [| exact Hsub]. apply union_subseteq_r. }
  assert (cloneSym ∉ CircuitNamespace circuit) as Hfresh.
  { intros Hbad. apply (allocate_fresh ns0 (sym_name nla)). by apply Hsub'. }
  (* no clone carries the symbol of the original *)
  assert (∀ key clone, rn !! key = Some clone → sym_name clone ≠ sym_name nla)
    as Hclones.
  { intros key clone Hkey.
    destruct (processNLAs_mono allocate _ _ _ _ _ _ _ _ _ _ _ Hloop) as (_ & _ & Hnew).
    destruct (Hnew key clone Hkey) as [Hempty | (q & ns1 & _ & Hsub1 & _ & ->)].
    { by rewrite lookup_empty in Hempty. }
    simpl. intros Heq.
    apply (allocate_fresh ns1 (sym_name q)). rewrite Heq.
    apply Hsub1, union_subseteq_r, Hknown. }
  assert (∀ annos anno, anno ∈ replaceAnnotations rn annos →
            nonlocalSymbol anno ≠ Some (sym_name nla)) as Hisolated.
  { intros annos anno Hanno Hsym.
    apply replaceAnnotations_elem in Hanno as [[_ Hkept] | (anno0 & _ & Hnew)].
    - apply removeAndUpdateNLAs_None in Hkept. rewrite Hsym in Hkept. congruence.
    - apply removeAndUpdateNLAs_Some in Hnew as (sym & clone & _ & Hkey & ->).
      rewrite nonlocalSymbol_setMember in Hsym. injection Hsym as Hsym.
      by apply (Hclones sym clone). }
  assert (∀ annos anno, anno ∈ annos → nonlocalSymbol anno = Some (sym_name nla) →
            setMember "circt.nonlocal" (ASymbolRef cloneSym) anno
              ∈ replaceAnnotations rn annos) as Hmoved.
  { intros annos anno Hanno Hsym. apply replaceAnnotations_elem. right.
    exists anno. split; [done |]. apply removeAndUpdateNLAs_Some.
    by eexists _, _. }
  exists (setBody wrapper (map (updateRWProbe (mod_name wrapper)) (mod_body wrapper))),
    (updateAnnotations rn shell), wrapperInst,
    (imap (passThrough (mod_name wrapper)) (mod_ports (splitShell allocate circuit hint mv oldDut))),
    front, cloneSym.
  split; [exact Hmods |]. split; [exact Hsn |]. split; [done |]. split; [done |].
  split. { intros Heq. apply Hfresh. by rewrite Heq. }
  split; [done |]. split; [exact Hclone |].
  split. { by destruct Hsplit as (-> & _). }
  split. { exact Hext. }
  split.
  { intros anno Hanno Hmarker Hsym.
    change (mod_annotations (updateAnnotations rn shell))
      with (replaceAnnotations rn (mod_annotations shell)).
    apply Hmoved; [| done]. rewrite Hsa.
    destruct mv; [| done]. apply list_elem_of_filter. split; [by apply Hmarker | done]. }
  split.
  { intros i p anno Hp Hanno Hsym.
    change (mod_ports (updateAnnotations rn shell))
      with ((λ p, setPortAnnotations p (replaceAnnotations rn (port_annotations p)))
              <$> mod_ports shell).
    rewrite Hsp, list_lookup_fmap, Hp. simpl. eexists. split; [done |].
    simpl. by apply Hmoved. }
  split.
  { intros anno Hanno. by apply (Hisolated (mod_annotations shell)). }
  intros p anno Hp Hanno.
  change (mod_ports (updateAnnotations rn shell))
    with ((λ p, setPortAnnotations p (replaceAnnotations rn (port_annotations p)))
            <$> mod_ports shell) in Hp.
  apply list_elem_of_fmap in Hp as (p0 & -> & _).
  by apply (Hisolated (port_annotations p0)).
Qed.
End CloneIsolation.

(** Claim C4.  After a successful run, a path whose root locator names the
    old DUT keeps its symbol, its length and every locator but the first;
    the first locator keeps its inner symbol and names the wrapper, which
    is the old DUT under its new name.  Nothing is inserted. *)
Theorem C4_root_path_follows_rename (circuit : CircuitOp) (run : PassRun)
    (before : list FModuleOp) (oldDut : FModuleOp) (after : list FModuleOp)
    (nla : HierPathOp) :
  runOnOperation allocate circuit = Some run → status run = PassSuccess →
  getDut (circ_modules circuit) = Some (before, oldDut, after) →
  nla ∈ circ_paths circuit →
  HierPath.root nla = Some (mod_name oldDut) →
  ∃ wrapper shell frontName tail nla',
    circ_modules (result run) = before ++ wrapper :: shell :: after
    ∧ namepath nla = InnerRefAttr (mod_name oldDut) frontName :: tail
    ∧ nla' ∈ circ_paths (result run)
    ∧ sym_name nla' = sym_name nla
    ∧ namepath nla' = InnerRefAttr (mod_name wrapper) frontName :: tail
    ∧ length (namepath nla') = length (namepath nla).
Proof.
  intros Hrun Hstatus Hdut Hin Hroot.
  destruct (success_anatomy allocate circuit run Hrun Hstatus)
    as (hint & before' & oldDut' & after' & paths & ns & rn
        & _ & Hdut' & Hloop & Hmods & Hpaths & _).
  rewrite Hdut in Hdut'. symmetry in Hdut'. simplify_eq.
  set (mv := moveDut (readDirectives (circ_annotations circuit))) in *.
  destruct (wiredShell_fields allocate circuit hint mv oldDut) as (Hsn & _).
  pose proof (processNLAs_elem allocate _ _ _ _ _ _ _ _ _ _ _ nla Hloop Hin) as Helem.
  rewrite Hsn, (root_touches _ _ Hroot) in Helem.
  destruct Helem as (ns0 & rn0 & image & ns1 & rn1 & Hone & Himage).
  rewrite processNLA_root in Hone by (by rewrite Hsn).
  destruct (namepath nla) as [|[m frontName|m] [|second tail]] eqn:Hnp; try done.
  injection Hone as <- _ _.
  assert (m = mod_name oldDut) as ->.
  { unfold HierPath.root in Hroot. rewrite Hnp in Hroot. simpl in Hroot. congruence. }
  eexists _, _, frontName, (second :: tail), _.
  split; [exact Hmods |]. split; [done |].
  split; [apply Himage; left |].
  simpl. done.
Qed.

(** Claim C5.  After a successful run, a path that ends in a component
    locator for a port of the old DUT is among the paths of the circuit as
    it was: same symbol, same locators.  (A path visits no module twice.) *)
Theorem C5_port_paths_untouched (circuit : CircuitOp) (run : PassRun)
    (before : list FModuleOp) (oldDut : FModuleOp) (after : list FModuleOp)
    (nla : HierPathOp) :
  runOnOperation allocate circuit = Some run → status run = PassSuccess →
  getDut (circ_modules circuit) = Some (before, oldDut, after) →
  nla ∈ circ_paths circuit →
  NoDup (getModule <$> namepath nla) →
  endsAtPortOf oldDut nla →
  nla ∈ circ_paths (result run).
Proof.
  intros Hrun Hstatus Hdut Hin Hnodup (Hleaf & sym & Href & Hsym).
  destruct (success_anatomy allocate circuit run Hrun Hstatus)
    as (hint & before' & oldDut' & after' & paths & ns & rn
        & _ & Hdut' & Hloop & _ & Hpaths & _).
  rewrite Hdut in Hdut'. symmetry in Hdut'. simplify_eq.
  set (mv := moveDut (readDirectives (circ_annotations circuit))) in *.
  destruct (wiredShell_fields allocate circuit hint mv oldDut) as (Hsn & Hsp & _).
  pose proof (processNLAs_elem allocate _ _ _ _ _ _ _ _ _ _ _ nla Hloop Hin) as Helem.
  rewrite Hsn, (leafMod_touches _ _ Hleaf) in Helem.
  destruct Helem as (ns0 & rn0 & image & ns1 & rn1 & Hone & Himage).
  apply Himage.
  destruct (decide (HierPath.root nla = Some (mod_name oldDut))) as [Hroot | Hroot].
  - (* rooted at the DUT and ending at it: the module is visited twice *)
    exfalso. rewrite processNLA_root in Hone by (by rewrite Hsn).
    unfold HierPath.root, HierPath.leafMod in *.
    destruct (namepath nla) as [|[m frontName|m] [|second tail]]; try done.
    simpl in Hroot. injection Hroot as ->.
    rewrite last_cons_cons in Hleaf.
    destruct (last (second :: tail)) as [r|] eqn:Hlast; [| done].
    simpl in Hleaf. injection Hleaf as Hleaf.
    apply last_Some in Hlast as [np Hlast]. rewrite Hlast in Hnodup.
    rewrite fmap_cons in Hnodup. apply NoDup_cons in Hnodup as [Hnotin _].
    apply Hnotin. rewrite fmap_app. apply elem_of_app. right.
    simpl. rewrite Hleaf. left.
  - rewrite (processNLA_port allocate _ _ _ _ _ _ _ _ sym) in Hone.
    + injection Hone as <- _ _. left.
    + by rewrite Hsn.
    + by rewrite Hsn.
    + done.
    + apply collectDutPortSyms_elem. by rewrite Hsp.
Qed.

(** Claim C6.  A design with no configuration directive is left as it is:
    the run ends in [markAllAnalysesPreserved], emits nothing, and the
    circuit (modules, paths, annotations) is the one it was given. *)
Theorem C6_no_directive_is_noop (circuit : CircuitOp) :
  directivesOf (circ_annotations circuit) = [] →
  runOnOperation allocate circuit =
    Some {| status := AllAnalysesPreserved; diagnostics := [];
            result := circuit |}.
Proof.
  intros Hnone. unfold runOnOperation.
  destruct (readDirectives_summary (circ_annotations circuit))
    as (Hwn & Hmal & Hdup & Hmiss & Herr).
  pose proof (occurrences_total (emitted (readDirectives (circ_annotations circuit))))
    as Hlen.
  unfold namedDirectives, namelessDirectives in *. rewrite Hnone in *. simpl in *.
  rewrite Hmal, Hdup, Hmiss in Hlen.
  apply nil_length_inv in Hlen.
  destruct (error (readDirectives (circ_annotations circuit))) eqn:He.
  { destruct Herr as [Herr _]. by specialize (Herr eq_refl). }
  by rewrite Hwn, Hlen.
Qed.

(** Claim C7, amended.  Whenever a directive lacks its name field, or more
    than one directive is present, or a directive is present and no module
    is marked DUT, the run aborts with at least one error and leaves the
    circuit as it was.  The errors are: [MalformedDirective] once per
    directive without a name; [DuplicateDirective] once per named directive
    after the first named one (so a directive without a name does not count
    towards it); and [MissingDUT] exactly when the directives raised no
    error, one of them was accepted, and no module is marked DUT. *)
Theorem C7_errors_abort_unchanged (circuit : CircuitOp) :
  namelessDirectives (circ_annotations circuit) ≠ []
  ∨ 2 ≤ length (directivesOf (circ_annotations circuit))
  ∨ (directivesOf (circ_annotations circuit) ≠ []
     ∧ getDut (circ_modules circuit) = None) →
  ∃ run, runOnOperation allocate circuit = Some run
    ∧ abortedUnchanged circuit run
    ∧ diagnostics run ≠ []
    ∧ occurrences MalformedDirective (diagnostics run) =
        length (namelessDirectives (circ_annotations circuit))
    ∧ occurrences DuplicateDirective (diagnostics run) =
        length (namedDirectives (circ_annotations circuit)) - 1
    ∧ (MissingDUT ∈ diagnostics run ↔
         namelessDirectives (circ_annotations circuit) = []
         ∧ length (namedDirectives (circ_annotations circuit)) = 1
         ∧ getDut (circ_modules circuit) = None).
Proof.
  intros Hcond. unfold runOnOperation, abortedUnchanged.
  destruct (readDirectives_summary (circ_annotations circuit))
    as (Hwn & Hmal & Hdup & Hmiss & Herr).
  pose proof (directives_partition (circ_annotations circuit)) as Hpart.
  pose proof (occurrences_total (emitted (readDirectives (circ_annotations circuit))))
    as Htotal.
  pose proof (namedDirectives_wrapperName (circ_annotations circuit)) as Hsome.
  set (d := readDirectives (circ_annotations circuit)) in *.
  set (named := namedDirectives (circ_annotations circuit)) in *.
  set (nameless := namelessDirectives (circ_annotations circuit)) in *.
  destruct (error d) eqn:He.
  - (* the loop raised an error *)
    destruct Herr as [Herr _]. specialize (Herr eq_refl).
    eexists; split; [done |]; simpl.
    split; [done |]. split; [done |]. split; [done |]. split; [done |].
    rewrite occurrences_elem_of, Hmiss. split; [lia |].
    intros (Hnl & Hn & _). rewrite Hnl, Hn in *. simpl in *.
    destruct (emitted d); [done | simpl in Htotal; lia].
  - (* the loop raised none: a single, named directive *)
    assert (emitted d = []) as Hnil.
    { destruct (decide (emitted d = [])) as [? | Hne]; [done |].
      apply Herr in Hne. congruence. }
    assert (length nameless = 0 ∧ length named - 1 = 0) as [Hnl0 Hn0].
    { rewrite <- Hmal, <- Hdup, Hnil. done. }
    assert (nameless = []) as Hnl by (by apply nil_length_inv).
    assert (length named = 1) as Hone.
    { destruct Hcond as [? | [? | [Hne _]]]; [done | lia |].
      destruct (directivesOf (circ_annotations circuit)); [done | simpl in *; lia]. }
    destruct Hsome as [name Hname].
    { intros Hn. by rewrite Hn in Hone. }
    rewrite Hname.
    assert (getDut (circ_modules circuit) = None) as Hdut.
    { destruct Hcond as [? | [? | [_ ?]]]; [done | lia | done]. }
    rewrite Hdut, Hnil. eexists; split; [done |]; simpl.
    split; [done |]. split; [done |]. split; [by rewrite Hnl |].
    split; [by rewrite Hone |].
    split; [done |]. intros _. apply list_elem_of_singleton. done.
Qed.

(** Claim C8, amended.  After a successful run the wrapper has no port
    annotation and no module annotation but the DUT marker, which it keeps
    exactly when [moveDut] is true; every other module annotation of the
    old DUT is removed from the wrapper.  When [moveDut] is true the marker
    is on the wrapper and not on the new shell; when it is false the marker
    is on the shell and not on the wrapper.  What is removed from the
    wrapper remains on the new shell, which was created with a copy of it:
    as the shell leaves the split its module annotations are those of the
    old DUT (less the DUT marker when [moveDut] is true) and its ports are
    the old DUT's ports, annotations included; at the end of the run they
    are all still there, and nothing else is, up to their order and to the
    [circt.nonlocal] field that the retargeting of lines 315-340 points at
    a cloned path. *)
Theorem C8_wrapper_annotations (circuit : CircuitOp) (run : PassRun) :
  runOnOperation allocate circuit = Some run → status run = PassSuccess →
  ∃ before oldDut after wrapper shell hint (retarget : Annotation → Annotation),
    getDut (circ_modules circuit) = Some (before, oldDut, after)
    ∧ circ_modules (result run) = before ++ wrapper :: shell :: after
    ∧ Forall (λ p, port_annotations p = []) (mod_ports wrapper)
    ∧ mod_annotations wrapper =
        (if moveDut (readDirectives (circ_annotations circuit))
         then filter (λ anno, isClass dutAnnoClass anno = true)
                     (mod_annotations oldDut)
         else [])
    ∧ hasAnnotation dutAnnoClass wrapper =
        moveDut (readDirectives (circ_annotations circuit))
    ∧ hasAnnotation dutAnnoClass shell =
        negb (moveDut (readDirectives (circ_annotations circuit)))
    ∧ wrapperName (readDirectives (circ_annotations circuit)) = Some hint
    ∧ mod_annotations
        (splitShell allocate circuit hint
           (moveDut (readDirectives (circ_annotations circuit))) oldDut)
      = shellAnnotations (moveDut (readDirectives (circ_annotations circuit))) oldDut
    ∧ mod_ports
        (splitShell allocate circuit hint
           (moveDut (readDirectives (circ_annotations circuit))) oldDut)
      = mod_ports oldDut
    ∧ (∀ anno key, key ≠ "circt.nonlocal" →
         dictGet key (retarget anno) = dictGet key anno)
    ∧ (∀ anno, isLocal anno → retarget anno = anno)
    ∧ mod_annotations shell
      ≡ₚ retarget <$> shellAnnotations
                        (moveDut (readDirectives (circ_annotations circuit))) oldDut
    ∧ Forall2 (λ p p', portSignature p' = portSignature p
                       ∧ port_annotations p' ≡ₚ retarget <$> port_annotations p)
        (mod_ports oldDut) (mod_ports shell).
Proof.
  intros Hrun Hstatus.
  destruct (success_anatomy allocate circuit run Hrun Hstatus)
    as (hint & before & oldDut & after & paths & ns & rn
        & Hhint & Hdut & _ & Hmods & _).
  set (mv := moveDut (readDirectives (circ_annotations circuit))) in *.
  destruct (splitWrapper_fields allocate circuit hint mv oldDut)
    as (_ & Hwp & Hwa & _).
  destruct (splitShell_fields allocate circuit hint mv oldDut)
    as (_ & Hs0p & Hs0a & _).
  destruct (wiredShell_fields allocate circuit hint mv oldDut) as (_ & Hsp & Hsa).
  destruct (getDut_spec _ _ _ _ Hdut) as [_ Hmarked].
  eexists before, oldDut, after, _, _, hint, (retargetAnnotation rn).
  split; [done |]. split; [exact Hmods |].
  split.
  { unfold setBody. cbn [mod_ports]. rewrite Hwp.
    apply Forall_fmap, Forall_true. done. }
  split; [exact Hwa |].
  apply bool_decide_eq_true in Hmarked.
  split.
  { unfold hasAnnotation, setBody. cbn [mod_annotations]. rewrite Hwa. destruct mv.
    - apply bool_decide_eq_true. apply Exists_exists in Hmarked as (anno & Hin & Hcls).
      apply Exists_exists. exists anno. split; [| done].
      by apply list_elem_of_filter.
    - apply bool_decide_eq_false. by intros ?%Exists_nil. }
  assert (mod_annotations
            (updateAnnotations rn (wiredShell allocate circuit hint mv oldDut))
          = replaceAnnotations rn (shellAnnotations mv oldDut)) as Hfinal
    by (unfold shellAnnotations; rewrite <- Hsa; reflexivity).
  split.
  { unfold hasAnnotation. rewrite Hfinal. unfold shellAnnotations.
    destruct mv; simpl.
    - apply bool_decide_eq_false. rewrite replaceAnnotations_class, Exists_exists.
      intros (anno & Hin & Hcls). apply list_elem_of_filter in Hin as [Hnot _].
      congruence.
    - apply bool_decide_eq_true. by rewrite replaceAnnotations_class. }
  split; [exact Hhint |]. split; [exact Hs0a |]. split; [exact Hs0p |].
  split; [intros anno key; apply retargetAnnotation_fields |].
  split; [intros anno; apply retargetAnnotation_local |].
  split.
  - rewrite Hfinal. apply replaceAnnotations_Permutation.
  - unfold updateAnnotations, setPorts, setAnnotations. cbn [mod_ports].
    rewrite Hsp.
    apply Forall2_fmap_r, Forall_Forall2_diag, Forall_forall.
    intros p _. split; [done |]. apply replaceAnnotations_Permutation.
Qed.

(** Claim C9.  With a directive accepted and a DUT found, the run reaches
    its end exactly when every path rooted at the DUT has more than one
    locator and an instance locator in front: a run that completes met
    only such paths, and on such paths neither the assertion nor the cast
    of the root case fails.  A path that is the module locator of the DUT
    alone violates the precondition and cuts the run short. *)
Theorem C9_root_case_precondition (circuit : CircuitOp) (hint : string)
    (before : list FModuleOp) (oldDut : FModuleOp) (after : list FModuleOp) :
  error (readDirectives (circ_annotations circuit)) = false →
  wrapperName (readDirectives (circ_annotations circuit)) = Some hint →
  getDut (circ_modules circuit) = Some (before, oldDut, after) →
  (is_Some (runOnOperation allocate circuit) ↔
     ∀ nla, nla ∈ circ_paths circuit →
            HierPath.root nla = Some (mod_name oldDut) → rootPrecondition nla)
  ∧ (∀ sym, HierPath.root (mkHierPath sym [FlatSymbolRefAttr (mod_name oldDut)])
              = Some (mod_name oldDut)
            ∧ ¬ rootPrecondition (mkHierPath sym [FlatSymbolRefAttr (mod_name oldDut)]))
  ∧ (∀ sym, mkHierPath sym [FlatSymbolRefAttr (mod_name oldDut)] ∈ circ_paths circuit →
            runOnOperation allocate circuit = None).
Proof.
  intros Herr Hhint Hdut.
  set (mv := moveDut (readDirectives (circ_annotations circuit))).
  destruct (wiredShell_fields allocate circuit hint mv oldDut) as (Hsn & _).
  assert (is_Some (runOnOperation allocate circuit) ↔
            ∀ nla, nla ∈ circ_paths circuit →
                   HierPath.root nla = Some (mod_name oldDut) → rootPrecondition nla)
    as Hiff.
  { unfold runOnOperation. rewrite Herr, Hhint, Hdut, injectHierarchy_eq.
    fold mv.
    pose proof (processNLAs_is_Some allocate
                  (splitWrapper allocate circuit hint mv oldDut)
                  (wiredShell allocate circuit hint mv oldDut)
                  (builtInstance allocate circuit hint mv oldDut)
                  (collectDutPaths (wiredShell allocate circuit hint mv oldDut))
                  (collectDutPortSyms (wiredShell allocate circuit hint mv oldDut))
                  ({[mod_name (splitWrapper allocate circuit hint mv oldDut)]}
                   ∪ CircuitNamespace circuit) ∅ (circ_paths circuit)) as Hloop.
    rewrite Hsn in Hloop. rewrite <- Hloop. clear Hloop.
    match goal with
    | |- context [processNLAs ?a ?w ?d ?i ?dp ?ps ?ns ?rn ?paths] =>
        destruct (processNLAs a w d i dp ps ns rn paths) as [[[out ns'] rn']|]
    end; simpl.
    - split; intros _; by eexists.
    - split; by intros [? ?]. }
  assert (∀ sym, ¬ rootPrecondition (mkHierPath sym [FlatSymbolRefAttr (mod_name oldDut)]))
    as Hlocal.
  { intros sym [Hlen _]. simpl in Hlen. lia. }
  split; [done |]. split; [by split |].
  intros sym Hin.
  destruct (runOnOperation allocate circuit) eqn:Hrun; [| done].
  exfalso. apply (Hlocal sym). by apply Hiff.
Qed.

(** Claim C10.  [DuplicateDirective] is raised once for each named
    directive met after a name was accepted, hence only if at least two
    directives carry a name; when the first of two directives lacks its
    name and the second is well-formed, the run reports
    [MalformedDirective] alone and aborts; and [moveDut] is read from the
    first named directive only. *)
Theorem C10_duplicate_needs_two_names (circuit : CircuitOp) :
  occurrences DuplicateDirective (emitted (readDirectives (circ_annotations circuit))) =
    length (namedDirectives (circ_annotations circuit)) - 1
  ∧ (DuplicateDirective ∈ emitted (readDirectives (circ_annotations circuit)) ↔
       2 ≤ length (namedDirectives (circ_annotations circuit)))
  ∧ (∀ first second,
       directivesOf (circ_annotations circuit) = [first; second] →
       hasName first = false → hasName second = true →
       runOnOperation allocate circuit =
         Some {| status := PassFailure; diagnostics := [MalformedDirective];
                 result := circuit |})
  ∧ moveDut (readDirectives (circ_annotations circuit)) =
      match head (namedDirectives (circ_annotations circuit)) with
      | Some first => default false (getMemberBool "moveDut" first)
      | None => false
      end.
Proof.
  destruct (readDirectives_summary (circ_annotations circuit))
    as (Hwn & Hmal & Hdup & Hmiss & Herr).
  split; [done |]. split; [rewrite occurrences_elem_of, Hdup; lia |].
  split.
  - intros first second Hdirs Hfirst Hsecond.
    pose proof (occurrences_total (emitted (readDirectives (circ_annotations circuit))))
      as Htotal.
    unfold namedDirectives, namelessDirectives in *. rewrite Hdirs in *.
    rewrite !filter_cons, filter_nil in *.
    rewrite Hfirst, Hsecond in *. simpl in *.
    rewrite Hmal, Hdup, Hmiss in Htotal.
    unfold runOnOperation.
    destruct (emitted (readDirectives (circ_annotations circuit)))
      as [|d [|d' ds]] eqn:Hem; simpl in Htotal; try lia.
    assert (d = MalformedDirective) as ->.
    { destruct d; unfold occurrences in Hdup, Hmiss; simpl in *; done. }
    destruct Herr as [_ Herr]. by rewrite Herr.
  - unfold readDirectives. rewrite readDirectives_moveDut. simpl.
    by destruct (head (namedDirectives (circ_annotations circuit))).
Qed.

End Properties.

(* ================================================================== *)
(** * The properties on the sample circuits *)
(* ================================================================== *)

(** The example in the comment above [addHierarchy]. *)
Example addHierarchy_documented :
  addHierarchy
    (mkHierPath "nla" [InnerRefAttr "Top" "dut"; FlatSymbolRefAttr "DUT"])
    (dutModule [])
    {| inst_name := "wrapper"; inst_module := "Wrapper";
       inst_inner_sym := "wrapper"; inst_num_results := 2 |}
  = Some (mkHierPath "nla" [InnerRefAttr "Top" "dut"; InnerRefAttr "DUT" "wrapper";
                            FlatSymbolRefAttr "Wrapper"]).
Proof. reflexivity. Qed.

(** The paths of the sample circuit after the run: [nla1] is cloned and
    extended, [nla2] ends at a port and stays, [nla3] passes through the DUT
    and is extended, [nla4] is rooted at the DUT and follows the rename, and
    [nla5] does not touch the DUT. *)
Example sample_paths_after_run :
  circ_paths (result sampleRun) =
    [ mkHierPath "nla1________" [InnerRefAttr "Top" "dut"; FlatSymbolRefAttr "DUT"];
      mkHierPath "nla1" [InnerRefAttr "Top" "dut"; InnerRefAttr "DUT" "Wrapper";
                         FlatSymbolRefAttr "Wrapper"];
      mkHierPath "nla2" [InnerRefAttr "Top" "dut"; InnerRefAttr "DUT" "a"];
      mkHierPath "nla3" [InnerRefAttr "Top" "dut"; InnerRefAttr "DUT" "Wrapper";
                         InnerRefAttr "Wrapper" "sub"; FlatSymbolRefAttr "Sub"];
      mkHierPath "nla4" [InnerRefAttr "Wrapper" "sub"; FlatSymbolRefAttr "Sub"];
      mkHierPath "nla5" [InnerRefAttr "Top" "x"; FlatSymbolRefAttr "X"] ].
Proof. reflexivity. Qed.

(** The shell of the sample circuit: public like the old DUT, with its ports
    and annotations (those scoped by [nla1] moved over to the clone), and a
    body that instantiates the wrapper and wires [a] into it and [b] out of
    it. *)
Example sample_shell_after_run :
  circ_modules (result sampleRun) !! 2 =
    Some {| mod_name := "DUT"; mod_visibility := Public; mod_convention := Internal;
            mod_ports :=
              [ {| port_name := "a"; port_type := "uint<1>";
                   direction := Direction.In; port_sym := Some "a";
                   port_annotations := [] |};
                {| port_name := "b"; port_type := "uint<1>";
                   direction := Direction.Out; port_sym := None;
                   port_annotations :=
                     [[("circt.nonlocal", ASymbolRef "nla1________");
                       ("class", AString "foo")]] |} ];
            mod_annotations :=
              [ classAnno dutAnnoClass [];
                classAnno "baz" [];
                [("circt.nonlocal", ASymbolRef "nla1________");
                 ("class", AString "bar")] ];
            mod_body :=
              [ OpInstance {| inst_name := "Wrapper"; inst_module := "Wrapper";
                              inst_inner_sym := "Wrapper"; inst_num_results := 2 |};
                OpConnect (InstanceResult "Wrapper" 0) (BlockArgument 0);
                OpConnect (BlockArgument 1) (InstanceResult "Wrapper" 1) ] |}.
Proof. reflexivity. Qed.

(** The wrapper of the sample circuit: private, without annotations, with
    the old body and its [rwprobe]s pointed at the new name. *)
Example sample_wrapper_after_run :
  circ_modules (result sampleRun) !! 1 =
    Some {| mod_name := "Wrapper"; mod_visibility := Private;
            mod_convention := Internal;
            mod_ports :=
              [ {| port_name := "a"; port_type := "uint<1>";
                   direction := Direction.In; port_sym := Some "a";
                   port_annotations := [] |};
                {| port_name := "b"; port_type := "uint<1>";
                   direction := Direction.Out; port_sym := None;
                   port_annotations := [] |} ];
            mod_annotations := [];
            mod_body := [ OpRWProbe "Wrapper" "x";
                          OpOther "firrtl.when" [OpRWProbe "Wrapper" "y"] ] |}.
Proof. reflexivity. Qed.

(** In [moveDut] mode the shell is private and holds no marker, and the
    wrapper keeps the old visibility and the marker alone. *)
Example moveDut_markers_after_run :
  (λ m, (mod_name m, mod_visibility m, mod_annotations m))
    <$> circ_modules (result sampleRunMoveDut) =
    [ ("Top", Public, []);
      ("Wrapper", Public, [classAnno dutAnnoClass []]);
      ("DUT", Private,
       [ classAnno "baz" [];
         [("circt.nonlocal", ASymbolRef "nla1________"); ("class", AString "bar")] ]) ].
Proof. reflexivity. Qed.

Example two_directives_abort :
  runOnOperation padAllocate twoDirectives =
    Some {| status := PassFailure; diagnostics := [DuplicateDirective];
            result := twoDirectives |}.
Proof. vm_compute. reflexivity. Qed.

Example missing_dut_aborts :
  runOnOperation padAllocate noDutCircuit =
    Some {| status := PassFailure; diagnostics := [MissingDUT];
            result := noDutCircuit |}.
Proof. vm_compute. reflexivity. Qed.

Ltac by_computation := apply (bool_decide_unpack _); vm_compute; exact I.

Lemma sampleRun_eq : runOnOperation padAllocate sampleCircuit = Some sampleRun.
Proof. vm_compute. reflexivity. Qed.

Lemma sampleRunMoveDut_eq :
  runOnOperation padAllocate sampleCircuitMoveDut = Some sampleRunMoveDut.
Proof. vm_compute. reflexivity. Qed.

Lemma markerScopedRun_eq :
  runOnOperation padAllocate markerScopedCircuit = Some markerScopedRun.
Proof. vm_compute. reflexivity. Qed.

Lemma C1_witness :
  ∃ before oldDut after wrapper shell wrapperInst connects,
    getDut (circ_modules sampleCircuit) = Some (before, oldDut, after)
    ∧ circ_modules (result sampleRun) = before ++ wrapper :: shell :: after
    ∧ mod_name shell = mod_name oldDut
    ∧ portSignature <$> mod_ports shell = portSignature <$> mod_ports oldDut
    ∧ portSignature <$> mod_ports wrapper = portSignature <$> mod_ports oldDut
    ∧ mod_body wrapper = map (updateRWProbe (mod_name wrapper)) (mod_body oldDut)
    ∧ mod_body shell = OpInstance wrapperInst :: connects
    ∧ inst_module wrapperInst = mod_name wrapper
    ∧ inst_num_results wrapperInst = length (mod_ports shell)
    ∧ length connects = length (mod_ports shell)
    ∧ ∀ i p, mod_ports shell !! i = Some p →
             connects !! i = Some (passThrough (inst_name wrapperInst) i p).
Proof.
  apply (C1_pass_through_wiring padAllocate sampleCircuit sampleRun).
  - vm_compute. reflexivity.
  - reflexivity.
Defined.

(** Claim C2 as worded fails on the path [@Top::@dut, @DUT]: the run turns it
    into [@Top::@dut, @DUT::@Wrapper, @Wrapper], with the new locator in front
    of the locator that named the DUT, not behind it. *)
Lemma C2_counterexample : ¬ C2_as_stated padAllocate sampleCircuit.
Proof.
  intros Hclaim.
  destruct (Hclaim sampleRun [topModule] (dutModule sampleDutAnnos) []
              (mkHierPath "nla1" [InnerRefAttr "Top" "dut"; FlatSymbolRefAttr "DUT"])
              [InnerRefAttr "Top" "dut"] (FlatSymbolRefAttr "DUT") [])
    as (sym & at_dut' & _ & Hin).
  - exact sampleRun_eq.
  - reflexivity.
  - vm_compute. reflexivity.
  - by_computation.
  - split; [reflexivity |]. split; [| reflexivity].
    apply Forall_singleton. vm_compute. discriminate.
  - vm_compute. discriminate.
  - intros (_ & s & Href & _). vm_compute in Href. discriminate.
  - unfold sampleRun in Hin. simpl in Hin. rewrite !elem_of_cons in Hin.
    destruct Hin as [Heq | [Heq | [Heq | [Heq | [Heq | [Heq | Hnil]]]]]];
      try discriminate Heq.
    by apply elem_of_nil in Hnil.
Qed.

Lemma C2_witness :
  ∃ wrapper shell wrapperInst connects front at_dut back,
    circ_modules (result sampleRun) = [topModule] ++ wrapper :: shell :: []
    ∧ mod_name shell = "DUT"
    ∧ mod_body shell = OpInstance wrapperInst :: connects
    ∧ inst_module wrapperInst = mod_name wrapper
    ∧ splitsAt "DUT"
        [InnerRefAttr "Top" "dut"; InnerRefAttr "DUT" "sub"; FlatSymbolRefAttr "Sub"]
        front at_dut back
    ∧ mkHierPath "nla3"
        (front
         ++ [InnerRefAttr (mod_name shell) (inst_inner_sym wrapperInst);
             retargetLocator (mod_name wrapper) at_dut]
         ++ back) ∈ circ_paths (result sampleRun)
    ∧ length (front
              ++ [InnerRefAttr (mod_name shell) (inst_inner_sym wrapperInst);
                  retargetLocator (mod_name wrapper) at_dut]
              ++ back) = 4.
Proof.
  apply (C2_extra_level_in_front padAllocate sampleCircuit sampleRun
           [topModule] (dutModule sampleDutAnnos) []
           (mkHierPath "nla3" [InnerRefAttr "Top" "dut"; InnerRefAttr "DUT" "sub";
                               FlatSymbolRefAttr "Sub"])).
  - vm_compute. reflexivity.
  - reflexivity.
  - vm_compute. reflexivity.
  - by_computation.
  - vm_compute. reflexivity.
  - vm_compute. discriminate.
  - intros (Hleaf & _). vm_compute in Hleaf. discriminate.
Defined.

(** Claim C3 as worded fails in [moveDut] mode when the annotation that uses
    the path is the DUT marker: the marker is taken off the shell before the
    paths are classified, so the path is extended but not cloned, and the
    marker, now on the wrapper alone, still references the original symbol. *)
Lemma C3_counterexample : ¬ C3_as_stated padAllocate markerScopedCircuit.
Proof.
  intros Hclaim.
  destruct (Hclaim markerScopedRun [topModule]
              {| mod_name := "DUT"; mod_visibility := Public;
                 mod_convention := Internal; mod_ports := [];
                 mod_annotations :=
                   [[("circt.nonlocal", ASymbolRef "nla1");
                     ("class", AString dutAnnoClass)]];
                 mod_body := [] |} []
              (mkHierPath "nla1" [InnerRefAttr "Top" "dut"; FlatSymbolRefAttr "DUT"])
              [("circt.nonlocal", ASymbolRef "nla1"); ("class", AString dutAnnoClass)])
    as (cloneSym & Hne & Hin).
  - exact markerScopedRun_eq.
  - reflexivity.
  - vm_compute. reflexivity.
  - by_computation.
  - vm_compute. reflexivity.
  - vm_compute. reflexivity.
  - vm_compute. reflexivity.
  - left. by_computation.
  - unfold markerScopedRun in Hin. simpl in Hin. rewrite !elem_of_cons in Hin.
    destruct Hin as [Heq | Hnil]; [discriminate Heq |].
    by apply elem_of_nil in Hnil.
Qed.

Lemma C3_witness :
  ∃ wrapper shell wrapperInst connects front cloneSym,
    circ_modules (result sampleRun) = [topModule] ++ wrapper :: shell :: []
    ∧ mod_name shell = "DUT"
    ∧ mod_body shell = OpInstance wrapperInst :: connects
    ∧ inst_module wrapperInst = mod_name wrapper
    ∧ cloneSym ≠ "nla1"
    ∧ (cloneSym ∉ CircuitNamespace sampleCircuit)
    ∧ mkHierPath cloneSym [InnerRefAttr "Top" "dut"; FlatSymbolRefAttr "DUT"]
        ∈ circ_paths (result sampleRun)
    ∧ [InnerRefAttr "Top" "dut"; FlatSymbolRefAttr "DUT"]
        = front ++ [FlatSymbolRefAttr "DUT"]
    ∧ mkHierPath "nla1"
        (front ++ [InnerRefAttr (mod_name shell) (inst_inner_sym wrapperInst);
                   FlatSymbolRefAttr (mod_name wrapper)])
      ∈ circ_paths (result sampleRun)
    ∧ (∀ anno, anno ∈ sampleDutAnnos →
         (moveDut (readDirectives (circ_annotations sampleCircuit)) = true →
          isClass dutAnnoClass anno = false) →
         nonlocalSymbol anno = Some "nla1" →
         setMember "circt.nonlocal" (ASymbolRef cloneSym) anno
           ∈ mod_annotations shell)
    ∧ (∀ i p anno, mod_ports (dutModule sampleDutAnnos) !! i = Some p →
         anno ∈ port_annotations p →
         nonlocalSymbol anno = Some "nla1" →
         ∃ p', mod_ports shell !! i = Some p'
           ∧ setMember "circt.nonlocal" (ASymbolRef cloneSym) anno
               ∈ port_annotations p')
    ∧ (∀ anno, anno ∈ mod_annotations shell → nonlocalSymbol anno ≠ Some "nla1")
    ∧ (∀ p anno, p ∈ mod_ports shell → anno ∈ port_annotations p →
         nonlocalSymbol anno ≠ Some "nla1").
Proof.
  apply (C3_clone_isolation padAllocate padAllocate_fresh sampleCircuit sampleRun
           [topModule] (dutModule sampleDutAnnos) []
           (mkHierPath "nla1" [InnerRefAttr "Top" "dut"; FlatSymbolRefAttr "DUT"])
           sampleUser).
  - vm_compute. reflexivity.
  - reflexivity.
  - vm_compute. reflexivity.
  - by_computation.
  - by_computation.
  - by_computation.
  - vm_compute. reflexivity.
  - vm_compute. reflexivity.
  - vm_compute. reflexivity.
  - left. split; [by_computation |]. intros Hmove. vm_compute in Hmove. discriminate.
Defined.

Lemma C4_witness :
  ∃ wrapper shell frontName tail nla',
    circ_modules (result sampleRun) = [topModule] ++ wrapper :: shell :: []
    ∧ [InnerRefAttr "DUT" "sub"; FlatSymbolRefAttr "Sub"]
        = InnerRefAttr "DUT" frontName :: tail
    ∧ nla' ∈ circ_paths (result sampleRun)
    ∧ sym_name nla' = "nla4"
    ∧ namepath nla' = InnerRefAttr (mod_name wrapper) frontName :: tail
    ∧ length (namepath nla') = 2.
Proof.
  apply (C4_root_path_follows_rename padAllocate sampleCircuit sampleRun
           [topModule] (dutModule sampleDutAnnos) []
           (mkHierPath "nla4" [InnerRefAttr "DUT" "sub"; FlatSymbolRefAttr "Sub"])).
  - vm_compute. reflexivity.
  - reflexivity.
  - vm_compute. reflexivity.
  - by_computation.
  - vm_compute. reflexivity.
Defined.

Lemma C5_witness :
  mkHierPath "nla2" [InnerRefAttr "Top" "dut"; InnerRefAttr "DUT" "a"]
    ∈ circ_paths (result sampleRun).
Proof.
  apply (C5_port_paths_untouched padAllocate sampleCircuit sampleRun
           [topModule] (dutModule sampleDutAnnos) []).
  - vm_compute. reflexivity.
  - reflexivity.
  - vm_compute. reflexivity.
  - by_computation.
  - by_computation.
  - split; [vm_compute; reflexivity |]. exists "a".
    split; [vm_compute; reflexivity | by_computation].
Defined.

Lemma C6_witness :
  runOnOperation padAllocate sampleCircuitNoDirective =
    Some {| status := AllAnalysesPreserved; diagnostics := [];
            result := sampleCircuitNoDirective |}.
Proof. apply (C6_no_directive_is_noop padAllocate sampleCircuitNoDirective). reflexivity. Defined.

(** Claim C7 as worded fails when a directive without a name precedes a
    well-formed one: two directives are present, yet only
    [MalformedDirective] is reported. *)
Lemma C7_counterexample : ¬ C7_as_stated padAllocate malformedThenValid.
Proof.
  intros Hclaim.
  destruct (Hclaim _ eq_refl) as (_ & Hdup & _).
  destruct Hdup as [Hin _]; [vm_compute; lia |].
  vm_compute in Hin.
  apply list_elem_of_singleton in Hin. discriminate.
Qed.

Lemma C7_witness :
  ∃ run, runOnOperation padAllocate twoDirectives = Some run
    ∧ abortedUnchanged twoDirectives run
    ∧ diagnostics run ≠ []
    ∧ occurrences MalformedDirective (diagnostics run) =
        length (namelessDirectives (circ_annotations twoDirectives))
    ∧ occurrences DuplicateDirective (diagnostics run) =
        length (namedDirectives (circ_annotations twoDirectives)) - 1
    ∧ (MissingDUT ∈ diagnostics run ↔
         namelessDirectives (circ_annotations twoDirectives) = []
         ∧ length (namedDirectives (circ_annotations twoDirectives)) = 1
         ∧ getDut (circ_modules twoDirectives) = None).
Proof.
  apply (C7_errors_abort_unchanged padAllocate twoDirectives).
  right; left. vm_compute. lia.
Defined.

(** Claim C8 as worded fails on an old DUT with an annotation other than the
    marker: the annotation stays on the shell and is stripped off the
    wrapper. *)
Lemma C8_counterexample : ¬ C8_as_stated padAllocate sampleCircuit.
Proof.
  intros Hclaim.
  destruct (Hclaim sampleRun [topModule] (dutModule sampleDutAnnos) [])
    as (wrapper & shell & Hmods & Hkept).
  - exact sampleRun_eq.
  - reflexivity.
  - vm_compute. reflexivity.
  - unfold sampleRun in Hmods. simpl in Hmods. simplify_eq.
    specialize (Hkept (classAnno "baz" [])). simpl in Hkept.
    apply (elem_of_nil (classAnno "baz" [])). apply Hkept.
    + by_computation.
    + vm_compute. reflexivity.
Qed.

Lemma C8_witness :
  ∃ before oldDut after wrapper shell hint (retarget : Annotation → Annotation),
    getDut (circ_modules sampleCircuitMoveDut) = Some (before, oldDut, after)
    ∧ circ_modules (result sampleRunMoveDut) = before ++ wrapper :: shell :: after
    ∧ Forall (λ p, port_annotations p = []) (mod_ports wrapper)
    ∧ mod_annotations wrapper =
        (if moveDut (readDirectives (circ_annotations sampleCircuitMoveDut))
         then filter (λ anno, isClass dutAnnoClass anno = true)
                     (mod_annotations oldDut)
         else [])
    ∧ hasAnnotation dutAnnoClass wrapper =
        moveDut (readDirectives (circ_annotations sampleCircuitMoveDut))
    ∧ hasAnnotation dutAnnoClass shell =
        negb (moveDut (readDirectives (circ_annotations sampleCircuitMoveDut)))
    ∧ wrapperName (readDirectives (circ_annotations sampleCircuitMoveDut)) = Some hint
    ∧ mod_annotations
        (splitShell padAllocate sampleCircuitMoveDut hint
           (moveDut (readDirectives (circ_annotations sampleCircuitMoveDut))) oldDut)
      = shellAnnotations
          (moveDut (readDirectives (circ_annotations sampleCircuitMoveDut))) oldDut
    ∧ mod_ports
        (splitShell padAllocate sampleCircuitMoveDut hint
           (moveDut (readDirectives (circ_annotations sampleCircuitMoveDut))) oldDut)
      = mod_ports oldDut
    ∧ (∀ anno key, key ≠ "circt.nonlocal" →
         dictGet key (retarget anno) = dictGet key anno)
    ∧ (∀ anno, isLocal anno → retarget anno = anno)
    ∧ mod_annotations shell
      ≡ₚ retarget <$> shellAnnotations
                        (moveDut (readDirectives
                                    (circ_annotations sampleCircuitMoveDut))) oldDut
    ∧ Forall2 (λ p p', portSignature p' = portSignature p
                       ∧ port_annotations p' ≡ₚ retarget <$> port_annotations p)
        (mod_ports oldDut) (mod_ports shell).
Proof.
  apply (C8_wrapper_annotations padAllocate sampleCircuitMoveDut sampleRunMoveDut).
  - vm_compute. reflexivity.
  - reflexivity.
Defined.

Lemma C9_witness :
  (is_Some (runOnOperation padAllocate sampleCircuit) ↔
     ∀ nla, nla ∈ circ_paths sampleCircuit →
            HierPath.root nla = Some "DUT" → rootPrecondition nla)
  ∧ (∀ sym, HierPath.root (mkHierPath sym [FlatSymbolRefAttr "DUT"]) = Some "DUT"
            ∧ ¬ rootPrecondition (mkHierPath sym [FlatSymbolRefAttr "DUT"]))
  ∧ (∀ sym, mkHierPath sym [FlatSymbolRefAttr "DUT"] ∈ circ_paths sampleCircuit →
            runOnOperation padAllocate sampleCircuit = None).
Proof.
  apply (C9_root_case_precondition padAllocate sampleCircuit "Wrapper"
           [topModule] (dutModule sampleDutAnnos) []).
  - vm_compute. reflexivity.
  - vm_compute. reflexivity.
  - vm_compute. reflexivity.
Defined.

Lemma C10_witness :
  runOnOperation padAllocate malformedThenValid =
    Some {| status := PassFailure; diagnostics := [MalformedDirective];
            result := malformedThenValid |}.
Proof.
  destruct (C10_duplicate_needs_two_names padAllocate malformedThenValid)
    as (_ & _ & Hrun & _).
  eapply Hrun; reflexivity.
Defined.

(** The run on the design whose only path is the DUT alone is cut short. *)
Lemma localPath_run_is_cut_short :
  runOnOperation padAllocate localPathCircuit = None.
Proof. vm_compute. reflexivity. Qed.

(* ================================================================== *)
(** * Further properties of the pass *)
(* ================================================================== *)

(** Property X1.  [addHierarchy] is defined exactly on the paths that touch
    the DUT: its loop stops at the first locator that names the DUT, and
    runs past the end of the namepath when there is none. *)
Theorem X1_addHierarchy_defined_iff_touching (path : HierPathOp)
    (dut : FModuleOp) (wrapperInst : InstanceOp) :
  is_Some (addHierarchy path dut wrapperInst)
  ↔ mod_name dut ∈ getModule <$> namepath path.
Proof.
  split.
  - intros [path' Hadd].
    destruct (addHierarchy_Some _ _ _ _ Hadd)
      as (front & at_dut & back & (Hnp & _ & Hat) & _).
    rewrite Hnp, fmap_app, fmap_cons, Hat.
    apply elem_of_app. right. left.
  - intros Hin. apply addHierarchy_touching. by apply bool_decide_eq_true.
Qed.

(** Property X2.  [addHierarchy] makes the path exactly one locator longer
    and keeps its symbol, its root module and the inner symbol of its leaf,
    hence whether it is a module path or a component path.  The leaf module
    depends on where the DUT is first named: when a locator in front of the
    last one names the DUT, the leaf module stays; when only the last
    locator names the DUT, the leaf module becomes the module of the
    wrapper instance.  A path that ends at the DUT and visits no module
    twice is of the second kind. *)
Theorem X2_addHierarchy_keeps_ends (path : HierPathOp) (dut : FModuleOp)
    (wrapperInst : InstanceOp) (path' : HierPathOp) :
  addHierarchy path dut wrapperInst = Some path' →
  sym_name path' = sym_name path
  ∧ length (namepath path') = S (length (namepath path))
  ∧ HierPath.root path' = HierPath.root path
  ∧ HierPath.ref path' = HierPath.ref path
  ∧ HierPath.isModule path' = HierPath.isModule path
  ∧ (∃ front leaf,
       namepath path = front ++ [leaf]
       ∧ HierPath.leafMod path' =
           if decide (mod_name dut ∈ getModule <$> front)
           then HierPath.leafMod path
           else Some (inst_module wrapperInst))
  ∧ (NoDup (getModule <$> namepath path) →
     HierPath.leafMod path = Some (mod_name dut) →
     HierPath.leafMod path' = Some (inst_module wrapperInst)).
Proof.
  intros Hadd.
  destruct (addHierarchy_Some _ _ _ _ Hadd)
    as (front & at_dut & back & (Hnp & Hfront & Hat) & ->).
  assert (HierPath.ref
            (setNamepathAttr path
               (front
                ++ [InnerRefAttr (mod_name dut) (inst_inner_sym wrapperInst);
                    retargetLocator (inst_module wrapperInst) at_dut] ++ back))
          = HierPath.ref path) as Href.
  { unfold HierPath.ref. simpl. rewrite Hnp.
    rewrite !last_app_cons.
    destruct back as [|b back]; simpl; [| done].
    apply getName_retargetLocator. }
  split; [done |]. split.
  { simpl. rewrite Hnp. rewrite !length_app. simpl. lia. }
  split.
  { unfold HierPath.root. cbn [namepath setNamepathAttr].
    by rewrite (head_insert_level _ _ _ _ _ _ _ (conj Hnp (conj Hfront Hat))). }
  split; [exact Href |]. split.
  { unfold HierPath.isModule. by rewrite Href. }
  assert (mod_name dut ∉ getModule <$> front) as Hnotin.
  { intros (r & Hr & Hin)%list_elem_of_fmap.
    rewrite Forall_forall in Hfront. by destruct (Hfront r Hin). }
  unfold HierPath.leafMod. cbn [namepath setNamepathAttr]. rewrite Hnp.
  destruct (last back) as [leaf|] eqn:Hlast.
  - (* the DUT is named in front of the last locator *)
    apply last_Some in Hlast as [back' ->].
    assert (last (front
                  ++ [InnerRefAttr (mod_name dut) (inst_inner_sym wrapperInst);
                      retargetLocator (inst_module wrapperInst) at_dut]
                  ++ back' ++ [leaf]) = Some leaf) as Hnew
      by (by rewrite !app_assoc, last_snoc).
    assert (last (front ++ at_dut :: back' ++ [leaf]) = Some leaf) as Hold
      by (by rewrite app_comm_cons, app_assoc, last_snoc).
    rewrite Hnew, Hold. split.
    + exists (front ++ at_dut :: back'), leaf.
      split; [by rewrite <- app_assoc |].
      rewrite decide_True; [done |].
      rewrite fmap_app, fmap_cons, Hat. apply elem_of_app. right. left.
    + intros Hnodup Hleaf. exfalso.
      rewrite fmap_app, fmap_cons, Hat in Hnodup.
      apply NoDup_app in Hnodup as (_ & _ & Hnodup).
      apply NoDup_cons in Hnodup as [Hback _]. apply Hback.
      simpl in Hleaf. injection Hleaf as Hleaf.
      rewrite fmap_app. apply elem_of_app. right. simpl. rewrite Hleaf. left.
  - (* only the last locator names the DUT *)
    apply last_None in Hlast as ->.
    rewrite app_nil_r, last_app_cons, last_snoc. simpl.
    rewrite getModule_retargetLocator. split.
    + exists front, at_dut. split; [done |].
      by rewrite decide_False.
    + done.
Qed.

(** Property X3.  [addHierarchy] keeps a path well-formed: when every
    locator but the last is an instance edge, the same holds afterwards,
    for the locator it inserts is an instance edge and the one it re-owns
    keeps its kind. *)
Theorem X3_addHierarchy_keeps_shape (path : HierPathOp) (dut : FModuleOp)
    (wrapperInst : InstanceOp) (path' : HierPathOp) :
  interiorInnerRefs (namepath path) = true →
  addHierarchy path dut wrapperInst = Some path' →
  interiorInnerRefs (namepath path') = true.
Proof.
  intros Hshape Hadd.
  destruct (addHierarchy_Some _ _ _ _ Hadd)
    as (front & at_dut & back & (Hnp & _ & _) & ->).
  simpl. rewrite Hnp in Hshape. by apply interiorInnerRefs_insert_level.
Qed.

Section MoreProperties.
Context (allocate : gset string → string → string).

(** Property X4.  The pass reads nothing but the directives among the
    annotations of the circuit: two circuits with the same modules, the same
    paths and the same directives, in the same order, run to the same
    status, the same diagnostics, the same modules and the same paths. *)
Theorem X4_only_directives_are_read (circuit circuit' : CircuitOp) (run : PassRun) :
  directivesOf (circ_annotations circuit) = directivesOf (circ_annotations circuit') →
  circ_modules circuit = circ_modules circuit' →
  circ_paths circuit = circ_paths circuit' →
  runOnOperation allocate circuit = Some run →
  ∃ run', runOnOperation allocate circuit' = Some run'
    ∧ status run' = status run
    ∧ diagnostics run' = diagnostics run
    ∧ circ_modules (result run') = circ_modules (result run)
    ∧ circ_paths (result run') = circ_paths (result run).
Proof.
  destruct circuit as [annos modules paths], circuit' as [annos' modules' paths'].
  simpl. intros Hdirs <- <-.
  assert (readDirectives annos = readDirectives annos') as Hread.
  { unfold readDirectives.
    by rewrite (readDirectives_directivesOf _ annos),
               (readDirectives_directivesOf _ annos'), Hdirs. }
  unfold runOnOperation. simpl. rewrite <- Hread.
  destruct (error (readDirectives annos)).
  { intros; simplify_eq. by eexists. }
  destruct (wrapperName (readDirectives annos)) as [hint|].
  2: { intros; simplify_eq. by eexists. }
  destruct (getDut modules) as [[[before oldDut] after]|].
  2: { intros; simplify_eq. by eexists. }
  unfold injectHierarchy, CircuitNamespace. simpl.
  destruct (splitDut allocate _ _ hint oldDut) as [[wrapper shell] ns].
  destruct (instantiateWrapper allocate shell wrapper) as [[wrapperInst shell']|];
    simpl; [| done].
  destruct (processNLAs allocate wrapper shell' wrapperInst _ _ ns ∅ paths)
    as [[[out ns'] rn]|]; simpl; [| done].
  intros; simplify_eq. by eexists.
Qed.

(** Property X5.  The three ways a run ends: it fails exactly when it
    emitted a diagnostic; it reports that nothing was done exactly when the
    circuit holds no directive; it succeeds only with a single directive,
    which has a name, and with a DUT; and unless it succeeds it leaves the
    circuit as it was. *)
Theorem X5_exits_of_a_run (circuit : CircuitOp) (run : PassRun) :
  runOnOperation allocate circuit = Some run →
  (status run = PassFailure ↔ diagnostics run ≠ [])
  ∧ (status run = AllAnalysesPreserved
     ↔ directivesOf (circ_annotations circuit) = [])
  ∧ (status run = PassSuccess →
     (∃ directive, directivesOf (circ_annotations circuit) = [directive]
                   ∧ hasName directive = true)
     ∧ is_Some (getDut (circ_modules circuit)))
  ∧ (status run ≠ PassSuccess → result run = circuit).
Proof.
  unfold runOnOperation. intros Hrun.
  destruct (readDirectives_summary (circ_annotations circuit))
    as (_ & Hmal & Hdup & Hmiss & Herr).
  pose proof (directives_partition (circ_annotations circuit)) as Hpart.
  pose proof (occurrences_total (emitted (readDirectives (circ_annotations circuit))))
    as Htotal.
  pose proof (readDirectives_accepts (circ_annotations circuit)) as Hacc.
  destruct (error (readDirectives (circ_annotations circuit))) eqn:He.
  { destruct Herr as [Herr _]. specialize (Herr eq_refl). simplify_eq. simpl.
    split; [done |]. split; [| done]. split; [done |].
    intros Hnone. rewrite Hnone in Hpart. simpl in Hpart.
    destruct (emitted (readDirectives (circ_annotations circuit)));
      [done | simpl in Htotal; lia]. }
  destruct (Hacc eq_refl) as (Hnil & _ & Hdirs). clear Hacc.
  rewrite Hnil in Hrun.
  destruct (wrapperName (readDirectives (circ_annotations circuit))) as [hint|].
  2: { simplify_eq. simpl. done. }
  destruct Hdirs as (directive & Hdirs & Hname).
  assert (hasName directive = true) as Hhas.
  { unfold hasName. apply bool_decide_eq_true. by rewrite Hname. }
  destruct (getDut (circ_modules circuit)) as [[[before oldDut] after]|].
  2: { simplify_eq. simpl. rewrite Hdirs. done. }
  destruct (injectHierarchy allocate circuit hint _ before oldDut after)
    as [circuit'|]; simpl in Hrun; [| done].
  simplify_eq. simpl. rewrite Hdirs.
  split; [done |]. split; [done |]. split; [| done].
  intros _. split; [by exists directive | done].
Qed.

(** Property X6.  However a run ends, the annotations of the circuit are
    what they were: the directive is not removed, for a later pass reads it
    too, and no annotation is added to the circuit. *)
Theorem X6_directive_is_kept (circuit : CircuitOp) (run : PassRun) :
  runOnOperation allocate circuit = Some run →
  circ_annotations (result run) = circ_annotations circuit.
Proof.
  intros Hrun.
  destruct (decide (status run = PassSuccess)) as [Hok | Hnot].
  - by destruct (success_anatomy allocate circuit run Hrun Hok)
      as (? & ? & ? & ? & ? & ? & ? & _ & _ & _ & _ & _ & ?).
  - revert Hrun Hnot. unfold runOnOperation.
    destruct (error _); [intros; by simplify_eq |].
    destruct (wrapperName _); [| intros; by simplify_eq].
    destruct (getDut _) as [[[before oldDut] after]|]; [| intros; by simplify_eq].
    destruct (injectHierarchy _ _ _ _ _ _ _); simpl; [| done].
    intros; by simplify_eq.
Qed.

(** Property X7.  The pass creates no public module.  The wrapper and the
    new DUT both have the convention of the old DUT; in [moveDut] mode the
    wrapper takes over the visibility of the old DUT and the new DUT is
    private, otherwise the new DUT has the visibility of the old one and the
    wrapper is private.  Either way the circuit has as many public modules
    as before. *)
Theorem X7_no_new_public_module (circuit : CircuitOp) (run : PassRun) :
  runOnOperation allocate circuit = Some run → status run = PassSuccess →
  ∃ before oldDut after wrapper shell,
    getDut (circ_modules circuit) = Some (before, oldDut, after)
    ∧ circ_modules (result run) = before ++ wrapper :: shell :: after
    ∧ mod_convention wrapper = mod_convention oldDut
    ∧ mod_convention shell = mod_convention oldDut
    ∧ (if moveDut (readDirectives (circ_annotations circuit))
       then mod_visibility wrapper = mod_visibility oldDut
            ∧ mod_visibility shell = Private
       else mod_visibility wrapper = Private
            ∧ mod_visibility shell = mod_visibility oldDut)
    ∧ length (publicModules (circ_modules (result run)))
      = length (publicModules (circ_modules circuit)).
Proof.
  intros Hrun Hstatus.
  destruct (success_anatomy allocate circuit run Hrun Hstatus)
    as (hint & before & oldDut & after & paths & ns & rn
        & _ & Hdut & _ & Hmods & _).
  set (mv := moveDut (readDirectives (circ_annotations circuit))) in *.
  destruct (getDut_spec _ _ _ _ Hdut) as [Hold _].
  eexists before, oldDut, after, _, _. split; [done |]. split; [exact Hmods |].
  unfold wiredShell, splitWrapper, splitShell. rewrite splitDut_eq. simpl.
  split; [done |]. split; [done |].
  split; [by destruct mv |].
  rewrite Hmods, Hold. unfold publicModules.
  rewrite !filter_app, !filter_cons, !length_app.
  unfold wiredShell, splitWrapper, splitShell. rewrite splitDut_eq. simpl.
  destruct mv; simpl;
    destruct (decide (mod_visibility oldDut = Public)); simpl; lia.
Qed.

(** Property X8.  A successful run loses no symbol: every module name and
    every path symbol of the circuit is still the name of a module or the
    symbol of a path afterwards (the new DUT carries the old DUT's name,
    and every path, rewritten or not, keeps its symbol). *)
Theorem X8_no_symbol_is_lost (circuit : CircuitOp) (run : PassRun)
    (symbol : string) :
  runOnOperation allocate circuit = Some run → status run = PassSuccess →
  symbol ∈ symbolsOf circuit → symbol ∈ symbolsOf (result run).
Proof.
  intros Hrun Hstatus Hin.
  destruct (success_anatomy allocate circuit run Hrun Hstatus)
    as (hint' & before & oldDut & after & _ & _ & _ & _ & Hdut & _).
  destruct (success_paths allocate circuit run _ _ _ Hrun Hstatus Hdut)
    as (hint & wrapper & shell & wrapperInst & connects & wrapper0 & shell0
        & dutPaths & dutPortSyms & ns & rn
        & Hmods & _ & Hsn & _ & _ & _ & Hsn0 & Hloop).
  destruct (getDut_spec _ _ _ _ Hdut) as [Hold _].
  unfold symbolsOf in *. rewrite Hmods. rewrite Hold in Hin.
  rewrite !fmap_app, !fmap_cons in *. rewrite Hsn.
  rewrite !elem_of_app, !elem_of_cons in *.
  destruct Hin as [[Hin | [Hin | Hin]] | Hin]; [by auto | by auto | by auto 6 |].
  right. apply list_elem_of_fmap in Hin as (nla & -> & Hin).
  pose proof (processNLAs_elem allocate _ _ _ _ _ _ _ _ _ _ _ nla Hloop Hin) as Helem.
  destruct (pathTouches (mod_name shell0) nla).
  - destruct Helem as (ns0 & rn0 & image & ns1 & rn1 & Hone & Himage).
    destruct (processNLA_image allocate _ _ _ _ _ _ _ _ _ _ _ Hone)
      as (nla' & Hsym & [[-> _] | [-> _]]).
    + rewrite <- Hsym. apply list_elem_of_fmap_2, Himage. left.
    + rewrite <- Hsym. apply list_elem_of_fmap_2, Himage. right. left.
  - by apply list_elem_of_fmap_2.
Qed.

(** Property X9.  The pass rewrites only paths that touch the DUT and makes
    no path out of nothing: a path that does not name the DUT is kept as it
    is, and every path after the run is a path of the input, or comes from
    a path of the input that names the DUT and has its symbol (a rewritten
    path) or its namepath (a clone). *)
Theorem X9_paths_come_from_paths (circuit : CircuitOp) (run : PassRun)
    (before : list FModuleOp) (oldDut : FModuleOp) (after : list FModuleOp) :
  runOnOperation allocate circuit = Some run → status run = PassSuccess →
  getDut (circ_modules circuit) = Some (before, oldDut, after) →
  (∀ nla, nla ∈ circ_paths circuit →
          pathTouches (mod_name oldDut) nla = false →
          nla ∈ circ_paths (result run))
  ∧ (∀ q, q ∈ circ_paths (result run) →
       ∃ nla, nla ∈ circ_paths circuit
         ∧ (q = nla
            ∨ (pathTouches (mod_name oldDut) nla = true
               ∧ (sym_name q = sym_name nla ∨ namepath q = namepath nla)))).
Proof.
  intros Hrun Hstatus Hdut.
  destruct (success_paths allocate circuit run _ _ _ Hrun Hstatus Hdut)
    as (hint & wrapper & shell & wrapperInst & connects & wrapper0 & shell0
        & dutPaths & dutPortSyms & ns & rn
        & _ & _ & _ & _ & _ & _ & Hsn0 & Hloop).
  split.
  - intros nla Hin Htouch.
    pose proof (processNLAs_elem allocate _ _ _ _ _ _ _ _ _ _ _ nla Hloop Hin)
      as Helem.
    by rewrite Hsn0, Htouch in Helem.
  - intros q Hq.
    destruct (processNLAs_cases allocate _ _ _ _ _ _ _ _ _ _ _ _ Hloop Hq)
      as (nla & Hin & Hcase).
    rewrite Hsn0 in Hcase. exists nla. split; [done |].
    destruct Hcase
      as [[_ ->] | [(frontName & second & tail & Hnp & ->)
                   | [(_ & Hleaf & [[-> _] | (ns0 & -> & _)]) | [_ Hadd]]]].
    + by left.
    + right. split; [| by left].
      apply root_touches. unfold HierPath.root. by rewrite Hnp.
    + by left.
    + right. split; [by apply leafMod_touches | by right].
    + right. split.
      * destruct (pathTouches (mod_name oldDut) nla) eqn:Htouch; [done |].
        rewrite <- Hsn0 in Htouch.
        by rewrite (addHierarchy_untouched _ _ _ Htouch) in Hadd.
      * left. by destruct (addHierarchy_Some _ _ _ _ Hadd) as (? & ? & ? & _ & ->).
Qed.

(** Property X10.  A successful run keeps the paths well-formed: when every
    locator but the last of every path of the circuit is an instance edge,
    the same holds for every path afterwards. *)
Theorem X10_paths_stay_well_formed (circuit : CircuitOp) (run : PassRun) :
  runOnOperation allocate circuit = Some run → status run = PassSuccess →
  (∀ nla, nla ∈ circ_paths circuit → interiorInnerRefs (namepath nla) = true) →
  ∀ q, q ∈ circ_paths (result run) → interiorInnerRefs (namepath q) = true.
Proof.
  intros Hrun Hstatus Hshape q Hq.
  destruct (success_anatomy allocate circuit run Hrun Hstatus)
    as (hint' & before & oldDut & after & _ & _ & _ & _ & Hdut & _).
  destruct (success_paths allocate circuit run _ _ _ Hrun Hstatus Hdut)
    as (hint & wrapper & shell & wrapperInst & connects & wrapper0 & shell0
        & dutPaths & dutPortSyms & ns & rn
        & _ & _ & _ & _ & _ & _ & Hsn0 & Hloop).
  destruct (processNLAs_cases allocate _ _ _ _ _ _ _ _ _ _ _ _ Hloop Hq)
    as (nla & Hin & Hcase).
  specialize (Hshape nla Hin).
  destruct Hcase
    as [[_ ->] | [(frontName & second & tail & Hnp & ->)
                 | [(_ & Hleaf & [[-> _] | (ns0 & -> & _)]) | [_ Hadd]]]];
    try done.
  - rewrite Hnp in Hshape. exact Hshape.
  - destruct (addHierarchy_Some _ _ _ _ Hadd)
      as (front & at_dut & back & (Hnp & _ & _) & ->).
    simpl. rewrite Hnp in Hshape. by apply interiorInnerRefs_insert_level.
Qed.

(** Property X11.  On well-formed paths the [cast] of line 273 cannot fail:
    once a directive is accepted and a DUT is found, the run reaches its end
    if and only if every path rooted at the DUT has more than one locator,
    the condition of the [assert] of line 270. *)
Theorem X11_cast_is_safe_on_well_formed_paths (circuit : CircuitOp)
    (hint : string) (before : list FModuleOp) (oldDut : FModuleOp)
    (after : list FModuleOp) :
  error (readDirectives (circ_annotations circuit)) = false →
  wrapperName (readDirectives (circ_annotations circuit)) = Some hint →
  getDut (circ_modules circuit) = Some (before, oldDut, after) →
  (∀ nla, nla ∈ circ_paths circuit → interiorInnerRefs (namepath nla) = true) →
  is_Some (runOnOperation allocate circuit) ↔
    ∀ nla, nla ∈ circ_paths circuit →
           HierPath.root nla = Some (mod_name oldDut) → 1 < length (namepath nla).
Proof.
  intros Herr Hhint Hdut Hshape.
  rewrite (run_is_Some_iff allocate circuit hint before oldDut after Herr Hhint Hdut).
  split; intros Hpre nla Hin Hroot.
  - by destruct (Hpre nla Hin Hroot).
  - split; [by apply Hpre |].
    specialize (Hpre nla Hin Hroot). specialize (Hshape nla Hin).
    destruct (namepath nla) as [|[m n|m] [|second tail]];
      simpl in Hpre; try lia.
    + by exists m, n.
    + cbn in Hshape. done.
Qed.

(** Property X12.  The retargeting of lines 315-340 neither drops nor adds
    an annotation of the new DUT or of its ports, and changes no field but
    [circt.nonlocal]: up to their order, the annotations of the new DUT
    after the run are those it was created with (the old DUT's, less the
    DUT marker in [moveDut] mode), each passed through one function that
    leaves every other field, and every local annotation, as it is; the
    same function accounts for the annotations of each port. *)
Theorem X12_retargeting_keeps_annotations (circuit : CircuitOp) (run : PassRun)
    (before : list FModuleOp) (oldDut : FModuleOp) (after : list FModuleOp) :
  runOnOperation allocate circuit = Some run → status run = PassSuccess →
  getDut (circ_modules circuit) = Some (before, oldDut, after) →
  ∃ wrapper shell (retarget : Annotation → Annotation),
    circ_modules (result run) = before ++ wrapper :: shell :: after
    ∧ (∀ anno key, key ≠ "circt.nonlocal" →
         dictGet key (retarget anno) = dictGet key anno)
    ∧ (∀ anno, isLocal anno → retarget anno = anno)
    ∧ mod_annotations shell
      ≡ₚ retarget <$> shellAnnotations
                        (moveDut (readDirectives (circ_annotations circuit))) oldDut
    ∧ Forall2 (λ p p', portSignature p' = portSignature p
                       ∧ port_annotations p' ≡ₚ retarget <$> port_annotations p)
        (mod_ports oldDut) (mod_ports shell).
Proof.
  intros Hrun Hstatus Hdut.
  destruct (success_anatomy allocate circuit run Hrun Hstatus)
    as (hint & before' & oldDut' & after' & paths & ns & rn
        & _ & Hdut' & _ & Hmods & _).
  rewrite Hdut in Hdut'. symmetry in Hdut'. simplify_eq.
  set (mv := moveDut (readDirectives (circ_annotations circuit))) in *.
  destruct (wiredShell_fields allocate circuit hint mv oldDut) as (_ & Hsp & Hsa).
  eexists _, _, (retargetAnnotation rn). split; [exact Hmods |].
  split; [intros anno key; apply retargetAnnotation_fields |].
  split; [intros anno; apply retargetAnnotation_local |].
  unfold updateAnnotations, setPorts, setAnnotations.
  cbn [mod_annotations mod_ports]. rewrite Hsp, Hsa. split.
  - apply replaceAnnotations_Permutation.
  - apply Forall2_fmap_r, Forall_Forall2_diag, Forall_forall.
    intros p _. split; [done |]. apply replaceAnnotations_Permutation.
Qed.

(** Property X13.  The retargeting keeps the local annotations of the new
    DUT and of its ports in their order: the annotations without a
    [circt.nonlocal] field are, in sequence, those the new DUT was created
    with. *)
Theorem X13_local_annotations_keep_their_order (circuit : CircuitOp)
    (run : PassRun) (before : list FModuleOp) (oldDut : FModuleOp)
    (after : list FModuleOp) :
  runOnOperation allocate circuit = Some run → status run = PassSuccess →
  getDut (circ_modules circuit) = Some (before, oldDut, after) →
  ∃ wrapper shell,
    circ_modules (result run) = before ++ wrapper :: shell :: after
    ∧ filter isLocal (mod_annotations shell)
      = filter isLocal
          (shellAnnotations (moveDut (readDirectives (circ_annotations circuit)))
                            oldDut)
    ∧ Forall2 (λ p p', filter isLocal (port_annotations p')
                       = filter isLocal (port_annotations p))
        (mod_ports oldDut) (mod_ports shell).
Proof.
  intros Hrun Hstatus Hdut.
  destruct (success_anatomy allocate circuit run Hrun Hstatus)
    as (hint & before' & oldDut' & after' & paths & ns & rn
        & _ & Hdut' & _ & Hmods & _).
  rewrite Hdut in Hdut'. symmetry in Hdut'. simplify_eq.
  set (mv := moveDut (readDirectives (circ_annotations circuit))) in *.
  destruct (wiredShell_fields allocate circuit hint mv oldDut) as (_ & Hsp & Hsa).
  eexists _, _. split; [exact Hmods |].
  unfold updateAnnotations, setPorts, setAnnotations.
  cbn [mod_annotations mod_ports]. rewrite Hsp, Hsa. split.
  - apply replaceAnnotations_local.
  - apply Forall2_fmap_r, Forall_Forall2_diag, Forall_forall.
    intros p _. apply replaceAnnotations_local.
Qed.

(** Property X14.  The walk of lines 342-346 points every [rwprobe] of the
    wrapper, nested ones included, at the wrapper's name and keeps its
    target name, in program order; nothing else in the body changes, so a
    body without [rwprobe]s is the old DUT's body. *)
Theorem X14_rwprobes_follow_the_rename (circuit : CircuitOp) (run : PassRun)
    (before : list FModuleOp) (oldDut : FModuleOp) (after : list FModuleOp) :
  runOnOperation allocate circuit = Some run → status run = PassSuccess →
  getDut (circ_modules circuit) = Some (before, oldDut, after) →
  ∃ wrapper shell,
    circ_modules (result run) = before ++ wrapper :: shell :: after
    ∧ concat (map rwprobeTargets (mod_body wrapper))
      = (λ target, (mod_name wrapper, target.2))
          <$> concat (map rwprobeTargets (mod_body oldDut))
    ∧ (∀ name, map (updateRWProbe name) (mod_body wrapper)
               = map (updateRWProbe name) (mod_body oldDut))
    ∧ (concat (map rwprobeTargets (mod_body oldDut)) = [] →
       mod_body wrapper = mod_body oldDut).
Proof.
  intros Hrun Hstatus Hdut.
  destruct (success_anatomy allocate circuit run Hrun Hstatus)
    as (hint & before' & oldDut' & after' & paths & ns & rn
        & _ & Hdut' & _ & Hmods & _).
  rewrite Hdut in Hdut'. symmetry in Hdut'. simplify_eq.
  set (mv := moveDut (readDirectives (circ_annotations circuit))) in *.
  destruct (splitWrapper_fields allocate circuit hint mv oldDut)
    as (_ & _ & _ & Hwb & _).
  eexists _, _. split; [exact Hmods |].
  unfold setBody. cbn [mod_body mod_name]. rewrite Hwb.
  split; [apply rwprobeTargets_body |].
  split; [intros name; apply updateRWProbe_absorb_body |].
  apply updateRWProbe_no_rwprobe_body.
Qed.

Section FreshNames.
Hypothesis allocate_fresh : ∀ used hint, allocate used hint ∉ used.

(** Property X15.  With a namespace that never hands out a name in use, a
    successful run keeps the symbol table free of clashes: when the names of
    the modules and the symbols of the paths of the circuit are pairwise
    distinct, they still are afterwards, the wrapper's name and the symbols
    of the clones included. *)
Theorem X15_symbols_stay_distinct (circuit : CircuitOp) (run : PassRun) :
  runOnOperation allocate circuit = Some run → status run = PassSuccess →
  NoDup (symbolsOf circuit) → NoDup (symbolsOf (result run)).
Proof.
  intros Hrun Hstatus Hnodup.
  destruct (success_anatomy allocate circuit run Hrun Hstatus)
    as (hint' & before & oldDut & after & _ & _ & _ & _ & Hdut & _).
  destruct (success_paths allocate circuit run _ _ _ Hrun Hstatus Hdut)
    as (hint & wrapper & shell & wrapperInst & connects & wrapper0 & shell0
        & dutPaths & dutPortSyms & ns & rn
        & Hmods & Hwn & Hsn & _ & _ & _ & _ & Hloop).
  destruct (getDut_spec _ _ _ _ Hdut) as [Hold _].
  pose proof (allocate_fresh (CircuitNamespace circuit) hint) as Hfresh.
  rewrite <- Hwn in Hfresh.
  assert (∀ x, x ∈ CircuitNamespace circuit ↔
               x ∈ mod_name <$> circ_modules circuit
               ∨ x ∈ sym_name <$> circ_paths circuit) as Hns.
  { intros x. unfold CircuitNamespace.
    by rewrite elem_of_union, !elem_of_list_to_set. }
  unfold symbolsOf in *.
  apply NoDup_app in Hnodup as (Hnames & Hdisj & Hsyms).
  destruct (processNLAs_symbols allocate _ _ _ _ _ allocate_fresh
              _ _ _ _ _ _ Hloop Hsyms) as [Hout Horigin].
  { intros p Hp. apply elem_of_union_r, Hns. right. by apply list_elem_of_fmap_2. }
  assert (∀ x, x ∈ sym_name <$> circ_paths (result run) →
               x ∈ sym_name <$> circ_paths circuit
               ∨ (x ≠ mod_name wrapper ∧ x ∉ CircuitNamespace circuit)) as Hnew.
  { intros x Hx. apply list_elem_of_fmap in Hx as (q & -> & Hq).
    destruct (Horigin q Hq) as [[Hold' | Hnew] _]; [by left | right].
    rewrite not_elem_of_union, not_elem_of_singleton in Hnew. done. }
  assert (mod_name <$> circ_modules (result run)
          ≡ₚ mod_name wrapper :: (mod_name <$> circ_modules circuit)) as Hperm.
  { rewrite Hmods, Hold, !fmap_app, !fmap_cons, Hsn.
    by rewrite <- Permutation_middle. }
  rewrite Hperm. simpl. apply NoDup_cons. split.
  - rewrite elem_of_app. intros [Hin | Hin].
    + apply Hfresh, Hns. by left.
    + destruct (Hnew _ Hin) as [Hin' | [Hne _]]; [| done].
      apply Hfresh, Hns. by right.
  - apply NoDup_app. split; [done |]. split; [| done].
    intros x Hx Hin.
    destruct (Hnew _ Hin) as [Hin' | [_ Hnotin]].
    + by apply (Hdisj x).
    + apply Hnotin, Hns. by left.
Qed.

(** Property X16.  The inner symbol of the wrapper instance is allocated
    from the inner symbols of the new DUT, so it is none of the DUT's port
    symbols: when the port symbols of the old DUT are distinct, the inner
    symbols of the new DUT (those of its ports and of its body) are
    distinct. *)
Theorem X16_inner_symbols_stay_distinct (circuit : CircuitOp) (run : PassRun)
    (before : list FModuleOp) (oldDut : FModuleOp) (after : list FModuleOp) :
  runOnOperation allocate circuit = Some run → status run = PassSuccess →
  getDut (circ_modules circuit) = Some (before, oldDut, after) →
  NoDup (omap port_sym (mod_ports oldDut)) →
  ∃ wrapper shell wrapperInst connects,
    circ_modules (result run) = before ++ wrapper :: shell :: after
    ∧ mod_body shell = OpInstance wrapperInst :: connects
    ∧ (inst_inner_sym wrapperInst ∉ omap port_sym (mod_ports shell))
    ∧ NoDup (omap port_sym (mod_ports shell)
             ++ concat (map innerSymbolsOf (mod_body shell))).
Proof.
  intros Hrun Hstatus Hdut Hnodup.
  destruct (success_anatomy allocate circuit run Hrun Hstatus)
    as (hint & before' & oldDut' & after' & paths & ns & rn
        & _ & Hdut' & _ & Hmods & _).
  rewrite Hdut in Hdut'. symmetry in Hdut'. simplify_eq.
  set (mv := moveDut (readDirectives (circ_annotations circuit))) in *.
  destruct (splitShell_fields allocate circuit hint mv oldDut)
    as (_ & Hsp & _ & Hsb & _).
  assert (inst_inner_sym (builtInstance allocate circuit hint mv oldDut)
          ∉ omap port_sym (mod_ports oldDut)) as Hfresh.
  { unfold builtInstance. cbn [inst_inner_sym]. intros Hin.
    apply (allocate_fresh
             (InnerSymbolNamespace (splitShell allocate circuit hint mv oldDut))
             (mod_name (splitWrapper allocate circuit hint mv oldDut))).
    unfold InnerSymbolNamespace at 2. rewrite Hsp.
    by apply elem_of_union_l, elem_of_list_to_set. }
  eexists _, _, (builtInstance allocate circuit hint mv oldDut), _.
  split; [exact Hmods |].
  unfold updateAnnotations, setPorts, setAnnotations, wiredShell, setBody.
  cbn [mod_body mod_ports]. split; [reflexivity |].
  rewrite omap_port_sym_annotations, Hsp.
  split; [exact Hfresh |].
  cbn [map concat innerSymbolsOf]. rewrite innerSymbolsOf_passThrough.
  apply NoDup_app. split; [done |]. split.
  - intros x Hx Hin. apply list_elem_of_singleton in Hin as ->. by apply Hfresh.
  - apply NoDup_singleton.
Qed.

(** Property X17.  After a successful run no path is rooted at the new DUT:
    the root case moved every path that started inside the old DUT over to
    the wrapper, and no other case changes the root of a path. *)
Theorem X17_no_path_rooted_at_the_new_DUT (circuit : CircuitOp) (run : PassRun)
    (before : list FModuleOp) (oldDut : FModuleOp) (after : list FModuleOp)
    (q : HierPathOp) :
  runOnOperation allocate circuit = Some run → status run = PassSuccess →
  getDut (circ_modules circuit) = Some (before, oldDut, after) →
  q ∈ circ_paths (result run) →
  HierPath.root q ≠ Some (mod_name oldDut).
Proof.
  intros Hrun Hstatus Hdut Hq.
  destruct (success_paths allocate circuit run _ _ _ Hrun Hstatus Hdut)
    as (hint & wrapper & shell & wrapperInst & connects & wrapper0 & shell0
        & dutPaths & dutPortSyms & ns & rn
        & _ & Hwn & _ & _ & _ & Hwn0 & Hsn0 & Hloop).
  destruct (getDut_spec _ _ _ _ Hdut) as [Hold _].
  assert (mod_name wrapper ≠ mod_name oldDut) as Hne.
  { intros Heq. apply (allocate_fresh (CircuitNamespace circuit) hint).
    rewrite <- Hwn, Heq. unfold CircuitNamespace.
    apply elem_of_union_l, elem_of_list_to_set. rewrite Hold, fmap_app, fmap_cons.
    apply elem_of_app. right. left. }
  destruct (processNLAs_cases allocate _ _ _ _ _ _ _ _ _ _ _ _ Hloop Hq)
    as (nla & Hin & Hcase).
  rewrite Hsn0, Hwn0 in Hcase.
  destruct Hcase
    as [[Htouch ->] | [(frontName & second & tail & Hnp & ->)
                      | [(Hroot & _ & [[-> _] | (ns0 & -> & _)]) | [Hroot Hadd]]]];
    try done.
  - intros Hroot. by rewrite (root_touches _ _ Hroot) in Htouch.
  - unfold HierPath.root. simpl. by intros [= ?].
  - destruct (addHierarchy_Some _ _ _ _ Hadd)
      as (front & at_dut & back & Hsplit & ->).
    unfold HierPath.root in *. cbn [namepath setNamepathAttr].
    by rewrite (head_insert_level _ _ _ _ _ _ _ Hsplit).
Qed.

(** Property X18.  After a successful run on paths that visit no module
    twice, every path agrees with the new hierarchy at the DUT: a locator
    that names the new DUT and is not the last locator of its path is the
    instance edge of the wrapper instance, and the locator behind it names
    the wrapper. *)
Theorem X18_paths_route_through_the_wrapper_instance (circuit : CircuitOp)
    (run : PassRun) (before : list FModuleOp) (oldDut : FModuleOp)
    (after : list FModuleOp) :
  runOnOperation allocate circuit = Some run → status run = PassSuccess →
  getDut (circ_modules circuit) = Some (before, oldDut, after) →
  (∀ nla, nla ∈ circ_paths circuit → NoDup (getModule <$> namepath nla)) →
  ∃ wrapper shell wrapperInst connects,
    circ_modules (result run) = before ++ wrapper :: shell :: after
    ∧ mod_name shell = mod_name oldDut
    ∧ mod_body shell = OpInstance wrapperInst :: connects
    ∧ inst_module wrapperInst = mod_name wrapper
    ∧ ∀ q, q ∈ circ_paths (result run) →
        routesThrough (mod_name shell)
          (InnerRefAttr (mod_name shell) (inst_inner_sym wrapperInst))
          (mod_name wrapper) (namepath q).
Proof.
  intros Hrun Hstatus Hdut Hacyclic.
  destruct (success_paths allocate circuit run _ _ _ Hrun Hstatus Hdut)
    as (hint & wrapper & shell & wrapperInst & connects & wrapper0 & shell0
        & dutPaths & dutPortSyms & ns & rn
        & Hmods & Hwn & Hsn & Hbody & Him & Hwn0 & Hsn0 & Hloop).
  destruct (getDut_spec _ _ _ _ Hdut) as [Hold _].
  assert (mod_name wrapper ≠ mod_name oldDut) as Hne.
  { intros Heq. apply (allocate_fresh (CircuitNamespace circuit) hint).
    rewrite <- Hwn, Heq. unfold CircuitNamespace.
    apply elem_of_union_l, elem_of_list_to_set. rewrite Hold, fmap_app, fmap_cons.
    apply elem_of_app. right. left. }
  exists wrapper, shell, wrapperInst, connects.
  split; [done |]. split; [done |]. split; [done |]. split; [done |].
  intros q Hq. rewrite Hsn.
  destruct (processNLAs_cases allocate _ _ _ _ _ _ _ _ _ _ _ _ Hloop Hq)
    as (nla & Hin & Hcase).
  rewrite Hsn0, Hwn0 in Hcase. specialize (Hacyclic nla Hin).
  destruct Hcase
    as [[Htouch ->] | [(frontName & second & tail & Hnp & ->)
                      | [(Hroot & Hleaf & [[-> _] | (ns0 & -> & _)]) | [Hroot Hadd]]]].
  - apply routesThrough_untouched. by apply bool_decide_eq_false in Htouch.
  - apply routesThrough_untouched. cbn [namepath setNamepathAttr].
    rewrite Hnp in Hacyclic. rewrite fmap_cons in Hacyclic |- *.
    apply NoDup_cons in Hacyclic as [Hnotin _]. cbn [getModule] in Hnotin |- *.
    rewrite elem_of_cons. intros [Heq | Hin']; [congruence | done].
  - by apply routesThrough_leaf.
  - by apply routesThrough_leaf.
  - destruct (addHierarchy_Some _ _ _ _ Hadd)
      as (front & at_dut & back & Hsplit & ->).
    cbn [namepath setNamepathAttr]. rewrite Hsn0, Him in *.
    by apply (routesThrough_insert_level _ (namepath nla)).
Qed.
End FreshNames.
End MoreProperties.

(* ================================================================== *)
(** * The further properties on the sample circuits *)
(* ================================================================== *)

Lemma X2_witness :
  sym_name sampleExtended = sym_name samplePath
  ∧ length (namepath sampleExtended) = S (length (namepath samplePath))
  ∧ HierPath.root sampleExtended = HierPath.root samplePath
  ∧ HierPath.ref sampleExtended = HierPath.ref samplePath
  ∧ HierPath.isModule sampleExtended = HierPath.isModule samplePath
  ∧ (∃ front leaf,
       namepath samplePath = front ++ [leaf]
       ∧ HierPath.leafMod sampleExtended =
           if decide (mod_name (dutModule []) ∈ getModule <$> front)
           then HierPath.leafMod samplePath
           else Some (inst_module sampleInstance))
  ∧ (NoDup (getModule <$> namepath samplePath) →
     HierPath.leafMod samplePath = Some (mod_name (dutModule [])) →
     HierPath.leafMod sampleExtended = Some (inst_module sampleInstance)).
Proof.
  apply (X2_addHierarchy_keeps_ends samplePath (dutModule []) sampleInstance
           sampleExtended).
  reflexivity.
Defined.

Lemma X3_witness : interiorInnerRefs (namepath sampleExtended) = true.
Proof.
  apply (X3_addHierarchy_keeps_shape samplePath (dutModule []) sampleInstance
           sampleExtended).
  - reflexivity.
  - reflexivity.
Defined.

Lemma X4_witness :
  ∃ run', runOnOperation padAllocate sampleCircuitAnnotated = Some run'
    ∧ status run' = status sampleRun
    ∧ diagnostics run' = diagnostics sampleRun
    ∧ circ_modules (result run') = circ_modules (result sampleRun)
    ∧ circ_paths (result run') = circ_paths (result sampleRun).
Proof.
  apply (X4_only_directives_are_read padAllocate sampleCircuit
           sampleCircuitAnnotated sampleRun).
  - vm_compute. reflexivity.
  - reflexivity.
  - reflexivity.
  - vm_compute. reflexivity.
Defined.

Lemma X5_witness :
  (status sampleRun = PassFailure ↔ diagnostics sampleRun ≠ [])
  ∧ (status sampleRun = AllAnalysesPreserved
     ↔ directivesOf (circ_annotations sampleCircuit) = [])
  ∧ (status sampleRun = PassSuccess →
     (∃ directive, directivesOf (circ_annotations sampleCircuit) = [directive]
                   ∧ hasName directive = true)
     ∧ is_Some (getDut (circ_modules sampleCircuit)))
  ∧ (status sampleRun ≠ PassSuccess → result sampleRun = sampleCircuit).
Proof.
  apply (X5_exits_of_a_run padAllocate sampleCircuit sampleRun).
  vm_compute. reflexivity.
Defined.

Lemma X6_witness :
  circ_annotations (result sampleRun) = circ_annotations sampleCircuit.
Proof.
  apply (X6_directive_is_kept padAllocate sampleCircuit sampleRun).
  vm_compute. reflexivity.
Defined.

Lemma X7_witness :
  ∃ before oldDut after wrapper shell,
    getDut (circ_modules sampleCircuitMoveDut) = Some (before, oldDut, after)
    ∧ circ_modules (result sampleRunMoveDut) = before ++ wrapper :: shell :: after
    ∧ mod_convention wrapper = mod_convention oldDut
    ∧ mod_convention shell = mod_convention oldDut
    ∧ (if moveDut (readDirectives (circ_annotations sampleCircuitMoveDut))
       then mod_visibility wrapper = mod_visibility oldDut
            ∧ mod_visibility shell = Private
       else mod_visibility wrapper = Private
            ∧ mod_visibility shell = mod_visibility oldDut)
    ∧ length (publicModules (circ_modules (result sampleRunMoveDut)))
      = length (publicModules (circ_modules sampleCircuitMoveDut)).
Proof.
  apply (X7_no_new_public_module padAllocate sampleCircuitMoveDut sampleRunMoveDut).
  - vm_compute. reflexivity.
  - reflexivity.
Defined.

Lemma X8_witness : "nla1" ∈ symbolsOf (result sampleRun).
Proof.
  apply (X8_no_symbol_is_lost padAllocate sampleCircuit sampleRun "nla1").
  - vm_compute. reflexivity.
  - reflexivity.
  - by_computation.
Defined.

Lemma X9_witness :
  (∀ nla, nla ∈ circ_paths sampleCircuit →
          pathTouches (mod_name (dutModule sampleDutAnnos)) nla = false →
          nla ∈ circ_paths (result sampleRun))
  ∧ (∀ q, q ∈ circ_paths (result sampleRun) →
       ∃ nla, nla ∈ circ_paths sampleCircuit
         ∧ (q = nla
            ∨ (pathTouches (mod_name (dutModule sampleDutAnnos)) nla = true
               ∧ (sym_name q = sym_name nla ∨ namepath q = namepath nla)))).
Proof.
  apply (X9_paths_come_from_paths padAllocate sampleCircuit sampleRun
           [topModule] (dutModule sampleDutAnnos) []).
  - vm_compute. reflexivity.
  - reflexivity.
  - vm_compute. reflexivity.
Defined.

Lemma X10_witness :
  interiorInnerRefs
    [InnerRefAttr "Top" "dut"; InnerRefAttr "DUT" "Wrapper";
     InnerRefAttr "Wrapper" "sub"; FlatSymbolRefAttr "Sub"] = true.
Proof.
  apply (X10_paths_stay_well_formed padAllocate sampleCircuit sampleRun
           ltac:(vm_compute; reflexivity) ltac:(reflexivity)
           ltac:(apply Forall_forall; by_computation)
           (mkHierPath "nla3"
              [InnerRefAttr "Top" "dut"; InnerRefAttr "DUT" "Wrapper";
               InnerRefAttr "Wrapper" "sub"; FlatSymbolRefAttr "Sub"])).
  by_computation.
Defined.

Lemma X11_witness :
  is_Some (runOnOperation padAllocate sampleCircuit) ↔
    ∀ nla, nla ∈ circ_paths sampleCircuit →
           HierPath.root nla = Some (mod_name (dutModule sampleDutAnnos)) →
           1 < length (namepath nla).
Proof.
  apply (X11_cast_is_safe_on_well_formed_paths padAllocate sampleCircuit "Wrapper"
           [topModule] (dutModule sampleDutAnnos) []).
  - vm_compute. reflexivity.
  - vm_compute. reflexivity.
  - vm_compute. reflexivity.
  - apply Forall_forall. by_computation.
Defined.

Lemma X12_witness :
  ∃ wrapper shell (retarget : Annotation → Annotation),
    circ_modules (result sampleRun) = [topModule] ++ wrapper :: shell :: []
    ∧ (∀ anno key, key ≠ "circt.nonlocal" →
         dictGet key (retarget anno) = dictGet key anno)
    ∧ (∀ anno, isLocal anno → retarget anno = anno)
    ∧ mod_annotations shell
      ≡ₚ retarget <$> shellAnnotations
                        (moveDut (readDirectives (circ_annotations sampleCircuit)))
                        (dutModule sampleDutAnnos)
    ∧ Forall2 (λ p p', portSignature p' = portSignature p
                       ∧ port_annotations p' ≡ₚ retarget <$> port_annotations p)
        (mod_ports (dutModule sampleDutAnnos)) (mod_ports shell).
Proof.
  apply (X12_retargeting_keeps_annotations padAllocate sampleCircuit sampleRun
           [topModule] (dutModule sampleDutAnnos) []).
  - vm_compute. reflexivity.
  - reflexivity.
  - vm_compute. reflexivity.
Defined.

Lemma X13_witness :
  ∃ wrapper shell,
    circ_modules (result sampleRun) = [topModule] ++ wrapper :: shell :: []
    ∧ filter isLocal (mod_annotations shell)
      = filter isLocal
          (shellAnnotations
             (moveDut (readDirectives (circ_annotations sampleCircuit)))
             (dutModule sampleDutAnnos))
    ∧ Forall2 (λ p p', filter isLocal (port_annotations p')
                       = filter isLocal (port_annotations p))
        (mod_ports (dutModule sampleDutAnnos)) (mod_ports shell).
Proof.
  apply (X13_local_annotations_keep_their_order padAllocate sampleCircuit
           sampleRun [topModule] (dutModule sampleDutAnnos) []).
  - vm_compute. reflexivity.
  - reflexivity.
  - vm_compute. reflexivity.
Defined.

Lemma X14_witness :
  ∃ wrapper shell,
    circ_modules (result sampleRun) = [topModule] ++ wrapper :: shell :: []
    ∧ concat (map rwprobeTargets (mod_body wrapper))
      = (λ target, (mod_name wrapper, target.2))
          <$> concat (map rwprobeTargets (mod_body (dutModule sampleDutAnnos)))
    ∧ (∀ name, map (updateRWProbe name) (mod_body wrapper)
               = map (updateRWProbe name) (mod_body (dutModule sampleDutAnnos)))
    ∧ (concat (map rwprobeTargets (mod_body (dutModule sampleDutAnnos))) = [] →
       mod_body wrapper = mod_body (dutModule sampleDutAnnos)).
Proof.
  apply (X14_rwprobes_follow_the_rename padAllocate sampleCircuit sampleRun
           [topModule] (dutModule sampleDutAnnos) []).
  - vm_compute. reflexivity.
  - reflexivity.
  - vm_compute. reflexivity.
Defined.

Lemma X15_witness : NoDup (symbolsOf (result sampleRun)).
Proof.
  apply (X15_symbols_stay_distinct padAllocate padAllocate_fresh sampleCircuit
           sampleRun).
  - vm_compute. reflexivity.
  - reflexivity.
  - by_computation.
Defined.

Lemma X16_witness :
  ∃ wrapper shell wrapperInst connects,
    circ_modules (result sampleRun) = [topModule] ++ wrapper :: shell :: []
    ∧ mod_body shell = OpInstance wrapperInst :: connects
    ∧ (inst_inner_sym wrapperInst ∉ omap port_sym (mod_ports shell))
    ∧ NoDup (omap port_sym (mod_ports shell)
             ++ concat (map innerSymbolsOf (mod_body shell))).
Proof.
  apply (X16_inner_symbols_stay_distinct padAllocate padAllocate_fresh
           sampleCircuit sampleRun [topModule] (dutModule sampleDutAnnos) []).
  - vm_compute. reflexivity.
  - reflexivity.
  - vm_compute. reflexivity.
  - by_computation.
Defined.

Lemma X17_witness :
  HierPath.root (mkHierPath "nla4" [InnerRefAttr "Wrapper" "sub";
                                    FlatSymbolRefAttr "Sub"])
  ≠ Some (mod_name (dutModule sampleDutAnnos)).
Proof.
  apply (X17_no_path_rooted_at_the_new_DUT padAllocate padAllocate_fresh
           sampleCircuit sampleRun [topModule] (dutModule sampleDutAnnos) []).
  - vm_compute. reflexivity.
  - reflexivity.
  - vm_compute. reflexivity.
  - by_computation.
Defined.

Lemma X18_witness :
  ∃ wrapper shell wrapperInst connects,
    circ_modules (result sampleRun) = [topModule] ++ wrapper :: shell :: []
    ∧ mod_name shell = mod_name (dutModule sampleDutAnnos)
    ∧ mod_body shell = OpInstance wrapperInst :: connects
    ∧ inst_module wrapperInst = mod_name wrapper
    ∧ ∀ q, q ∈ circ_paths (result sampleRun) →
        routesThrough (mod_name shell)
          (InnerRefAttr (mod_name shell) (inst_inner_sym wrapperInst))
          (mod_name wrapper) (namepath q).
Proof.
  apply (X18_paths_route_through_the_wrapper_instance padAllocate
           padAllocate_fresh sampleCircuit sampleRun
           [topModule] (dutModule sampleDutAnnos) []).
  - vm_compute. reflexivity.
  - reflexivity.
  - vm_compute. reflexivity.
  - apply Forall_forall. by_computation.
Defined.
